(** * Pixel2CPP: the format packers and the code generator

    A shallow embedding of [src/lib/io.js] (the packers section, imported
    by the application as [lib/packers.js]) and of the code generation of
    [src/Pixel2CPP.jsx], with the properties of the packing geometry, of
    the colour conversions and of the dispatch on the draw mode and the
    output format. *)

From Stdlib Require Import ZArith NArith QArith String Ascii List Bool Lia ZifyNat.
From Stdlib Require Import Floats Uint63 DecimalString HexadecimalString.
Import ListNotations.

Set Warnings "-inexact-float".
Local Open Scope Z_scope.

(** ** The fragment of JavaScript the sources use *)

Module JS.

(** *** Completions: a call returns normally or throws *)

Inductive exn : Type :=
| TypeError        (* property access on [undefined] *)
| ReferenceError   (* reading an identifier that is not declared *)
| Error (msg : string). (* [throw new Error(msg)] *)

Inductive completion (A : Type) : Type :=
| Normal (a : A)
| Throw (e : exn).
Arguments Normal {A} a.
Arguments Throw {A} e.

Definition bind {A B} (m : completion A) (k : A -> completion B) : completion B :=
  match m with
  | Normal a => k a
  | Throw e => Throw e
  end.

Notation "x <- m ;; k" := (bind m (fun x => k))
  (at level 61, m at next level, right associativity).
Notation "' p <- m ;; k" := (bind m (fun x => let p := x in k))
  (at level 61, p pattern, m at next level, right associativity).

(** *** Loops *)

(** [for (let i = start; i < start + count; i++) body]: the loop state is
    threaded through the iterations and a throwing iteration ends the loop. *)
Fixpoint for_range {St} (start count : nat) (body : nat -> St -> completion St)
    (s : St) : completion St :=
  match count with
  | O => Normal s
  | S n => s' <- body start s ;; for_range (S start) n body s'
  end.

(** [for (let i = n - 1; i >= 0; i--) body]. *)
Fixpoint for_down {St} (n : nat) (body : nat -> St -> completion St)
    (s : St) : completion St :=
  match n with
  | O => Normal s
  | S k => s' <- body k s ;; for_down k body s'
  end.

(** *** 32-bit integer operators

    The bitwise operators convert their operands with ToInt32, the shift
    count is taken modulo 32, and the result is again a signed 32-bit
    integer. *)

Definition ToInt32 (z : Z) : Z :=
  let m := z mod 2 ^ 32 in
  if m <? 2 ^ 31 then m else m - 2 ^ 32.

Definition shl (a n : Z) : Z := ToInt32 (Z.shiftl (ToInt32 a) (n mod 32)).
Definition shr (a n : Z) : Z := Z.shiftr (ToInt32 a) (n mod 32).
Definition and (a b : Z) : Z := Z.land (ToInt32 a) (ToInt32 b).
Definition or (a b : Z) : Z := Z.lor (ToInt32 a) (ToInt32 b).

(** *** Strings: sequences of UTF-16 code units *)

Definition str : Type := list N.

Definition lit (s : string) : str :=
  map N_of_ascii (list_ascii_of_string s).

Definition str_eqb (a b : str) : bool :=
  if list_eq_dec N.eq_dec a b then true else false.

Notation "a === b" := (str_eqb a b) (at level 70, no associativity).

Fixpoint startsWith (s pre : str) : bool :=
  match pre, s with
  | [], _ => true
  | _ :: _, [] => false
  | c :: pre', d :: s' => N.eqb c d && startsWith s' pre'
  end.

(** [s.includes(sub)] *)
Fixpoint includes (s sub : str) : bool :=
  startsWith s sub ||
  match s with
  | [] => false
  | _ :: s' => includes s' sub
  end.

(** [xs.join(sep)] on an array of strings. *)
Fixpoint join (sep : str) (xs : list str) : str :=
  match xs with
  | [] => []
  | [x] => x
  | x :: rest => x ++ sep ++ join sep rest
  end.

(** [s.padStart(n, "0")] *)
Definition padStart0 (n : nat) (s : str) : str :=
  repeat (N_of_ascii "0") (n - length s) ++ s.

(** [s.toUpperCase()], on the ASCII letters. *)
Definition toUpperCase (s : str) : str :=
  map (fun c => if (97 <=? c) && (c <=? 122) then c - 32 else c)%N s.

(** [n.toString(16)] for an integer [n]. *)
Definition toString16 (n : Z) : str :=
  let digits (m : N) := lit (HexadecimalString.NilZero.string_of_uint (N.to_hex_uint m)) in
  if n <? 0 then lit "-" ++ digits (Z.to_N (- n)) else digits (Z.to_N n).

(** [`${n}`] for a non-negative integer [n]. *)
Definition toString10 (n : nat) : str :=
  lit (DecimalString.NilZero.string_of_uint (Nat.to_uint n)).

(** A template literal: the concatenation of its pieces. *)
Definition template (parts : list str) : str := concat parts.

(** *** Numbers that are not integers *)

(** The result of [Math.floor] on a double. *)
Inductive integral : Type :=
| Fin (z : Z)
| PosInf
| NegInf
| NaN.

Definition Math_floor (x : float) : integral :=
  match Prim2SF x with
  | S754_zero _ => Fin 0
  | S754_finite s m e =>
      let n := if s then Z.neg m else Z.pos m in
      Fin (if 0 <=? e then n * 2 ^ e else n / 2 ^ (- e))
  | S754_infinity false => PosInf
  | S754_infinity true => NegInf
  | S754_nan => NaN
  end.

(** [Math.max(a, x)] and [Math.min(a, x)] with an integer [a]. *)
Definition Math_max (a : Z) (x : integral) : integral :=
  match x with
  | Fin z => Fin (Z.max a z)
  | PosInf => PosInf
  | NegInf => Fin a
  | NaN => NaN
  end.

Definition Math_min (a : Z) (x : integral) : integral :=
  match x with
  | Fin z => Fin (Z.min a z)
  | PosInf => Fin a
  | NegInf => NegInf
  | NaN => NaN
  end.

(** ToInt32 of such a number: the infinities and NaN become [0]. *)
Definition integral_ToInt32 (x : integral) : Z :=
  match x with
  | Fin z => ToInt32 z
  | _ => 0
  end.

(** An integer as a double (exact below [2^53]). *)
Definition number (z : Z) : float :=
  if z <? 0 then (- PrimFloat.of_uint63 (Uint63.of_Z (- z)))%float
  else PrimFloat.of_uint63 (Uint63.of_Z z).

End JS.

Import JS.

(** ** lib/packers.js: the format packers *)

(** A pixel is the object [{r, g, b, a}]. *)
Record pixel : Type := mkPixel { r : Z; g : Z; b : Z; a : Z }.

(** Every channel is an 8-bit unsigned integer. *)
Definition channel (c : Z) : Prop := 0 <= c <= 255.

Definition wf_pixel (p : pixel) : Prop :=
  channel (r p) /\ channel (g p) /\ channel (b p) /\ channel (a p).

Definition black : pixel := mkPixel 0 0 0 255.
Definition white : pixel := mkPixel 255 255 255 255.

(** [const I = (x, y) => y * width + x] *)
Definition I (width x y : nat) : nat := y * width + x.

(** [const p = pixels[i]] followed by the first read of a channel of [p]:
    past the end of the array [p] is [undefined] and the read throws. No
    packer does anything between the two. *)
Definition pixel_at (pixels : list pixel) (i : nat) : completion pixel :=
  match nth_error pixels i with
  | Some p => Normal p
  | None => Throw TypeError
  end.

(** [Math.ceil(n / d)] for non-negative integers. *)
Definition ceil_div (n d : nat) : nat := (n + (d - 1)) / d.

(** [rgbTo565(r, g, b)] *)
Definition rgbTo565 (r g b : Z) : Z :=
  let R := JS.and (JS.shr r 3) 0x1f in
  let G := JS.and (JS.shr g 2) 0x3f in
  let B := JS.and (JS.shr b 3) 0x1f in
  JS.or (JS.or (JS.shl R 11) (JS.shl G 5)) B.

(** [hex565(v)] *)
Definition hex565 (v : Z) : str :=
  lit "0x" ++ padStart0 4 (toUpperCase (toString16 v)).

(** [(p.r + p.g + p.b) > (255 * 3) / 2]: the right-hand side is the
    number 382.5, the left-hand side an integer. *)
Definition lighter (p : pixel) : bool :=
  negb (Qle_bool (inject_Z (r p + g p + b p)) ((255 * 3) / 2)%Q).

(** [p.a > 127] *)
Definition hasAlpha (p : pixel) : bool := 127 <? a p.

Section BitPacking.

(** [pack1bit] and [pack1bitAlpha] run the same two loop nests and differ
    in the test on the pixel. *)
Variable on : pixel -> bool.
Variable pixels : list pixel.
Variables width height : nat.

(** The loop state of the horizontal nest: [bytes], [bit], [cur]. *)
Definition horizontal_pixel (y x : nat) (st : list Z * Z * Z)
  : completion (list Z * Z * Z) :=
  let '(bytes, bit, cur) := st in
  p <- pixel_at pixels (I width x y) ;;
  let cur := if on p then JS.or cur (JS.shl 1 bit) else cur in
  let bit := bit - 1 in
  if bit <? 0 then Normal (bytes ++ [cur], 7, 0)
  else Normal (bytes, bit, cur).

Definition horizontal_row (y : nat) (bytes : list Z) : completion (list Z) :=
  '(bytes, bit, cur) <- for_range 0 width (horizontal_pixel y) (bytes, 7, 0) ;;
  if negb (bit =? 7) then Normal (bytes ++ [cur]) else Normal bytes.

Definition horizontal (bytes : list Z) : completion (list Z) :=
  for_range 0 height horizontal_row bytes.

(** The body of [for (let bit = 7; bit >= 0; bit--)]. *)
Definition vertical_bit (x yPage bit : nat) (cur : Z) : completion Z :=
  let y := (yPage * 8 + (7 - bit))%nat in
  if (y <? height)%nat then
    p <- pixel_at pixels (I width x y) ;;
    Normal (if on p then JS.or cur (JS.shl 1 (Z.of_nat bit)) else cur)
  else Normal cur.

Definition vertical_page (x yPage : nat) (bytes : list Z) : completion (list Z) :=
  cur <- for_down 8 (vertical_bit x yPage) 0 ;;
  Normal (bytes ++ [cur]).

Definition vertical_column (x : nat) (bytes : list Z) : completion (list Z) :=
  for_range 0 (ceil_div height 8) (vertical_page x) bytes.

Definition vertical (bytes : list Z) : completion (list Z) :=
  for_range 0 width vertical_column bytes.

End BitPacking.

(** [pack1bit(pixels, width, height, orientation)]. The default value
    'horizontal' of [orientation] stands in for an argument left out;
    here the argument is always given. *)
Definition pack1bit (pixels : list pixel) (width height : nat) (orientation : str)
  : completion (list Z) :=
  let bytes := [] in
  if orientation === lit "horizontal" then
    horizontal lighter pixels width height bytes
  else if orientation === lit "vertical" then
    vertical lighter pixels width height bytes
  else Normal bytes.

(** [pack1bitAlpha(pixels, width, height, orientation)] *)
Definition pack1bitAlpha (pixels : list pixel) (width height : nat) (orientation : str)
  : completion (list Z) :=
  let bytes := [] in
  if orientation === lit "horizontal" then
    horizontal hasAlpha pixels width height bytes
  else
    vertical hasAlpha pixels width height bytes.

(** The loop nest of the row-major packers: [y] outer, [x] inner, each
    pixel pushing the elements [emit p] on the output. *)
Definition row_major (emit : pixel -> list Z) (pixels : list pixel)
    (width height : nat) : completion (list Z) :=
  for_range 0 height (fun y out =>
    for_range 0 width (fun x out =>
      p <- pixel_at pixels (I width x y) ;;
      Normal (out ++ emit p)) out) [].

(** [packRGB565(pixels, width, height)] *)
Definition packRGB565 : list pixel -> nat -> nat -> completion (list Z) :=
  row_major (fun p => [rgbTo565 (r p) (g p) (b p)]).

(** [packRGB24(pixels, width, height)] *)
Definition packRGB24 : list pixel -> nat -> nat -> completion (list Z) :=
  row_major (fun p => [r p; g p; b p]).

(** [rgbTo332(r, g, b)] *)
Definition rgbTo332 (r g b : Z) : Z :=
  let R := JS.and (JS.shr r 5) 0x07 in
  let G := JS.and (JS.shr g 5) 0x07 in
  let B := JS.and (JS.shr b 6) 0x03 in
  JS.or (JS.or (JS.shl R 5) (JS.shl G 2)) B.

(** [packRGB332(pixels, width, height)] *)
Definition packRGB332 : list pixel -> nat -> nat -> completion (list Z) :=
  row_major (fun p => [rgbTo332 (r p) (g p) (b p)]).

(** [Math.floor((0.2126 * p.r + 0.7152 * p.g + 0.0722 * p.b) / 16)], in
    double arithmetic. *)
Definition luma (p : pixel) : integral :=
  Math_floor ((0.2126 * number (r p) + 0.7152 * number (g p)
               + 0.0722 * number (b p)) / 16)%float.

(** [Math.min(15, Math.max(0, luma))], as the bitwise operators see it. *)
Definition gray4 (p : pixel) : Z :=
  integral_ToInt32 (Math_min 15 (Math_max 0 (luma p))).

(** The loop state of [packGray4]: [bytes], [nibble], [cur]. *)
Definition gray4_pixel (pixels : list pixel) (width y x : nat)
    (st : list Z * Z * Z) : completion (list Z * Z * Z) :=
  let '(bytes, nibble, cur) := st in
  p <- pixel_at pixels (I width x y) ;;
  let gray4 := gray4 p in
  if nibble =? 1 then Normal (bytes, 0, JS.shl gray4 4)
  else Normal (bytes ++ [JS.or cur gray4], 1, 0).

Definition gray4_row (pixels : list pixel) (width y : nat) (bytes : list Z)
  : completion (list Z) :=
  '(bytes, nibble, cur) <- for_range 0 width (gray4_pixel pixels width y) (bytes, 1, 0) ;;
  if nibble =? 0 then Normal (bytes ++ [cur]) else Normal bytes.

(** [packGray4(pixels, width, height)] *)
Definition packGray4 (pixels : list pixel) (width height : nat) : completion (list Z) :=
  for_range 0 height (gray4_row pixels width) [].

(** ** Pixel2CPP.jsx: code generation *)

(** The values the code generator handles besides arrays: a string, or
    [undefined] (a variable not assigned yet, a function that ends without
    [return]). *)
Inductive value : Type :=
| VUndefined
| VString (s : str).

(** [`${v}`] *)
Definition show (v : value) : str :=
  match v with
  | VString s => s
  | VUndefined => lit "undefined"
  end.

(** [v === "..."] *)
Definition value_is (v : value) (s : str) : bool :=
  match v with
  | VString t => t === s
  | VUndefined => false
  end.

(** The receiver of a method call ([bytes.map(...)]), which may still be
    [undefined]: the call then throws. *)
Definition receiver {A} (o : option A) : completion A :=
  match o with
  | Some x => Normal x
  | None => Throw TypeError
  end.

(** [(b) => "0x" + b.toString(16).toUpperCase().padStart(2, "0")] *)
Definition hex2 (b : Z) : str :=
  lit "0x" ++ padStart0 2 (toUpperCase (toString16 b)).

(** [(b) => "0x" + b.toString(16).toUpperCase().padStart(4, "0")] *)
Definition hex4 (b : Z) : str :=
  lit "0x" ++ padStart0 4 (toUpperCase (toString16 b)).

(** The [formatByte] of the three emitters that have one. *)
Definition formatByte (dataType : value) (b : Z) : str :=
  if value_is dataType (lit "uint16_t") then hex4 b else hex2 b.

(** [/[^a-zA-Z0-9_]/]: the code units the regular expression matches. *)
Definition identifier_unit (c : N) : bool :=
  ((97 <=? c) && (c <=? 122) || (65 <=? c) && (c <=? 90)
   || (48 <=? c) && (c <=? 57) || (c =? 95))%N.

(** [name.replace(/[^a-zA-Z0-9_]/g, "_")]: the expression has no [u] flag,
    so it is matched against each code unit in turn. *)
Definition sanitize (name : str) : str :=
  map (fun c => if identifier_unit c then c else 95%N) name.

(** [generatePlainBytes(bytes, safeName, w, h, dataType)] *)
Definition generatePlainBytes (bytes : option (list Z)) (safeName : str) (w h : nat)
    (dataType : value) : completion value :=
  bytes <- receiver bytes ;;
  let byteStr := join (lit ", ") (map (formatByte dataType) bytes) in
  Normal (VString (template
      [lit "// Generated by Pixel2CPP - Plain bytes format
// "; toString10 w; lit "x"; toString10 h; lit " pixels, "; toString10 (length bytes); lit " bytes total
// Data type: "; show dataType; lit "

"; byteStr])).

(** [generateArduinoCode(bytes, safeName, w, h, dataType, dataFormat, drawMode)] *)
Definition generateArduinoCode (bytes : option (list Z)) (safeName : str) (w h : nat)
    (dataType dataFormat : value) (drawMode : str) : completion value :=
  bytes <- receiver bytes ;;
  let byteStr := join (lit ", ") (map (formatByte dataType) bytes) in
  if includes drawMode (lit "1BIT") then
    Normal (VString (template
        [lit "// Generated by Pixel2CPP ("; drawMode; lit ")
#include <Adafruit_GFX.h>
#include <Adafruit_SSD1306.h>

const uint16_t "; safeName; lit "_w = "; toString10 w; lit ";
const uint16_t "; safeName; lit "_h = "; toString10 h; lit ";
const "; show dataType; lit " "; safeName; lit "_"; show dataFormat; lit "[] PROGMEM = {
  "; byteStr; lit "
};

Adafruit_SSD1306 display(128, 64, &Wire, -1);

void setup() {
  display.begin(SSD1306_SWITCHCAPVCC, 0x3C);
  display.clearDisplay();
  display.drawBitmap(0, 0, "; safeName; lit "_"; show dataFormat; lit ", "; safeName; lit "_w, "; safeName; lit "_h, 1);
  display.display();
}

void loop() {}"]))
  else if includes drawMode (lit "RGB565") then
    Normal (VString (template
        [lit "// Generated by Pixel2CPP (RGB565)
#include <Adafruit_GFX.h>
#include <Adafruit_ST7735.h>

const uint16_t "; safeName; lit "_w = "; toString10 w; lit ";
const uint16_t "; safeName; lit "_h = "; toString10 h; lit ";
const "; show dataType; lit " "; safeName; lit "_"; show dataFormat; lit "[] PROGMEM = {
  "; byteStr; lit "
};

#define TFT_CS   10
#define TFT_RST  9
#define TFT_DC   8

Adafruit_ST7735 tft = Adafruit_ST7735(TFT_CS, TFT_DC, TFT_RST);

void setup() {
  tft.initR(INITR_BLACKTAB);
  tft.fillScreen(ST77XX_BLACK);
  drawImage(0, 0);
}

void drawImage(int16_t x0, int16_t y0) {
  tft.startWrite();
  tft.setAddrWindow(x0, y0, "; safeName; lit "_w, "; safeName; lit "_h);
  for (uint16_t i = 0; i < "; safeName; lit "_w * "; safeName; lit "_h; i++) {
    uint16_t color = pgm_read_word(&"; safeName; lit "_"; show dataFormat; lit "[i]);
    tft.writePixel(color);
  }
  tft.endWrite();
}

void loop() {}"]))
  else
    Normal (VString (template
        [lit "// Generated by Pixel2CPP ("; drawMode; lit ")
#include <Adafruit_GFX.h>

const uint16_t "; safeName; lit "_w = "; toString10 w; lit ";
const uint16_t "; safeName; lit "_h = "; toString10 h; lit ";
const "; show dataType; lit " "; safeName; lit "_"; show dataFormat; lit "[] PROGMEM = {
  "; byteStr; lit "
};

// Add your display setup and drawing code here"])).

(** [generateArduinoSingleBitmap(bytes, safeName, w, h, dataType, dataFormat)] *)
Definition generateArduinoSingleBitmap (bytes : option (list Z)) (safeName : str)
    (w h : nat) (dataType dataFormat : value) : completion value :=
  bytes <- receiver bytes ;;
  let byteStr := join (lit ", ") (map (formatByte dataType) bytes) in
  Normal (VString (template
      [lit "// Single bitmap array - "; safeName; lit "
// "; toString10 w; lit "x"; toString10 h; lit " pixels, "; toString10 (length bytes); lit " bytes
const "; show dataType; lit " "; safeName; lit "[] PROGMEM = { "; byteStr; lit " };"])).

(** [generateGFXBitmapFont(bytes, safeName, w, h)] *)
Definition generateGFXBitmapFont (bytes : option (list Z)) (safeName : str)
    (w h : nat) : completion value :=
  bytes <- receiver bytes ;;
  let byteStr := join (lit ", ") (map hex2 bytes) in
  Normal (VString (template
      [lit "// GFX Bitmap Font format - "; safeName; lit "
#include <Adafruit_GFX.h>

const uint8_t "; safeName; lit "Bitmaps[] PROGMEM = {
  "; byteStr; lit "
};

const GFXglyph "; safeName; lit "Glyphs[] PROGMEM = {
  { 0, "; toString10 w; lit ", "; toString10 h; lit ", "; toString10 w; lit ", 0, 0 } // Single glyph covering entire bitmap
};

const GFXfont "; safeName; lit " PROGMEM = {
  (uint8_t *)"; safeName; lit "Bitmaps,
  (GFXglyph *)"; safeName; lit "Glyphs,
  0, 0, "; toString10 h; lit "
};"])).

(** The identifier [mode] is declared nowhere in the component (its state
    variables are [drawMode] and [outputFormat]) and is no global of the
    page: reading it throws. *)
Definition mode : completion str := Throw ReferenceError.

(** The legacy sketches of [generateCppCode]. *)
Definition legacy_1bit (safeName : str) (w h : nat) (byteStr : str) : str :=
  template
    [lit "// Generated by Pixel2CPP (1-bit)
#include <Adafruit_GFX.h>
#include <Adafruit_SSD1306.h>

const uint16_t "; safeName; lit "_w = "; toString10 w; lit ";
const uint16_t "; safeName; lit "_h = "; toString10 h; lit ";
const uint8_t "; safeName; lit "_bits[] PROGMEM = {
  "; byteStr; lit "
};

Adafruit_SSD1306 display(128, 64, &Wire, -1);

void setup(){
  display.begin(SSD1306_SWITCHCAPVCC, 0x3C);
  display.clearDisplay();
  display.drawBitmap(0, 0, "; safeName; lit "_bits, "; safeName; lit "_w, "; safeName; lit "_h, 1);
  display.display();
}

void loop(){}"].

Definition legacy_rgb565 (safeName : str) (w h : nat) (wordStr : str) : str :=
  template
    [lit "// Generated by Pixel2CPP (RGB565 for TFT displays)
#include <Adafruit_GFX.h>
#include <Adafruit_ST7735.h>  // Use ST7789, ILI9341, etc. for your display

const uint16_t "; safeName; lit "_w = "; toString10 w; lit ";
const uint16_t "; safeName; lit "_h = "; toString10 h; lit ";
const uint16_t "; safeName; lit "_pixels[] PROGMEM = {
  "; wordStr; lit "
};

// Define pins for your display (adjust for your setup)
#define TFT_CS   10
#define TFT_RST  9
#define TFT_DC   8

Adafruit_ST7735 tft = Adafruit_ST7735(TFT_CS, TFT_DC, TFT_RST);

void setup() {
  Serial.begin(9600);
  
  // Initialize display
  tft.initR(INITR_BLACKTAB);  // Use INITR_GREENTAB, INITR_REDTAB for other variants
  tft.setRotation(0);         // Adjust rotation as needed (0-3)
  tft.fillScreen(ST77XX_BLACK);
  
  // Display the image at position (0, 0)
  drawImage(0, 0);
}

void loop() {
  // Your main code here
}

void drawImage(int16_t x0, int16_t y0) {
  // Fast method: set address window and write pixels directly
  tft.startWrite();
  tft.setAddrWindow(x0, y0, "; safeName; lit "_w, "; safeName; lit "_h);
  
  for (uint16_t i = 0; i < "; safeName; lit "_w * "; safeName; lit "_h; i++) {
    uint16_t color = pgm_read_word(&"; safeName; lit "_pixels[i]);
    tft.writePixel(color);
  }
  
  tft.endWrite();
}

/* Alternative method (slower but more flexible):
void drawImagePixelByPixel(int16_t x0, int16_t y0) {
  for (uint16_t y = 0; y < "; safeName; lit "_h; y++) {
    for (uint16_t x = 0; x < "; safeName; lit "_w; x++) {
      uint16_t color = pgm_read_word(&"; safeName; lit "_pixels[y * "; safeName; lit "_w + x]);
      tft.drawPixel(x0 + x, y0 + y, color);
    }
  }
}
*/"].

Definition legacy_rgb24 (safeName : str) (w h : nat) (byteStr : str) : str :=
  template
    [lit "// Generated by Pixel2CPP (RGB24 for ESP32/high-memory displays)
#include <Adafruit_GFX.h>
#include <Adafruit_ILI9341.h>  // Use appropriate display library

const uint16_t "; safeName; lit "_w = "; toString10 w; lit ";
const uint16_t "; safeName; lit "_h = "; toString10 h; lit ";
const uint8_t "; safeName; lit "_pixels[] PROGMEM = {
  "; byteStr; lit "
};

// Define pins for your display
#define TFT_CS   10
#define TFT_RST  9
#define TFT_DC   8

Adafruit_ILI9341 tft = Adafruit_ILI9341(TFT_CS, TFT_DC, TFT_RST);

void setup() {
  Serial.begin(9600);
  
  // Initialize display
  tft.begin();
  tft.setRotation(0);
  tft.fillScreen(ILI9341_BLACK);
  
  // Display the image
  drawImage(0, 0);
}

void loop() {
  // Your main code here
}

void drawImage(int16_t x0, int16_t y0) {
  // Convert RGB24 to RGB565 on the fly for display
  for (uint16_t y = 0; y < "; safeName; lit "_h; y++) {
    for (uint16_t x = 0; x < "; safeName; lit "_w; x++) {
      uint16_t index = (y * "; safeName; lit "_w + x) * 3;
      uint8_t r = pgm_read_byte(&"; safeName; lit "_pixels[index]);
      uint8_t g = pgm_read_byte(&"; safeName; lit "_pixels[index + 1]);
      uint8_t b = pgm_read_byte(&"; safeName; lit "_pixels[index + 2]);
      
      // Convert to RGB565
      uint16_t color = ((r & 0xF8) << 8) | ((g & 0xFC) << 3) | (b >> 3);
      tft.drawPixel(x0 + x, y0 + y, color);
    }
  }
}"].

Definition legacy_rgb332 (safeName : str) (w h : nat) (byteStr : str) : str :=
  template
    [lit "// Generated by Pixel2CPP (RGB332 for low-memory/retro displays)
#include <Adafruit_GFX.h>
#include <Adafruit_SSD1331.h>  // Or other 8-bit color displays

const uint16_t "; safeName; lit "_w = "; toString10 w; lit ";
const uint16_t "; safeName; lit "_h = "; toString10 h; lit ";
const uint8_t "; safeName; lit "_pixels[] PROGMEM = {
  "; byteStr; lit "
};

// Define pins for your display
#define OLED_CS   10
#define OLED_RST  9
#define OLED_DC   8

Adafruit_SSD1331 display = Adafruit_SSD1331(OLED_CS, OLED_DC, OLED_RST);

void setup() {
  Serial.begin(9600);
  
  // Initialize display
  display.begin();
  display.fillScreen(0x00);
  
  // Display the image
  drawImage(0, 0);
}

void loop() {
  // Your main code here
}

void drawImage(int16_t x0, int16_t y0) {
  for (uint16_t y = 0; y < "; safeName; lit "_h; y++) {
    for (uint16_t x = 0; x < "; safeName; lit "_w; x++) {
      uint8_t color332 = pgm_read_byte(&"; safeName; lit "_pixels[y * "; safeName; lit "_w + x]);
      display.drawPixel(x0 + x, y0 + y, color332);
    }
  }
}

/* Color conversion reference:
   RGB332: RRRGGGBB (8-bit)
   - Red: 3 bits (0-7) 
   - Green: 3 bits (0-7)
   - Blue: 2 bits (0-3)
*/"].

Definition legacy_gray4 (safeName : str) (w h : nat) (byteStr : str) : str :=
  template
    [lit "// Generated by Pixel2CPP (4-bit Grayscale for E-ink/EPD)
#include <Adafruit_GFX.h>
#include <Adafruit_EPD.h>  // Use appropriate e-ink library

const uint16_t "; safeName; lit "_w = "; toString10 w; lit ";
const uint16_t "; safeName; lit "_h = "; toString10 h; lit ";
const uint8_t "; safeName; lit "_pixels[] PROGMEM = {
  "; byteStr; lit "
};

// Define pins for your e-ink display
#define EPD_CS     10
#define EPD_DC     8
#define EPD_RESET  9
#define EPD_BUSY   7

// Adafruit_IL0373 display(152, 152, EPD_DC, EPD_RESET, EPD_CS, SRAM_CS, EPD_BUSY);

void setup() {
  Serial.begin(9600);
  
  // Initialize e-ink display
  // display.begin();
  // display.clearBuffer();
  
  // Display the image
  drawGrayImage(0, 0);
}

void loop() {
  // E-ink displays typically don't need continuous refresh
}

void drawGrayImage(int16_t x0, int16_t y0) {
  // Extract 4-bit grayscale values and display
  for (uint16_t y = 0; y < "; safeName; lit "_h; y++) {
    for (uint16_t x = 0; x < "; safeName; lit "_w; x++) {
      uint16_t byteIndex = (y * "; safeName; lit "_w + x) / 2;
      uint8_t packedByte = pgm_read_byte(&"; safeName; lit "_pixels[byteIndex]);
      
      uint8_t grayValue;
      if (x % 2 == 0) {
        grayValue = (packedByte >> 4) & 0x0F; // High nibble
      } else {
        grayValue = packedByte & 0x0F; // Low nibble
      }
      
      // Convert 4-bit (0-15) to 8-bit (0-255) for display
      uint8_t gray8 = grayValue * 17; // 15 * 17 = 255
      
      // Use appropriate display function for your e-ink library
      // display.drawPixel(x0 + x, y0 + y, gray8);
    }
  }
  
  // display.display(); // Refresh e-ink display
}

/* 4-bit Grayscale format:
   Each byte contains 2 pixels: AAAABBBB
   - High nibble (AAAA): First pixel grayscale (0-15)
   - Low nibble (BBBB): Second pixel grayscale (0-15)
   - 0 = Black, 15 = White
*/"].

Section Component.

(** The state of the component that code generation reads. *)
Variables name drawMode outputFormat : str.
Variable data : list pixel.
Variables w h : nat.

(** The first dispatch of [generateCppCode]: [bytes], [dataType] and
    [dataFormat] by draw mode; all three stay [undefined] when no branch
    is taken. *)
Definition pack_by_drawMode : completion (option (list Z) * value * value) :=
  if drawMode === lit "HORIZONTAL_1BIT" then
    bytes <- pack1bit data w h (lit "horizontal") ;;
    Normal (Some bytes, VString (lit "uint8_t"), VString (lit "bits"))
  else if drawMode === lit "VERTICAL_1BIT" then
    bytes <- pack1bit data w h (lit "vertical") ;;
    Normal (Some bytes, VString (lit "uint8_t"), VString (lit "bits"))
  else if drawMode === lit "HORIZONTAL_ALPHA" then
    bytes <- pack1bitAlpha data w h (lit "horizontal") ;;
    Normal (Some bytes, VString (lit "uint8_t"), VString (lit "alpha"))
  else if drawMode === lit "HORIZONTAL_RGB565" then
    bytes <- packRGB565 data w h ;;
    Normal (Some bytes, VString (lit "uint16_t"), VString (lit "pixels"))
  else if drawMode === lit "HORIZONTAL_RGB888_24" then
    bytes <- packRGB24 data w h ;;
    Normal (Some bytes, VString (lit "uint8_t"), VString (lit "pixels"))
  else if drawMode === lit "HORIZONTAL_RGB888_32" then
    bytes <- row_major (fun p => [r p; g p; b p; a p]) data w h ;;
    Normal (Some bytes, VString (lit "uint8_t"), VString (lit "pixels"))
  else Normal (None, VUndefined, VUndefined).

(** The code after the dispatch on the output format
    ("Legacy fallback for old mode system"). *)
Definition legacy_fallback (safeName : str) (bytes : option (list Z))
  : completion value :=
  if drawMode === lit "HORIZONTAL_1BIT" then
    bytes <- receiver bytes ;;
    Normal (VString (legacy_1bit safeName w h (join (lit ", ") (map hex2 bytes))))
  else if drawMode === lit "HORIZONTAL_RGB565" then
    words <- packRGB565 data w h ;;
    Normal (VString (legacy_rgb565 safeName w h (join (lit ", ") (map hex565 words))))
  else
    m <- mode ;;
    if m === lit "RGB24" then
      bytes <- packRGB24 data w h ;;
      Normal (VString (legacy_rgb24 safeName w h (join (lit ", ") (map hex2 bytes))))
    else
      m <- mode ;;
      if m === lit "RGB332" then
        bytes <- packRGB332 data w h ;;
        Normal (VString (legacy_rgb332 safeName w h (join (lit ", ") (map hex2 bytes))))
      else
        m <- mode ;;
        if m === lit "GRAY4" then
          bytes <- packGray4 data w h ;;
          Normal (VString (legacy_gray4 safeName w h (join (lit ", ") (map hex2 bytes))))
        else Normal VUndefined.

(** [generateCppCode()] *)
Definition generateCppCode : completion value :=
  let safeName := sanitize name in
  '(bytes, dataType, dataFormat) <- pack_by_drawMode ;;
  if outputFormat === lit "PLAIN_BYTES" then
    generatePlainBytes bytes safeName w h dataType
  else if outputFormat === lit "ARDUINO_CODE" then
    generateArduinoCode bytes safeName w h dataType dataFormat drawMode
  else if outputFormat === lit "ARDUINO_SINGLE_BITMAP" then
    generateArduinoSingleBitmap bytes safeName w h dataType dataFormat
  else if outputFormat === lit "GFX_BITMAP_FONT" then
    generateGFXBitmapFont bytes safeName w h
  else legacy_fallback safeName bytes.

(** [download(filename, text)] hands the browser a file to save. *)
Record download : Type := mkDownload { filename : str; text : value }.

(** [exportCpp()] *)
Definition exportCpp : completion download :=
  code <- generateCppCode ;;
  let safeName := sanitize name in
  Normal (mkDownload (template [safeName; lit ".h"]) code).

End Component.

(** ** lib/colors.js *)

(** [clamp(n, min, max)]: [Math.max(min, Math.min(max, n))]. *)
Definition clamp (n : integral) (min max : Z) : integral :=
  Math_max min (Math_min max n).

Definition transparent : pixel := mkPixel 0 0 0 0.

(** [rgbaToHex(p)]: [to2] is [v.toString(16).padStart(2, "0")]. *)
Definition rgbaToHex (p : pixel) : str :=
  let to2 (v : Z) := padStart0 2 (toString16 v) in
  template [lit "#"; to2 (r p); to2 (g p); to2 (b p)].

(** ** Pixel2CPP.jsx: the editor *)

(** [parseInt(e.target.value) || 1]: [parseInt] returns an integer or NaN,
    and [||] replaces the falsy ones, NaN and zero, by [1]. *)
Definition or_1 (parsed : integral) : integral :=
  match parsed with
  | NaN => Fin 1
  | Fin 0 => Fin 1
  | n => n
  end.

(** The [onChange] handler of the width and height inputs: the value
    passed to [setW], [setH]. *)
Definition size_onChange (parsed : integral) : integral :=
  clamp (or_1 parsed) 1 256.

(** The threshold of [importImage]:
    [0.2126 * p.r + 0.7152 * p.g + 0.0722 * p.b], in double arithmetic. *)
Definition import_luma (p : pixel) : float :=
  (0.2126 * number (r p) + 0.7152 * number (g p) + 0.0722 * number (b p))%float.

(** [drawMode.includes("1BIT") || drawMode.includes("ALPHA")] and the loop
    [out[i] = luma > 127 ? white() : black()] over the whole of [out]. *)
Definition import_threshold (drawMode : str) (out : list pixel) : list pixel :=
  if includes drawMode (lit "1BIT") || includes drawMode (lit "ALPHA") then
    map (fun p => if (127 <? import_luma p)%float then white else black) out
  else out.

Module Editor.

(** What an index of the pixel buffer holds: nothing (an index never
    assigned, which [map] skips), [undefined], the object [{}] that
    [({ ...p })] makes of [undefined], or a pixel. *)
Inductive cell : Type :=
| Hole
| Undefined
| Blank
| Px (p : pixel).

Definition canvas : Type := list cell.

(** [d[i]]: a hole and an index past the end read as [undefined]. *)
Definition read (d : canvas) (i : nat) : cell :=
  match nth i d Hole with
  | Hole => Undefined
  | c => c
  end.

(** [d[i] = v]: an index past the end extends the array, leaving holes. *)
Fixpoint write (d : canvas) (i : nat) (v : cell) : canvas :=
  match i, d with
  | O, [] => [v]
  | O, _ :: rest => v :: rest
  | S k, [] => Hole :: write [] k v
  | S k, c :: rest => c :: write rest k v
  end.

(** [rgbaEq(a, b)] of [lib/colors.js]: the first comparison reads [a.r]
    and [b.r], which throws when either is [undefined]; a channel of [{}]
    is [undefined], equal to itself and to no number. *)
Definition rgbaEq (p q : cell) : completion bool :=
  match p, q with
  | (Hole | Undefined), _ | _, (Hole | Undefined) => Throw TypeError
  | Blank, Blank => Normal true
  | Px p, Px q =>
      Normal ((r p =? r q) && (g p =? g q) && (b p =? b q) && (a p =? a q))
  | _, _ => Normal false
  end.

(** [d.map((p) => ({ ...p }))] *)
Definition copy (d : canvas) : canvas :=
  map (fun c => match c with
                | Hole => Hole
                | Undefined | Blank => Blank
                | Px p => Px p
                end) d.

(** [Array.from({ length: w * h }, () => transparent())] *)
Definition blank_canvas (w h : nat) : canvas := repeat (Px transparent) (w * h).

(** The state of the component that the editing functions change. *)
Record state : Type :=
  mkState { data : canvas; prevSize : nat * nat; history : list canvas; redo : list canvas }.

(** [pushHistory(d)] *)
Definition pushHistory (d : canvas) (s : state) : state :=
  mkState (data s) (prevSize s) (history s ++ [copy d]) [].

(** The effect that runs when [w] or [h] changed. *)
Definition resize (w h : nat) (s : state) : state :=
  let '(ow, oh) := prevSize s in
  if (ow =? w)%nat && (oh =? h)%nat then s
  else
    let prev := data s in
    let out := blank_canvas w h in
    let cw := Nat.min ow w in
    let ch := Nat.min oh h in
    let out :=
      fold_left (fun out y =>
        fold_left (fun out x => write out (y * w + x) (read prev (y * ow + x)))
                  (seq 0 cw) out)
        (seq 0 ch) out in
    mkState out (w, h) [] [].

(** [x < 0 || y < 0 || x >= w || y >= h] *)
Definition outside (w h : nat) (x y : Z) : bool :=
  (x <? 0) || (y <? 0) || (x >=? Z.of_nat w) || (y >=? Z.of_nat h).

(** [idx(x, y)], used inside the bounds only. *)
Definition idx (w : nat) (x y : Z) : nat := Z.to_nat (y * Z.of_nat w + x).

(** [setPixel(px, py)] inside [drawAt]. *)
Definition setPixel (w h : nat) (pix : cell) (erase : bool) (px py : Z) (nd : canvas)
  : canvas :=
  if outside w h px py then nd
  else write nd (idx w px py) (if erase then Px transparent else pix).

(** [drawAt(x, y, pix, erase)]: the new value of [data]. *)
Definition drawAt (w h : nat) (mirrorX mirrorY : bool) (x y : Z) (pix : cell)
    (erase : bool) (d : canvas) : canvas :=
  if outside w h x y then d
  else
    let nd := d in
    let nd := setPixel w h pix erase x y nd in
    let nd := if mirrorX then setPixel w h pix erase (Z.of_nat w - 1 - x) y nd else nd in
    let nd := if mirrorY then setPixel w h pix erase x (Z.of_nat h - 1 - y) nd else nd in
    let nd := if mirrorX && mirrorY
              then setPixel w h pix erase (Z.of_nat w - 1 - x) (Z.of_nat h - 1 - y) nd
              else nd in
    nd.

(** The loop [while (stack.length)] of [floodFill]. The head of the list
    is the top of the stack, the element [pop] removes; [None] is a run
    that needs more than [fuel] iterations. *)
Fixpoint fill_loop (w h : nat) (target replacement : cell) (fuel : nat)
    (stack : list (Z * Z)) (d : canvas) : option (completion canvas) :=
  match stack with
  | [] => Some (Normal d)
  | (x, y) :: stack =>
      match fuel with
      | O => None
      | S fuel =>
          if outside w h x y then fill_loop w h target replacement fuel stack d
          else
            let i := idx w x y in
            match rgbaEq (read d i) target with
            | Throw e => Some (Throw e)
            | Normal false => fill_loop w h target replacement fuel stack d
            | Normal true =>
                fill_loop w h target replacement fuel
                  ((x, y - 1) :: (x, y + 1) :: (x - 1, y) :: (x + 1, y) :: stack)
                  (write d i replacement)
            end
      end
  end.

(** [floodFill(sx, sy, target, replacement)]: the new value of [data]. *)
Definition floodFill (w h : nat) (fuel : nat) (sx sy : Z) (target replacement : cell)
    (d : canvas) : option (completion canvas) :=
  match rgbaEq target replacement with
  | Throw e => Some (Throw e)
  | Normal true => Some (Normal d)
  | Normal false => fill_loop w h target replacement fuel [(sx, sy)] d
  end.

(** [clearCanvas()] *)
Definition clearCanvas (w h : nat) (s : state) : state :=
  let s := pushHistory (data s) s in
  mkState (blank_canvas w h) (prevSize s) (history s) (redo s).

(** The [onClick] handler of the Undo button. *)
Definition undo_onClick (s : state) : state :=
  match history s with
  | [] => s
  | _ :: _ =>
      let last := List.last (history s) [] in
      mkState (copy last) (prevSize s) (removelast (history s)) (copy (data s) :: redo s)
  end.

(** The [onClick] handler of the Redo button. *)
Definition redo_onClick (s : state) : state :=
  match redo s with
  | [] => s
  | next :: rest =>
      mkState (copy next) (prevSize s) (history s ++ [copy (data s)]) rest
  end.

End Editor.

(** ** The vocabulary of the specifications *)

(** The byte whose [m] leading bits are [f 0 .. f (m-1)], the rest zero. *)
Fixpoint bits_acc (f : nat -> bool) (m : nat) : Z :=
  match m with
  | O => 0
  | S k => let c := bits_acc f k in
           if f k then Z.lor c (2 ^ (7 - Z.of_nat k)) else c
  end.

(** The test [on] at index [i] of the buffer. *)
Definition bit_at (on : pixel -> bool) (pixels : list pixel) (i : nat) : bool :=
  match nth_error pixels i with
  | Some p => on p
  | None => false
  end.

(** Bit [j] of byte [k] of row [y]: a pixel of the row, or padding. *)
Definition row_bit (on : pixel -> bool) (pixels : list pixel) (width : nat)
    (y k j : nat) : bool :=
  (8 * k + j <? width)%nat && bit_at on pixels (I width (8 * k + j) y).

Definition row_bytes (on : pixel -> bool) (pixels : list pixel) (width : nat)
    (y : nat) : list Z :=
  map (fun k => bits_acc (row_bit on pixels width y k) 8) (seq 0 (ceil_div width 8)).

(** Bit [j] of page [page] of column [x]: a pixel of the column, or a
    position below the last row. *)
Definition column_bit (on : pixel -> bool) (pixels : list pixel) (width height : nat)
    (x page j : nat) : bool :=
  (8 * page + j <? height)%nat && bit_at on pixels (I width x (8 * page + j)).

Definition column_bytes (on : pixel -> bool) (pixels : list pixel) (width height : nat)
    (x : nat) : list Z :=
  map (fun page => bits_acc (column_bit on pixels width height x page) 8)
      (seq 0 (ceil_div height 8)).

(** The gray value at index [i] of the buffer. *)
Definition gray_at (pixels : list pixel) (i : nat) : Z :=
  match nth_error pixels i with
  | Some p => gray4 p
  | None => 0
  end.

(** Byte [k] of row [y]: two pixels, or the last pixel of an odd row. *)
Definition gray_byte (pixels : list pixel) (w y k : nat) : Z :=
  16 * gray_at pixels (I w (2 * k) y)
  + (if (2 * k + 1 <? w)%nat then gray_at pixels (I w (2 * k + 1) y) else 0).

Definition gray_row_bytes (pixels : list pixel) (w y : nat) : list Z :=
  map (gray_byte pixels w y) (seq 0 (ceil_div w 2)).

(** What the specification says of the gray value: the quotient rounded
    to the nearest integer, [Math.round(x)] being [Math.floor(x + 0.5)]. *)
Definition gray4_rounded (p : pixel) : Z :=
  integral_ToInt32
    (Math_min 15 (Math_max 0
      (Math_floor ((0.2126 * number (r p) + 0.7152 * number (g p)
                    + 0.0722 * number (b p)) / 16 + 0.5)%float))).

(** A loop nest that reads the whole [w] by [h] grid and nothing else: it
    throws nothing but the TypeError of a missing pixel, returns normally
    only when the buffer holds the grid, and does not see what the buffer
    holds beyond the grid. *)
Definition reads_grid (w h : nat) (pack : list pixel -> completion (list Z)) : Prop :=
  (forall pixels e, pack pixels = Throw e -> e = TypeError) /\
  (forall pixels out, pack pixels = Normal out ->
     forall x y, (x < w)%nat -> (y < h)%nat -> (I w x y < length pixels)%nat) /\
  (forall pixels, pack (firstn (w * h) pixels) = pack pixels).

(** The packers of [lib/packers.js], [pack1bit] and [pack1bitAlpha] in
    each orientation. *)
Definition packers : list (list pixel -> nat -> nat -> completion (list Z)) :=
  [ (fun pixels w h => pack1bit pixels w h (lit "horizontal"));
    (fun pixels w h => pack1bit pixels w h (lit "vertical"));
    (fun pixels w h => pack1bitAlpha pixels w h (lit "horizontal"));
    (fun pixels w h => pack1bitAlpha pixels w h (lit "vertical"));
    packRGB565; packRGB24; packRGB332; packGray4 ].

(** The texts that code generation returns, written as fixed text with a
    slot [Name] at every place where the identifier of the asset stands:
    in a declaration, in a reference, in a comment. The other pieces are
    the sizes, the type and suffix of the data and the listing of the
    packed data. *)
Inductive piece : Type :=
| Text (s : str)
| Name.

(** The text of a list of pieces, with [name] at every slot. *)
Definition fill (name : str) (pieces : list piece) : str :=
  flat_map (fun p => match p with Text s => s | Name => name end) pieces.

(** The plain listing: it has no slot. *)
Definition plain_bytes_text (w h count : nat) (dataType listing : str) : list piece :=
  [Text (lit "// Generated by Pixel2CPP - Plain bytes format
// "); Text (toString10 w); Text (lit "x"); Text (toString10 h); Text (lit " pixels, "); Text (toString10 count); Text (lit " bytes total
// Data type: "); Text dataType; Text (lit "

"); Text listing].

(** The sketch for the 1-bit draw modes. *)
Definition sketch_1bit_text (drawMode : str) (w h : nat)
    (dataType dataFormat listing : str) : list piece :=
  [Text (lit "// Generated by Pixel2CPP ("); Text drawMode; Text (lit ")
#include <Adafruit_GFX.h>
#include <Adafruit_SSD1306.h>

const uint16_t "); Name; Text (lit "_w = "); Text (toString10 w); Text (lit ";
const uint16_t "); Name; Text (lit "_h = "); Text (toString10 h); Text (lit ";
const "); Text dataType; Text (lit " "); Name; Text (lit "_"); Text dataFormat; Text (lit "[] PROGMEM = {
  "); Text listing; Text (lit "
};

Adafruit_SSD1306 display(128, 64, &Wire, -1);

void setup() {
  display.begin(SSD1306_SWITCHCAPVCC, 0x3C);
  display.clearDisplay();
  display.drawBitmap(0, 0, "); Name; Text (lit "_"); Text dataFormat; Text (lit ", "); Name; Text (lit "_w, "); Name; Text (lit "_h, 1);
  display.display();
}

void loop() {}")].

(** The sketch for RGB565. *)
Definition sketch_rgb565_text (w h : nat) (dataType dataFormat listing : str)
  : list piece :=
  [Text (lit "// Generated by Pixel2CPP (RGB565)
#include <Adafruit_GFX.h>
#include <Adafruit_ST7735.h>

const uint16_t "); Name; Text (lit "_w = "); Text (toString10 w); Text (lit ";
const uint16_t "); Name; Text (lit "_h = "); Text (toString10 h); Text (lit ";
const "); Text dataType; Text (lit " "); Name; Text (lit "_"); Text dataFormat; Text (lit "[] PROGMEM = {
  "); Text listing; Text (lit "
};

#define TFT_CS   10
#define TFT_RST  9
#define TFT_DC   8

Adafruit_ST7735 tft = Adafruit_ST7735(TFT_CS, TFT_DC, TFT_RST);

void setup() {
  tft.initR(INITR_BLACKTAB);
  tft.fillScreen(ST77XX_BLACK);
  drawImage(0, 0);
}

void drawImage(int16_t x0, int16_t y0) {
  tft.startWrite();
  tft.setAddrWindow(x0, y0, "); Name; Text (lit "_w, "); Name; Text (lit "_h);
  for (uint16_t i = 0; i < "); Name; Text (lit "_w * "); Name; Text (lit "_h; i++) {
    uint16_t color = pgm_read_word(&"); Name; Text (lit "_"); Text dataFormat; Text (lit "[i]);
    tft.writePixel(color);
  }
  tft.endWrite();
}

void loop() {}")].

(** The sketch for the other draw modes. *)
Definition sketch_other_text (drawMode : str) (w h : nat)
    (dataType dataFormat listing : str) : list piece :=
  [Text (lit "// Generated by Pixel2CPP ("); Text drawMode; Text (lit ")
#include <Adafruit_GFX.h>

const uint16_t "); Name; Text (lit "_w = "); Text (toString10 w); Text (lit ";
const uint16_t "); Name; Text (lit "_h = "); Text (toString10 h); Text (lit ";
const "); Text dataType; Text (lit " "); Name; Text (lit "_"); Text dataFormat; Text (lit "[] PROGMEM = {
  "); Text listing; Text (lit "
};

// Add your display setup and drawing code here")].

(** The single array declaration. *)
Definition single_bitmap_text (w h count : nat) (dataType listing : str) : list piece :=
  [Text (lit "// Single bitmap array - "); Name; Text (lit "
// "); Text (toString10 w); Text (lit "x"); Text (toString10 h); Text (lit " pixels, "); Text (toString10 count); Text (lit " bytes
const "); Text dataType; Text (lit " "); Name; Text (lit "[] PROGMEM = { "); Text listing; Text (lit " };")].

(** The bitmap, glyph table and font structure. *)
Definition gfx_font_text (w h : nat) (listing : str) : list piece :=
  [Text (lit "// GFX Bitmap Font format - "); Name; Text (lit "
#include <Adafruit_GFX.h>

const uint8_t "); Name; Text (lit "Bitmaps[] PROGMEM = {
  "); Text listing; Text (lit "
};

const GFXglyph "); Name; Text (lit "Glyphs[] PROGMEM = {
  { 0, "); Text (toString10 w); Text (lit ", "); Text (toString10 h); Text (lit ", "); Text (toString10 w); Text (lit ", 0, 0 } // Single glyph covering entire bitmap
};

const GFXfont "); Name; Text (lit " PROGMEM = {
  (uint8_t *)"); Name; Text (lit "Bitmaps,
  (GFXglyph *)"); Name; Text (lit "Glyphs,
  0, 0, "); Text (toString10 h); Text (lit "
};")].

(** The legacy sketch for HORIZONTAL_1BIT. *)
Definition legacy_1bit_text (w h : nat) (listing : str) : list piece :=
  [Text (lit "// Generated by Pixel2CPP (1-bit)
#include <Adafruit_GFX.h>
#include <Adafruit_SSD1306.h>

const uint16_t "); Name; Text (lit "_w = "); Text (toString10 w); Text (lit ";
const uint16_t "); Name; Text (lit "_h = "); Text (toString10 h); Text (lit ";
const uint8_t "); Name; Text (lit "_bits[] PROGMEM = {
  "); Text listing; Text (lit "
};

Adafruit_SSD1306 display(128, 64, &Wire, -1);

void setup(){
  display.begin(SSD1306_SWITCHCAPVCC, 0x3C);
  display.clearDisplay();
  display.drawBitmap(0, 0, "); Name; Text (lit "_bits, "); Name; Text (lit "_w, "); Name; Text (lit "_h, 1);
  display.display();
}

void loop(){}")].

(** The legacy sketch for HORIZONTAL_RGB565. *)
Definition legacy_rgb565_text (w h : nat) (listing : str) : list piece :=
  [Text (lit "// Generated by Pixel2CPP (RGB565 for TFT displays)
#include <Adafruit_GFX.h>
#include <Adafruit_ST7735.h>  // Use ST7789, ILI9341, etc. for your display

const uint16_t "); Name; Text (lit "_w = "); Text (toString10 w); Text (lit ";
const uint16_t "); Name; Text (lit "_h = "); Text (toString10 h); Text (lit ";
const uint16_t "); Name; Text (lit "_pixels[] PROGMEM = {
  "); Text listing; Text (lit "
};

// Define pins for your display (adjust for your setup)
#define TFT_CS   10
#define TFT_RST  9
#define TFT_DC   8

Adafruit_ST7735 tft = Adafruit_ST7735(TFT_CS, TFT_DC, TFT_RST);

void setup() {
  Serial.begin(9600);
  
  // Initialize display
  tft.initR(INITR_BLACKTAB);  // Use INITR_GREENTAB, INITR_REDTAB for other variants
  tft.setRotation(0);         // Adjust rotation as needed (0-3)
  tft.fillScreen(ST77XX_BLACK);
  
  // Display the image at position (0, 0)
  drawImage(0, 0);
}

void loop() {
  // Your main code here
}

void drawImage(int16_t x0, int16_t y0) {
  // Fast method: set address window and write pixels directly
  tft.startWrite();
  tft.setAddrWindow(x0, y0, "); Name; Text (lit "_w, "); Name; Text (lit "_h);
  
  for (uint16_t i = 0; i < "); Name; Text (lit "_w * "); Name; Text (lit "_h; i++) {
    uint16_t color = pgm_read_word(&"); Name; Text (lit "_pixels[i]);
    tft.writePixel(color);
  }
  
  tft.endWrite();
}

/* Alternative method (slower but more flexible):
void drawImagePixelByPixel(int16_t x0, int16_t y0) {
  for (uint16_t y = 0; y < "); Name; Text (lit "_h; y++) {
    for (uint16_t x = 0; x < "); Name; Text (lit "_w; x++) {
      uint16_t color = pgm_read_word(&"); Name; Text (lit "_pixels[y * "); Name; Text (lit "_w + x]);
      tft.drawPixel(x0 + x, y0 + y, color);
    }
  }
}
*/")].

(** Which of them a pair of selectors gives. *)
Definition generated_text (drawMode outputFormat : str) (w h count : nat)
    (dataType dataFormat listing : str) : list piece :=
  if outputFormat === lit "PLAIN_BYTES" then
    plain_bytes_text w h count dataType listing
  else if outputFormat === lit "ARDUINO_CODE" then
    if includes drawMode (lit "1BIT") then
      sketch_1bit_text drawMode w h dataType dataFormat listing
    else if includes drawMode (lit "RGB565") then
      sketch_rgb565_text w h dataType dataFormat listing
    else sketch_other_text drawMode w h dataType dataFormat listing
  else if outputFormat === lit "ARDUINO_SINGLE_BITMAP" then
    single_bitmap_text w h count dataType listing
  else if outputFormat === lit "GFX_BITMAP_FONT" then
    gfx_font_text w h listing
  else if drawMode === lit "HORIZONTAL_1BIT" then
    legacy_1bit_text w h listing
  else legacy_rgb565_text w h listing.

(** ** Reading the hexadecimal literals back *)

(** The value of an upper-case hexadecimal digit. *)
Definition hex_digit (c : N) : option Z :=
  if ((N_of_ascii "0" <=? c) && (c <=? N_of_ascii "9"))%N
  then Some (Z.of_N c - Z.of_N (N_of_ascii "0"))
  else if ((N_of_ascii "A" <=? c) && (c <=? N_of_ascii "F"))%N
  then Some (Z.of_N c - Z.of_N (N_of_ascii "A") + 10)
  else None.

Fixpoint hex_value (acc : Z) (digits : str) : option Z :=
  match digits with
  | [] => Some acc
  | c :: rest =>
      match hex_digit c with
      | Some d => hex_value (16 * acc + d) rest
      | None => None
      end
  end.

(** The value of a literal [0x] followed by at least one digit. *)
Definition literal_value (s : str) : option Z :=
  match s with
  | zero :: x :: (_ :: _) as digits =>
      if (zero =? N_of_ascii "0")%N && (x =? N_of_ascii "x")%N
      then hex_value 0 digits else None
  | _ => None
  end.

(** The integers [z], [z + 1], ..., [z + n - 1]. *)
Fixpoint upto (n : nat) (z : Z) : list Z :=
  match n with
  | O => []
  | S k => z :: upto k (z + 1)
  end.

(** The elements of a listing: the text between the commas, blanks left
    out. [cur] is the element being read, last character first. *)
Fixpoint tokens (cur : str) (s : str) : list str :=
  match s with
  | [] => [rev cur]
  | c :: rest =>
      if (c =? N_of_ascii ",")%N then rev cur :: tokens [] rest
      else if (c =? N_of_ascii " ")%N then tokens cur rest
      else tokens (c :: cur) rest
  end.

Fixpoint literal_values (elements : list str) : option (list Z) :=
  match elements with
  | [] => Some []
  | e :: rest =>
      match literal_value e, literal_values rest with
      | Some v, Some vs => Some (v :: vs)
      | _, _ => None
      end
  end.

(** The array that an initializer list of hexadecimal literals gives a C
    compiler. *)
Definition read_listing (s : str) : option (list Z) :=
  match s with
  | [] => Some []
  | _ => literal_values (tokens [] s)
  end.

(** *** What the editor is expected to do *)

(** The value of a lower-case hexadecimal digit. *)
Definition color_digit (c : N) : option Z :=
  if ((N_of_ascii "0" <=? c) && (c <=? N_of_ascii "9"))%N
  then Some (Z.of_N c - Z.of_N (N_of_ascii "0"))
  else if ((N_of_ascii "a" <=? c) && (c <=? N_of_ascii "f"))%N
  then Some (Z.of_N c - Z.of_N (N_of_ascii "a") + 10)
  else None.

(** The channels of a colour [#rrggbb]. *)
Definition color_value (s : str) : option (Z * Z * Z) :=
  match s with
  | [hash; r1; r0; g1; g0; b1; b0] =>
      if (hash =? N_of_ascii "#")%N then
        match color_digit r1, color_digit r0, color_digit g1, color_digit g0,
              color_digit b1, color_digit b0 with
        | Some r1, Some r0, Some g1, Some g0, Some b1, Some b0 =>
            Some (16 * r1 + r0, 16 * g1 + g0, 16 * b1 + b0)
        | _, _, _, _, _, _ => None
        end
      else None
  | _ => None
  end.

(** The pixels of a [w] by [h] canvas, by coordinates. *)
Definition inside (w h : nat) (c : Z * Z) : Prop :=
  0 <= fst c < Z.of_nat w /\ 0 <= snd c < Z.of_nat h.

Definition cell_at (w : nat) (d : Editor.canvas) (c : Z * Z) : Editor.cell :=
  Editor.read d (Editor.idx w (fst c) (snd c)).

Definition same_pixel (c c' : Z * Z) : bool :=
  (fst c =? fst c') && (snd c =? snd c').

(** Two pixels side by side or one above the other. *)
Definition adjacent (c n : Z * Z) : Prop :=
  (snd n = snd c /\ (fst n = fst c + 1 \/ fst n = fst c - 1)) \/
  (fst n = fst c /\ (snd n = snd c + 1 \/ snd n = snd c - 1)).

(** The region of the colour [target] around the pixel [start]: the
    pixels reached from [start] by steps to an adjacent pixel, over
    pixels of that colour only. *)
Inductive region (w h : nat) (d : Editor.canvas) (target : Editor.cell) (start : Z * Z)
  : Z * Z -> Prop :=
| region_start :
    inside w h start -> cell_at w d start = target -> region w h d target start start
| region_step c n :
    region w h d target start c -> adjacent c n ->
    inside w h n -> cell_at w d n = target -> region w h d target start n.

(** A buffer of [w * h] pixels, each one an object with its four
    channels. *)
Definition drawn (w h : nat) (d : Editor.canvas) : Prop :=
  length d = (w * h)%nat /\ Forall (fun c => exists p, c = Editor.Px p) d.

(** The number of pixels of the buffer that have the colour [target]. *)
Definition count_colour (target : pixel) (d : Editor.canvas) : nat :=
  length (filter (fun c => match Editor.rgbaEq c (Editor.Px target) with
                           | Normal true => true
                           | _ => false
                           end) d).

(** A pixel that a flood fill has filled so far: a pixel of the region
    that holds the new colour. *)
Definition filled (w h : nat) (d0 : Editor.canvas) (target replacement : Editor.cell)
    (start : Z * Z) (d : Editor.canvas) (c : Z * Z) : Prop :=
  region w h d0 target start c /\ cell_at w d c = replacement.

(** What holds of the stack and of the buffer each time the loop of
    [floodFill] tests its condition; [d0] is the buffer at the start. *)
Definition fill_invariant (w h : nat) (d0 : Editor.canvas)
    (target replacement : Editor.cell) (start : Z * Z)
    (stack : list (Z * Z)) (d : Editor.canvas) : Prop :=
  drawn w h d /\
  (forall c, inside w h c ->
     cell_at w d c = cell_at w d0 c \/ filled w h d0 target replacement start d c) /\
  (forall c, In c stack -> inside w h c -> cell_at w d0 c = target ->
     region w h d0 target start c) /\
  (region w h d0 target start start ->
     In start stack \/ filled w h d0 target replacement start d start) /\
  (forall c n, filled w h d0 target replacement start d c ->
     region w h d0 target start n -> adjacent c n ->
     In n stack \/ filled w h d0 target replacement start d n).

(** A buffer every element of which is a pixel. *)
Definition pixels_only (d : Editor.canvas) : Prop :=
  Forall (fun c => exists p, c = Editor.Px p) d.

(** ** The built-in tests of [hooks/useTests.js] *)

Definition alternating (n : nat) : list pixel :=
  map (fun i => if Nat.even i then white else black) (seq 0 n).

Example test1 : pack1bit (alternating 8) 8 1 (lit "horizontal") = Normal [0xAA].
Proof. reflexivity. Qed.
Example test2 : pack1bit (repeat white 10) 10 1 (lit "horizontal") = Normal [0xFF; 0xC0].
Proof. reflexivity. Qed.
Example test3 : pack1bit (alternating 8) 1 8 (lit "vertical") = Normal [0xAA].
Proof. reflexivity. Qed.
Example test4 :
  pack1bitAlpha (map (fun i => mkPixel 255 255 255 (if Nat.even i then 255 else 0)) (seq 0 8))
    8 1 (lit "horizontal") = Normal [0xAA].
Proof. reflexivity. Qed.
Example test5 :
  packRGB565 [mkPixel 255 0 0 255; mkPixel 0 255 0 255; mkPixel 0 0 255 255] 3 1
  = Normal [0xF800; 0x07E0; 0x001F].
Proof. reflexivity. Qed.
Example test6 :
  packRGB24 [mkPixel 255 0 0 255; mkPixel 0 255 0 255; mkPixel 0 0 255 255; white] 2 2
  = Normal [255; 0; 0; 0; 255; 0; 0; 0; 255; 255; 255; 255].
Proof. reflexivity. Qed.
Example test7 :
  packRGB332 [mkPixel 255 0 0 255; mkPixel 0 255 0 255; mkPixel 0 0 255 255] 3 1
  = Normal [0xE0; 0x1C; 0x03].
Proof. reflexivity. Qed.
Example test8 :
  packGray4 [mkPixel 0 0 0 255; mkPixel 85 85 85 255; mkPixel 170 170 170 255; white] 4 1
  = Normal [0x05; 0xAF].
Proof. vm_compute. reflexivity. Qed.

(** ** Reasoning about completions and loops *)

(** Quotients and remainders by constants are left to [lia]. *)
Ltac Zify.zify_post_hook ::= Z.div_mod_to_equations.

Section Loops.

Context {St : Type}.
Implicit Types (body : nat -> St -> completion St) (s : St).

Lemma for_range_snoc start n body s :
  for_range start (S n) body s
  = (s' <- for_range start n body s ;; body (start + n)%nat s').
Proof.
  revert start s. induction n as [|n IH]; intros start s.
  - cbn [for_range bind]. rewrite Nat.add_0_r. destruct (body start s); reflexivity.
  - specialize (IH (S start)). cbn [for_range] in *.
    destruct (body start s) as [s1|e]; cbn [bind]; [|reflexivity].
    rewrite IH. replace (S start + n)%nat with (start + S n)%nat by lia.
    reflexivity.
Qed.

(** A loop whose iterations keep an invariant returns normally, in a
    state where the invariant holds. [P k] is the invariant after [k]
    iterations. *)
Lemma for_range_invariant (P : nat -> St -> Prop) start count body s :
  P O s ->
  (forall k t, (k < count)%nat -> P k t ->
               exists t', body (start + k)%nat t = Normal t' /\ P (S k) t') ->
  exists s', for_range start count body s = Normal s' /\ P count s'.
Proof.
  intros H0 Hstep. induction count as [|n IH].
  - exists s. split; [reflexivity | assumption].
  - destruct IH as (s1 & E1 & P1).
    { intros k t Hk. apply Hstep. lia. }
    destruct (Hstep n s1) as (s2 & E2 & P2); [lia | assumption |].
    exists s2. rewrite for_range_snoc, E1. simpl. split; assumption.
Qed.

Lemma for_range_ext start count body1 body2 s :
  (forall i t, (start <= i < start + count)%nat -> body1 i t = body2 i t) ->
  for_range start count body1 s = for_range start count body2 s.
Proof.
  revert start s. induction count as [|n IH]; intros start s H; [reflexivity|].
  simpl. rewrite H by lia. destruct (body2 start s); [|reflexivity].
  simpl. apply IH. intros. apply H. lia.
Qed.

(** A loop that throws does so in one of its iterations. *)
Lemma for_range_throw start count body s e :
  for_range start count body s = Throw e ->
  exists i t, (start <= i < start + count)%nat /\ body i t = Throw e.
Proof.
  revert start s. induction count as [|n IH]; intros start s H; [discriminate|].
  simpl in H. destruct (body start s) as [s1|e1] eqn:E.
  - simpl in H. apply IH in H. destruct H as (i & t & Hi & Ht).
    exists i, t. split; [lia | assumption].
  - simpl in H. injection H as ->. exists start, s. split; [lia | assumption].
Qed.

(** A loop that returns normally ran every iteration to a normal end. *)
Lemma for_range_normal start count body s s' :
  for_range start count body s = Normal s' ->
  forall i, (start <= i < start + count)%nat ->
            exists t t', body i t = Normal t'.
Proof.
  revert start s. induction count as [|n IH]; intros start s H i Hi; [lia|].
  simpl in H. destruct (body start s) as [s1|e1] eqn:E; [|discriminate].
  simpl in H. destruct (Nat.eq_dec i start) as [->|Hne].
  - eauto.
  - apply (IH _ _ H). lia.
Qed.

End Loops.

(** ** The integer operators on the values the packers handle *)

Lemma ToInt32_small z : - 2 ^ 31 <= z < 2 ^ 31 -> ToInt32 z = z.
Proof.
  intros H. unfold ToInt32.
  destruct (Z_lt_le_dec z 0).
  - replace (z mod 2 ^ 32) with (z + 2 ^ 32).
    + destruct (z + 2 ^ 32 <? 2 ^ 31) eqn:E; [apply Z.ltb_lt in E|]; lia.
    + apply Z.mod_unique with (q := -1); lia.
  - rewrite Z.mod_small by lia.
    destruct (z <? 2 ^ 31) eqn:E; [reflexivity | apply Z.ltb_ge in E; lia].
Qed.

Lemma lor_range n x y :
  0 <= n -> 0 <= x < 2 ^ n -> 0 <= y < 2 ^ n -> 0 <= Z.lor x y < 2 ^ n.
Proof.
  intros Hn Hx Hy.
  assert (Hnn : 0 <= Z.lor x y) by (apply Z.lor_nonneg; lia).
  split; [assumption|].
  destruct (Z.eq_dec (Z.lor x y) 0) as [->|Hne]; [apply Z.pow_pos_nonneg; lia|].
  assert (0 < n).
  { destruct (Z.eq_dec n 0) as [->|]; [|lia].
    exfalso. apply Hne. replace x with 0 by lia. replace y with 0 by lia.
    reflexivity. }
  apply Z.log2_lt_pow2; [lia|].
  rewrite Z.log2_lor by lia.
  apply Z.max_lub_lt.
  - destruct (Z.eq_dec x 0) as [->|]; [simpl; lia | apply Z.log2_lt_pow2; lia].
  - destruct (Z.eq_dec y 0) as [->|]; [simpl; lia | apply Z.log2_lt_pow2; lia].
Qed.

Lemma or_small x y :
  0 <= x < 2 ^ 16 -> 0 <= y < 2 ^ 16 -> JS.or x y = Z.lor x y.
Proof. intros Hx Hy. unfold JS.or. rewrite !ToInt32_small; lia. Qed.

Lemma shl_small x n :
  0 <= x < 2 ^ 8 -> 0 <= n <= 11 -> JS.shl x n = x * 2 ^ n.
Proof.
  intros Hx Hn. unfold JS.shl.
  rewrite (ToInt32_small x) by lia.
  rewrite Z.mod_small by lia.
  rewrite Z.shiftl_mul_pow2 by lia.
  apply ToInt32_small.
  assert (0 < 2 ^ n <= 2 ^ 11) by (split; [lia | apply Z.pow_le_mono_r; lia]).
  nia.
Qed.

Lemma shr_small x n :
  0 <= x < 2 ^ 31 -> 0 <= n < 32 -> JS.shr x n = x / 2 ^ n.
Proof.
  intros Hx Hn. unfold JS.shr.
  rewrite ToInt32_small by lia. rewrite Z.mod_small by lia.
  apply Z.shiftr_div_pow2. lia.
Qed.

Lemma and_small x y :
  0 <= x < 2 ^ 31 -> 0 <= y < 2 ^ 31 -> JS.and x y = Z.land x y.
Proof. intros Hx Hy. unfold JS.and. rewrite !ToInt32_small; lia. Qed.

(** ** Bytes built one bit at a time, most significant bit first *)

Lemma bits_acc_range f m : (m <= 8)%nat -> 0 <= bits_acc f m < 2 ^ 8.
Proof.
  induction m as [|k IH]; intros Hm; cbn [bits_acc]; [lia|].
  destruct (f k); [|apply IH; lia].
  apply lor_range; [lia | apply IH; lia |].
  split; [apply Z.pow_nonneg; lia | apply Z.pow_lt_mono_r; lia].
Qed.

Lemma bits_acc_testbit f m j :
  (m <= 8)%nat -> (j < 8)%nat ->
  Z.testbit (bits_acc f m) (7 - Z.of_nat j) = (j <? m)%nat && f j.
Proof.
  induction m as [|k IH]; intros Hm Hj; cbn [bits_acc].
  - apply Z.testbit_0_l.
  - assert (IH' := IH ltac:(lia) Hj).
    destruct (Nat.eq_dec j k) as [->|Hne].
    + replace (k <? S k)%nat with true by (symmetry; apply Nat.ltb_lt; lia).
      replace (k <? k)%nat with false in IH' by (symmetry; apply Nat.ltb_ge; lia).
      cbn [andb] in *. destruct (f k); [|assumption].
      rewrite Z.lor_spec, Z.pow2_bits_true by lia. apply orb_true_r.
    + replace (j <? S k)%nat with (j <? k)%nat
        by (destruct (Nat.ltb_spec j k), (Nat.ltb_spec j (S k)); lia || reflexivity).
      destruct (f k); [|assumption].
      rewrite Z.lor_spec, IH', Z.pow2_bits_false by lia. apply orb_false_r.
Qed.

Lemma bits_acc_ext f f' m :
  (forall j, (j < m)%nat -> f j = f' j) -> bits_acc f m = bits_acc f' m.
Proof.
  induction m as [|k IH]; intros H; cbn [bits_acc]; [reflexivity|].
  rewrite IH by (intros; apply H; lia). rewrite (H k) by lia. reflexivity.
Qed.

Lemma bits_acc_padding f m n :
  (m <= n)%nat -> (forall j, (m <= j < n)%nat -> f j = false) ->
  bits_acc f n = bits_acc f m.
Proof.
  induction n as [|k IH]; intros Hmn H.
  - replace m with O by lia. reflexivity.
  - destruct (Nat.eq_dec m (S k)) as [->|Hne]; [reflexivity|].
    cbn [bits_acc]. rewrite (H k) by lia. apply IH; [lia | intros; apply H; lia].
Qed.

(** [ceil_div n d] is the least number of blocks of [d] that hold [n]. *)
Lemma ceil_div_spec n d :
  (0 < d)%nat ->
  (n <= ceil_div n d * d)%nat /\ (ceil_div n d * d < n + d)%nat.
Proof.
  intros Hd. unfold ceil_div.
  pose proof (Nat.div_mod_eq (n + (d - 1)) d) as E.
  pose proof (Nat.mod_upper_bound (n + (d - 1)) d ltac:(lia)) as M.
  nia.
Qed.

(** ** Lists made of blocks of one length *)

Lemma flat_map_uniform_length {A B} (f : A -> list B) (c : nat) (l : list A) :
  (forall a, In a l -> length (f a) = c) ->
  length (flat_map f l) = (length l * c)%nat.
Proof.
  induction l as [|a l IH]; intros H; [reflexivity|].
  cbn [flat_map length]. rewrite length_app.
  rewrite (H a) by (left; reflexivity).
  rewrite IH by (intros; apply H; right; assumption).
  lia.
Qed.

Lemma flat_map_seq_snoc {B} (f : nat -> list B) (n : nat) :
  flat_map f (seq 0 (S n)) = flat_map f (seq 0 n) ++ f n.
Proof.
  rewrite seq_S, flat_map_app. cbn [flat_map Nat.add]. rewrite app_nil_r.
  reflexivity.
Qed.

(** Element [k] of block [y]. *)
Lemma nth_flat_map_seq {B} (f : nat -> list B) (c n y k : nat) (d : B) :
  (forall i, (i < n)%nat -> length (f i) = c) ->
  (y < n)%nat -> (k < c)%nat ->
  nth (y * c + k) (flat_map f (seq 0 n)) d = nth k (f y) d.
Proof.
  intros Hlen. induction n as [|n IH]; intros Hy Hk; [lia|].
  rewrite flat_map_seq_snoc.
  assert (Hl : length (flat_map f (seq 0 n)) = (n * c)%nat).
  { rewrite (flat_map_uniform_length f c).
    - rewrite length_seq. reflexivity.
    - intros a Ha. apply in_seq in Ha. apply Hlen. lia. }
  destruct (Nat.eq_dec y n) as [->|Hne].
  - rewrite app_nth2 by lia. f_equal. lia.
  - rewrite app_nth1 by nia. apply IH; [intros; apply Hlen; lia | lia | lia].
Qed.

Lemma nth_map_seq {B} (f : nat -> B) (n k : nat) (d : B) :
  (k < n)%nat -> nth k (map f (seq 0 n)) d = f k.
Proof.
  intros Hk. rewrite (nth_indep _ d (f O)) by (rewrite length_map, length_seq; lia).
  rewrite (map_nth f (seq 0 n) O k), seq_nth by lia. reflexivity.
Qed.

(** ** The geometry of the two 1-bit loop nests *)

Lemma pixel_at_in_range pixels i :
  (i < length pixels)%nat -> exists p, nth_error pixels i = Some p /\ pixel_at pixels i = Normal p.
Proof.
  intros Hi. unfold pixel_at.
  destruct (nth_error pixels i) as [p|] eqn:E; [eauto|].
  apply nth_error_None in E. lia.
Qed.

Lemma shl_bit (m : nat) : (m < 8)%nat -> JS.shl 1 (7 - Z.of_nat m) = 2 ^ (7 - Z.of_nat m).
Proof. intros Hm. rewrite shl_small by lia. lia. Qed.

Section Geometry.

Variable on : pixel -> bool.
Variable pixels : list pixel.
Variables width height : nat.
Hypothesis enough : (width * height <= length pixels)%nat.

Lemma or_bit cur (m : nat) f :
  (m < 8)%nat -> cur = bits_acc f m ->
  JS.or cur (JS.shl 1 (7 - Z.of_nat m)) = Z.lor cur (2 ^ (7 - Z.of_nat m)).
Proof.
  intros Hm ->. rewrite shl_bit by assumption.
  pose proof (bits_acc_range f m ltac:(lia)).
  assert (0 < 2 ^ (7 - Z.of_nat m) <= 2 ^ 7)
    by (split; [apply Z.pow_pos_nonneg; lia | apply Z.pow_le_mono_r; lia]).
  apply or_small; lia.
Qed.

Lemma horizontal_row_spec y bytes :
  (y < height)%nat ->
  horizontal_row on pixels width y bytes = Normal (bytes ++ row_bytes on pixels width y).
Proof.
  intros Hy. unfold horizontal_row.
  pose (P := fun (x : nat) (st : list Z * Z * Z) =>
    st = (bytes ++ map (fun k => bits_acc (row_bit on pixels width y k) 8) (seq 0 (x / 8)),
          7 - Z.of_nat (x mod 8),
          bits_acc (row_bit on pixels width y (x / 8)) (x mod 8))).
  destruct (for_range_invariant P O width (horizontal_pixel on pixels width y)
              (bytes, 7, 0)) as (st & E & HP).
  - unfold P. cbn. rewrite app_nil_r. reflexivity.
  - intros x t Hx Ht. unfold P in Ht. subst t. cbn [Nat.add horizontal_pixel].
    destruct (pixel_at_in_range pixels (I width x y)) as (p & Hp & ->);
      [unfold I; nia|].
    cbn [bind].
    assert (Hbit : row_bit on pixels width y (x / 8) (x mod 8) = on p).
    { unfold row_bit, bit_at. replace (8 * (x / 8) + x mod 8)%nat with x by lia.
      rewrite Hp. replace (x <? width)%nat with true; [reflexivity|].
      symmetry. apply Nat.ltb_lt. assumption. }
    assert (Hcur : (if on p
                    then JS.or (bits_acc (row_bit on pixels width y (x / 8)) (x mod 8))
                               (JS.shl 1 (7 - Z.of_nat (x mod 8)))
                    else bits_acc (row_bit on pixels width y (x / 8)) (x mod 8))
                   = bits_acc (row_bit on pixels width y (x / 8)) (S (x mod 8))).
    { cbn [bits_acc]. rewrite Hbit.
      destruct (on p); [|reflexivity].
      apply or_bit with (f := row_bit on pixels width y (x / 8)); [lia | reflexivity]. }
    rewrite Hcur. clear Hcur.
    destruct (7 - Z.of_nat (x mod 8) - 1 <? 0) eqn:Eb.
    + apply Z.ltb_lt in Eb. assert (Hm : (x mod 8 = 7)%nat) by lia.
      eexists. split; [reflexivity|]. unfold P.
      replace (S x / 8)%nat with (S (x / 8)) by lia.
      replace (S x mod 8)%nat with O by lia.
      rewrite seq_S, map_app, Hm, <- app_assoc. reflexivity.
    + apply Z.ltb_ge in Eb.
      eexists. split; [reflexivity|]. unfold P.
      replace (S x / 8)%nat with (x / 8)%nat by lia.
      replace (S x mod 8)%nat with (S (x mod 8)) by lia.
      replace (7 - Z.of_nat (x mod 8) - 1) with (7 - Z.of_nat (S (x mod 8))) by lia.
      reflexivity.
  - rewrite E. unfold P in HP. subst st. cbn [bind].
    unfold row_bytes, ceil_div.
    destruct (7 - Z.of_nat (width mod 8) =? 7) eqn:Eb; cbn [negb].
    + apply Z.eqb_eq in Eb.
      replace ((width + (8 - 1)) / 8)%nat with (width / 8)%nat by lia.
      reflexivity.
    + apply Z.eqb_neq in Eb.
      replace ((width + (8 - 1)) / 8)%nat with (S (width / 8)) by lia.
      rewrite seq_S, map_app, <- app_assoc. cbn [map Nat.add app].
      do 4 f_equal. symmetry. apply bits_acc_padding; [lia|].
      intros j Hj. unfold row_bit.
      replace (8 * (width / 8) + j <? width)%nat with false; [reflexivity|].
      symmetry. apply Nat.ltb_ge. lia.
Qed.

Lemma horizontal_spec bytes :
  horizontal on pixels width height bytes
  = Normal (bytes ++ flat_map (row_bytes on pixels width) (seq 0 height)).
Proof.
  unfold horizontal.
  pose (P := fun (y : nat) (out : list Z) =>
    out = bytes ++ flat_map (row_bytes on pixels width) (seq 0 y)).
  destruct (for_range_invariant P O height (horizontal_row on pixels width) bytes)
    as (out & E & HP).
  - unfold P. cbn. rewrite app_nil_r. reflexivity.
  - intros y t Hy Ht. unfold P in Ht. subst t. cbn [Nat.add].
    rewrite horizontal_row_spec by assumption.
    eexists. split; [reflexivity|]. unfold P.
    rewrite flat_map_seq_snoc, app_assoc. reflexivity.
  - rewrite E. unfold P in HP. rewrite HP. reflexivity.
Qed.

Lemma vertical_bits_spec x page m :
  (x < width)%nat -> (m <= 8)%nat ->
  for_down m (vertical_bit on pixels width height x page)
    (bits_acc (column_bit on pixels width height x page) (8 - m))
  = Normal (bits_acc (column_bit on pixels width height x page) 8).
Proof.
  intros Hx. induction m as [|k IH]; intros Hm; [reflexivity|].
  cbn [for_down].
  assert (Hstep : vertical_bit on pixels width height x page k
                    (bits_acc (column_bit on pixels width height x page) (8 - S k))
                  = Normal (bits_acc (column_bit on pixels width height x page) (8 - k))).
  { unfold vertical_bit.
    replace (8 - k)%nat with (S (8 - S k)) by lia. cbn [bits_acc].
    assert (Hbit : column_bit on pixels width height x page (8 - S k)
                   = (page * 8 + (7 - k) <? height)%nat
                     && bit_at on pixels (I width x (page * 8 + (7 - k)))).
    { unfold column_bit.
      replace (8 * page + (8 - S k))%nat with (page * 8 + (7 - k))%nat by lia.
      reflexivity. }
    rewrite Hbit. clear Hbit.
    destruct (page * 8 + (7 - k) <? height)%nat eqn:Ey; cbn [andb]; [|reflexivity].
    apply Nat.ltb_lt in Ey.
    destruct (pixel_at_in_range pixels (I width x (page * 8 + (7 - k))))
      as (p & Hp & ->); [unfold I; nia|].
    cbn [bind]. unfold bit_at. rewrite Hp.
    destruct (on p); [|reflexivity].
    replace (Z.of_nat k) with (7 - Z.of_nat (8 - S k)) by lia.
    f_equal. apply or_bit with (f := column_bit on pixels width height x page); [lia | reflexivity]. }
  rewrite Hstep. cbn [bind]. apply IH. lia.
Qed.

Lemma vertical_column_spec x bytes :
  (x < width)%nat ->
  vertical_column on pixels width height x bytes = Normal (bytes ++ column_bytes on pixels width height x).
Proof.
  intros Hx. unfold vertical_column.
  pose (P := fun (page : nat) (out : list Z) =>
    out = bytes ++ map (fun page => bits_acc (column_bit on pixels width height x page) 8) (seq 0 page)).
  destruct (for_range_invariant P O (ceil_div height 8)
              (vertical_page on pixels width height x) bytes) as (out & E & HP).
  - unfold P. cbn. rewrite app_nil_r. reflexivity.
  - intros page t Hpage Ht. unfold P in Ht. subst t. cbn [Nat.add].
    unfold vertical_page.
    assert (Hv := vertical_bits_spec x page 8 Hx (Nat.le_refl 8)).
    change (bits_acc (column_bit on pixels width height x page) (8 - 8)) with 0 in Hv.
    rewrite Hv. cbn [bind].
    eexists. split; [reflexivity|]. unfold P.
    rewrite seq_S, map_app, app_assoc. reflexivity.
  - rewrite E. unfold P in HP. rewrite HP. reflexivity.
Qed.

Lemma vertical_spec bytes :
  vertical on pixels width height bytes
  = Normal (bytes ++ flat_map (column_bytes on pixels width height) (seq 0 width)).
Proof.
  unfold vertical.
  pose (P := fun (x : nat) (out : list Z) =>
    out = bytes ++ flat_map (column_bytes on pixels width height) (seq 0 x)).
  destruct (for_range_invariant P O width (vertical_column on pixels width height) bytes)
    as (out & E & HP).
  - unfold P. cbn. rewrite app_nil_r. reflexivity.
  - intros x t Hx Ht. unfold P in Ht. subst t. cbn [Nat.add].
    rewrite vertical_column_spec by assumption.
    eexists. split; [reflexivity|]. unfold P.
    rewrite flat_map_seq_snoc, app_assoc. reflexivity.
  - rewrite E. unfold P in HP. rewrite HP. reflexivity.
Qed.

End Geometry.

(** What the two nests return on a buffer that holds every pixel they
    read: the length, the range of the bytes and every bit. *)

Lemma row_bytes_length on pixels w y :
  length (row_bytes on pixels w y) = ceil_div w 8.
Proof. unfold row_bytes. rewrite length_map, length_seq. reflexivity. Qed.

Lemma column_bytes_length on pixels w h x :
  length (column_bytes on pixels w h x) = ceil_div h 8.
Proof. unfold column_bytes. rewrite length_map, length_seq. reflexivity. Qed.

Lemma horizontal_bytes on pixels w h :
  (w * h <= length pixels)%nat ->
  exists bytes,
    horizontal on pixels w h [] = Normal bytes /\
    length bytes = (ceil_div w 8 * h)%nat /\
    forall y k, (y < h)%nat -> (k < ceil_div w 8)%nat ->
      0 <= nth (y * ceil_div w 8 + k) bytes 0 < 256 /\
      forall j, (j < 8)%nat ->
        Z.testbit (nth (y * ceil_div w 8 + k) bytes 0) (7 - Z.of_nat j)
        = row_bit on pixels w y k j.
Proof.
  intros Hlen. exists (flat_map (row_bytes on pixels w) (seq 0 h)).
  split; [apply (horizontal_spec on pixels w h Hlen [])|].
  split.
  - rewrite (flat_map_uniform_length _ (ceil_div w 8)).
    + rewrite length_seq. lia.
    + intros; apply row_bytes_length.
  - intros y k Hy Hk.
    rewrite (nth_flat_map_seq _ (ceil_div w 8) h y k 0)
      by (intros; apply row_bytes_length || assumption).
    unfold row_bytes. rewrite nth_map_seq by assumption.
    split.
    + apply (bits_acc_range _ 8). lia.
    + intros j Hj. rewrite bits_acc_testbit by lia.
      replace (j <? 8)%nat with true by (symmetry; apply Nat.ltb_lt; lia).
      reflexivity.
Qed.

Lemma vertical_bytes on pixels w h :
  (w * h <= length pixels)%nat ->
  exists bytes,
    vertical on pixels w h [] = Normal bytes /\
    length bytes = (w * ceil_div h 8)%nat /\
    forall x page, (x < w)%nat -> (page < ceil_div h 8)%nat ->
      0 <= nth (x * ceil_div h 8 + page) bytes 0 < 256 /\
      forall j, (j < 8)%nat ->
        Z.testbit (nth (x * ceil_div h 8 + page) bytes 0) (7 - Z.of_nat j)
        = column_bit on pixels w h x page j.
Proof.
  intros Hlen. exists (flat_map (column_bytes on pixels w h) (seq 0 w)).
  split; [apply (vertical_spec on pixels w h Hlen [])|].
  split.
  - rewrite (flat_map_uniform_length _ (ceil_div h 8)).
    + rewrite length_seq. reflexivity.
    + intros; apply column_bytes_length.
  - intros x page Hx Hpage.
    rewrite (nth_flat_map_seq _ (ceil_div h 8) w x page 0)
      by (intros; apply column_bytes_length || assumption).
    unfold column_bytes. rewrite nth_map_seq by assumption.
    split.
    + apply (bits_acc_range _ 8). lia.
    + intros j Hj. rewrite bits_acc_testbit by lia.
      replace (j <? 8)%nat with true by (symmetry; apply Nat.ltb_lt; lia).
      reflexivity.
Qed.

(** The threshold of [pack1bit] on integer channels. *)
Lemma lighter_spec p : lighter p = true <-> r p + g p + b p > 382.
Proof.
  unfold lighter. rewrite negb_true_iff.
  destruct (Qle_bool (inject_Z (r p + g p + b p)) (255 * 3 / 2)) eqn:E.
  - apply Qle_bool_iff in E. unfold Qle in E. cbn in E. split; [discriminate | lia].
  - split; [intros _ | reflexivity].
    destruct (Z_gt_le_dec (r p + g p + b p) 382) as [Hgt|Hle]; [assumption|].
    assert (Habs : Qle_bool (inject_Z (r p + g p + b p)) (255 * 3 / 2) = true).
    { apply Qle_bool_iff. unfold Qle. cbn. lia. }
    congruence.
Qed.

(** ** Which calls throw, and what a normal return implies *)

Lemma bind_normal {A B} (m : completion A) (k : A -> completion B) y :
  bind m k = Normal y -> exists x, m = Normal x /\ k x = Normal y.
Proof. destruct m as [x|e]; [eauto | discriminate]. Qed.

Lemma bind_throw {A B} (m : completion A) (k : A -> completion B) e :
  bind m k = Throw e -> m = Throw e \/ exists x, m = Normal x /\ k x = Throw e.
Proof. destruct m as [x|e']; cbn; [eauto | intros [= ->]; auto]. Qed.

Lemma pixel_at_normal pixels i p :
  pixel_at pixels i = Normal p ->
  nth_error pixels i = Some p /\ (i < length pixels)%nat.
Proof.
  unfold pixel_at. destruct (nth_error pixels i) as [q|] eqn:E; [|discriminate].
  intros [= ->]. split; [reflexivity|].
  apply nth_error_Some. congruence.
Qed.

Lemma pixel_at_throw pixels i e :
  pixel_at pixels i = Throw e -> e = TypeError /\ (length pixels <= i)%nat.
Proof.
  unfold pixel_at. destruct (nth_error pixels i) as [q|] eqn:E; [discriminate|].
  intros [= <-]. split; [reflexivity|]. apply nth_error_None. assumption.
Qed.

Lemma pixel_at_firstn pixels n i :
  (i < n)%nat -> pixel_at (firstn n pixels) i = pixel_at pixels i.
Proof.
  intros Hi. unfold pixel_at. rewrite nth_error_firstn.
  replace (i <? n)%nat with true by (symmetry; apply Nat.ltb_lt; assumption).
  reflexivity.
Qed.

Lemma for_down_throw {St} n (body : nat -> St -> completion St) s e :
  for_down n body s = Throw e ->
  exists i t, (i < n)%nat /\ body i t = Throw e.
Proof.
  revert s. induction n as [|k IH]; intros s H; [discriminate|].
  cbn [for_down] in H. apply bind_throw in H. destruct H as [H|(s1 & _ & H)].
  - exists k, s. split; [lia | assumption].
  - apply IH in H. destruct H as (i & t & Hi & Ht). exists i, t. split; [lia | assumption].
Qed.

Lemma for_down_normal {St} n (body : nat -> St -> completion St) s s' :
  for_down n body s = Normal s' ->
  forall i, (i < n)%nat -> exists t t', body i t = Normal t'.
Proof.
  revert s. induction n as [|k IH]; intros s H i Hi; [lia|].
  cbn [for_down] in H. apply bind_normal in H. destruct H as (s1 & E & H).
  destruct (Nat.eq_dec i k) as [->|Hne]; [eauto|].
  apply (IH _ H). lia.
Qed.

Lemma for_down_ext {St} n (body1 body2 : nat -> St -> completion St) s :
  (forall i t, (i < n)%nat -> body1 i t = body2 i t) ->
  for_down n body1 s = for_down n body2 s.
Proof.
  revert s. induction n as [|k IH]; intros s H; [reflexivity|].
  cbn [for_down]. rewrite H by lia. destruct (body2 k s); [|reflexivity].
  cbn [bind]. apply IH. intros. apply H. lia.
Qed.

(** The position of index [i] in a grid of width [w]. *)
Lemma index_in_grid w h i :
  (i < w * h)%nat ->
  exists x y, (x < w)%nat /\ (y < h)%nat /\ I w x y = i.
Proof.
  intros Hi. assert (Hw : (0 < w)%nat) by nia.
  exists (i mod w)%nat, (i / w)%nat.
  pose proof (Nat.mod_upper_bound i w ltac:(lia)).
  pose proof (Nat.div_mod_eq i w).
  split; [assumption|]. split.
  - apply Nat.Div0.div_lt_upper_bound. lia.
  - unfold I. lia.
Qed.

Lemma index_bound w h x y : (x < w)%nat -> (y < h)%nat -> (I w x y < w * h)%nat.
Proof. unfold I. nia. Qed.

Ltac invert_completion :=
  repeat match goal with
  | H : bind _ _ = Normal _ |- _ =>
      apply bind_normal in H; destruct H as (? & ? & H)
  | H : bind _ _ = Throw _ |- _ =>
      apply bind_throw in H; destruct H as [H|(? & ? & H)]
  | H : pixel_at _ _ = Normal _ |- _ => apply pixel_at_normal in H; destruct H
  | H : pixel_at _ _ = Throw _ |- _ => apply pixel_at_throw in H; destruct H
  | H : Normal _ = Throw _ |- _ => discriminate H
  | H : (if ?c then _ else _) = Throw _ |- _ => destruct c
  | H : (let '(_, _) := ?p in _) = _ |- _ => destruct p
  end.

Section Reads.

Variable on : pixel -> bool.
Variables w h : nat.

Lemma horizontal_pixel_throw pixels y x st e :
  horizontal_pixel on pixels w y x st = Throw e -> e = TypeError.
Proof.
  unfold horizontal_pixel. intros H. invert_completion; assumption.
Qed.

Lemma horizontal_pixel_normal pixels y x st st' :
  horizontal_pixel on pixels w y x st = Normal st' ->
  (I w x y < length pixels)%nat.
Proof.
  unfold horizontal_pixel. intros H. invert_completion. assumption.
Qed.

Lemma horizontal_reads_grid :
  reads_grid w h (fun pixels => horizontal on pixels w h []).
Proof.
  repeat split.
  - intros pixels e H. unfold horizontal in H.
    apply for_range_throw in H. destruct H as (y & t & _ & H).
    unfold horizontal_row in H. invert_completion.
    apply for_range_throw in H. destruct H as (x & t' & _ & H).
    apply horizontal_pixel_throw in H. assumption.
  - intros pixels out H x y Hx Hy. unfold horizontal in H.
    destruct (for_range_normal _ _ _ _ _ H y ltac:(lia)) as (t & t' & Hrow).
    unfold horizontal_row in Hrow. apply bind_normal in Hrow.
    destruct Hrow as (st & Hloop & _).
    destruct (for_range_normal _ _ _ _ _ Hloop x ltac:(lia)) as (u & u' & Hpix).
    apply horizontal_pixel_normal in Hpix. assumption.
  - intros pixels. unfold horizontal.
    apply for_range_ext. intros y t Hy. unfold horizontal_row.
    f_equal. apply for_range_ext. intros x u Hx.
    unfold horizontal_pixel. destruct u as [[bytes bit] cur].
    rewrite pixel_at_firstn by (apply index_bound; lia). reflexivity.
Qed.

Lemma vertical_bit_throw pixels x page bit cur e :
  vertical_bit on pixels w h x page bit cur = Throw e -> e = TypeError.
Proof.
  unfold vertical_bit. intros H. invert_completion; assumption.
Qed.

Lemma vertical_reads_grid :
  reads_grid w h (fun pixels => vertical on pixels w h []).
Proof.
  repeat split.
  - intros pixels e H. unfold vertical in H.
    apply for_range_throw in H. destruct H as (x & t & _ & H).
    unfold vertical_column in H.
    apply for_range_throw in H. destruct H as (page & t' & _ & H).
    unfold vertical_page in H. invert_completion.
    apply for_down_throw in H. destruct H as (bit & cur & _ & H).
    apply vertical_bit_throw in H. assumption.
  - intros pixels out H x y Hx Hy. unfold vertical in H.
    destruct (for_range_normal _ _ _ _ _ H x ltac:(lia)) as (t & t' & Hcol).
    unfold vertical_column in Hcol.
    assert (Hpage : (0 <= y / 8 < 0 + ceil_div h 8)%nat) by (unfold ceil_div; lia).
    destruct (for_range_normal _ _ _ _ _ Hcol (y / 8)%nat Hpage) as (u & u' & Hpg).
    unfold vertical_page in Hpg. apply bind_normal in Hpg.
    destruct Hpg as (cur & Hbits & _).
    destruct (for_down_normal _ _ _ _ Hbits (7 - y mod 8)%nat ltac:(lia))
      as (c & c' & Hbit).
    unfold vertical_bit in Hbit.
    replace (y / 8 * 8 + (7 - (7 - y mod 8)))%nat with y in Hbit by lia.
    replace (y <? h)%nat with true in Hbit by (symmetry; apply Nat.ltb_lt; lia).
    invert_completion. assumption.
  - intros pixels. unfold vertical.
    apply for_range_ext. intros x t Hx. unfold vertical_column.
    apply for_range_ext. intros page u Hpage. unfold vertical_page.
    f_equal. apply for_down_ext. intros bit cur Hbit.
    unfold vertical_bit.
    destruct (page * 8 + (7 - bit) <? h)%nat eqn:Ey; [|reflexivity].
    apply Nat.ltb_lt in Ey.
    rewrite pixel_at_firstn by (apply index_bound; lia). reflexivity.
Qed.

Lemma row_major_reads_grid emit :
  reads_grid w h (fun pixels => row_major emit pixels w h).
Proof.
  repeat split.
  - intros pixels e H. unfold row_major in H.
    apply for_range_throw in H. destruct H as (y & t & _ & H).
    apply for_range_throw in H. destruct H as (x & t' & _ & H).
    invert_completion. assumption.
  - intros pixels out H x y Hx Hy. unfold row_major in H.
    destruct (for_range_normal _ _ _ _ _ H y ltac:(lia)) as (t & t' & Hrow).
    destruct (for_range_normal _ _ _ _ _ Hrow x ltac:(lia)) as (u & u' & Hpix).
    invert_completion. assumption.
  - intros pixels. unfold row_major.
    apply for_range_ext. intros y t Hy.
    apply for_range_ext. intros x u Hx.
    rewrite pixel_at_firstn by (apply index_bound; lia). reflexivity.
Qed.

Lemma packGray4_reads_grid :
  reads_grid w h (fun pixels => packGray4 pixels w h).
Proof.
  repeat split.
  - intros pixels e H. unfold packGray4 in H.
    apply for_range_throw in H. destruct H as (y & t & _ & H).
    unfold gray4_row in H. invert_completion.
    apply for_range_throw in H. destruct H as (x & t' & _ & H).
    unfold gray4_pixel in H. invert_completion. assumption.
  - intros pixels out H x y Hx Hy. unfold packGray4 in H.
    destruct (for_range_normal _ _ _ _ _ H y ltac:(lia)) as (t & t' & Hrow).
    unfold gray4_row in Hrow. apply bind_normal in Hrow.
    destruct Hrow as (st & Hloop & _).
    destruct (for_range_normal _ _ _ _ _ Hloop x ltac:(lia)) as (u & u' & Hpix).
    unfold gray4_pixel in Hpix. invert_completion. assumption.
  - intros pixels. unfold packGray4.
    apply for_range_ext. intros y t Hy. unfold gray4_row.
    f_equal. apply for_range_ext. intros x u Hx.
    unfold gray4_pixel. destruct u as [[bytes nibble] cur].
    rewrite pixel_at_firstn by (apply index_bound; lia). reflexivity.
Qed.

End Reads.

(** A nest that reads the grid throws on a buffer shorter than the grid. *)
Lemma reads_grid_short w h pack pixels :
  reads_grid w h pack -> (length pixels < w * h)%nat ->
  pack pixels = Throw TypeError.
Proof.
  intros (Hthrow & Hnormal & _) Hlen.
  destruct (pack pixels) as [out|e] eqn:E.
  - destruct (index_in_grid w h (length pixels) Hlen) as (x & y & Hx & Hy & Hi).
    pose proof (Hnormal _ _ E x y Hx Hy). lia.
  - f_equal. apply (Hthrow _ _ E).
Qed.

(** ** The row-major packers *)

Lemma firstn_snoc {A} (l : list A) i x :
  nth_error l i = Some x -> firstn (S i) l = firstn i l ++ [x].
Proof.
  revert i. induction l as [|a l IH]; intros [|i] H; try discriminate.
  - injection H as ->. reflexivity.
  - cbn [firstn app]. f_equal. apply IH. assumption.
Qed.

Lemma row_major_spec emit pixels w h :
  (w * h <= length pixels)%nat ->
  row_major emit pixels w h = Normal (flat_map emit (firstn (w * h) pixels)).
Proof.
  intros Hlen. unfold row_major.
  pose (P := fun (y : nat) (out : list Z) =>
    out = flat_map emit (firstn (y * w) pixels)).
  match goal with |- for_range 0 h ?body [] = _ =>
    destruct (for_range_invariant P O h body []) as (out & E & HP) end.
  - reflexivity.
  - intros y t Hy Ht. unfold P in Ht. subst t. cbn [Nat.add].
    pose (Q := fun (x : nat) (out : list Z) =>
      out = flat_map emit (firstn (y * w + x) pixels)).
    match goal with |- exists _, for_range 0 w ?body ?s = _ /\ _ =>
      destruct (for_range_invariant Q O w body s) as (out & E & HQ) end.
    + unfold Q. rewrite Nat.add_0_r. reflexivity.
    + intros x t Hx Ht. unfold Q in Ht. subst t. cbn [Nat.add].
      destruct (pixel_at_in_range pixels (I w x y)) as (p & Hp & ->);
        [pose proof (index_bound w h x y Hx Hy); lia|].
      cbn [bind]. eexists. split; [reflexivity|]. unfold Q.
      replace (y * w + S x)%nat with (S (I w x y)) by (unfold I; lia).
      rewrite (firstn_snoc _ _ _ Hp), flat_map_app. cbn [flat_map].
      rewrite app_nil_r. reflexivity.
    + exists out. split; [assumption|]. unfold P, Q in *.
      replace (S y * w)%nat with (y * w + w)%nat by lia. assumption.
  - rewrite E. unfold P in HP. rewrite HP. do 3 f_equal. lia.
Qed.

(** One element per pixel: the output is the image of the buffer. *)
Lemma row_major_map f pixels w h :
  length pixels = (w * h)%nat ->
  row_major (fun p => [f p]) pixels w h = Normal (map f pixels).
Proof.
  intros Hlen. rewrite row_major_spec by lia.
  rewrite <- Hlen, firstn_all. reflexivity.
Qed.

(** ** The colour conversions on 8-bit channels *)

Lemma land_low_bits x n : 0 <= n -> 0 <= x < 2 ^ n -> Z.land x (Z.ones n) = x.
Proof. intros Hn Hx. rewrite Z.land_ones by assumption. apply Z.mod_small. assumption. Qed.

Lemma shiftr_channel c n :
  channel c -> 0 <= n <= 8 -> 0 <= Z.shiftr c n < 2 ^ (8 - n).
Proof.
  intros Hc Hn. unfold channel in Hc. rewrite Z.shiftr_div_pow2 by lia.
  assert (Hp : 0 < 2 ^ n) by (apply Z.pow_pos_nonneg; lia).
  split; [apply Z.div_pos; lia|].
  apply Z.div_lt_upper_bound; [assumption|].
  rewrite <- Z.pow_add_r by lia. replace (n + (8 - n)) with 8 by lia.
  lia.
Qed.

(** On 8-bit channels the masks of [rgbTo565] change nothing and no
    operator leaves the 32-bit range. *)
Lemma rgbTo565_channels r g b :
  channel r -> channel g -> channel b ->
  rgbTo565 r g b
  = Z.lor (Z.lor (Z.shiftl (Z.shiftr r 3) 11) (Z.shiftl (Z.shiftr g 2) 5))
          (Z.shiftr b 3).
Proof.
  intros Hr Hg Hb. unfold rgbTo565.
  pose proof (shiftr_channel r 3 Hr ltac:(lia)) as HR.
  pose proof (shiftr_channel g 2 Hg ltac:(lia)) as HG.
  pose proof (shiftr_channel b 3 Hb ltac:(lia)) as HB.
  change (2 ^ (8 - 3)) with 32 in *. change (2 ^ (8 - 2)) with 64 in *.
  assert (ER : JS.and (JS.shr r 3) 31 = Z.shiftr r 3).
  { rewrite shr_small by (unfold channel in Hr; lia).
    rewrite <- Z.shiftr_div_pow2 by lia.
    rewrite and_small by lia. apply (land_low_bits _ 5); lia. }
  assert (EG : JS.and (JS.shr g 2) 63 = Z.shiftr g 2).
  { rewrite shr_small by (unfold channel in Hg; lia).
    rewrite <- Z.shiftr_div_pow2 by lia.
    rewrite and_small by lia. apply (land_low_bits _ 6); lia. }
  assert (EB : JS.and (JS.shr b 3) 31 = Z.shiftr b 3).
  { rewrite shr_small by (unfold channel in Hb; lia).
    rewrite <- Z.shiftr_div_pow2 by lia.
    rewrite and_small by lia. apply (land_low_bits _ 5); lia. }
  rewrite ER, EG, EB.
  rewrite !shl_small by lia.
  rewrite !Z.shiftl_mul_pow2 by lia.
  assert (0 <= Z.lor (Z.shiftr r 3 * 2 ^ 11) (Z.shiftr g 2 * 2 ^ 5) < 2 ^ 16)
    by (apply lor_range; lia).
  rewrite (or_small (Z.shiftr r 3 * 2 ^ 11) (Z.shiftr g 2 * 2 ^ 5)) by lia.
  rewrite or_small by lia. reflexivity.
Qed.

Lemma testbit_above x n m : 0 <= x < 2 ^ n -> 0 <= n <= m -> Z.testbit x m = false.
Proof.
  intros Hx Hn. destruct (Z.eq_dec x 0) as [->|Hne]; [apply Z.testbit_0_l|].
  apply Z.bits_above_log2; [lia|].
  apply Z.lt_le_trans with n; [apply Z.log2_lt_pow2; lia | lia].
Qed.

(** The words of [rgbTo565] fill the 16 bits: the top one is the top bit
    of the red channel. *)
Lemma rgbTo565_range r g b :
  channel r -> channel g -> channel b ->
  0 <= rgbTo565 r g b < 2 ^ 16 /\
  Z.testbit (rgbTo565 r g b) 15 = (128 <=? r).
Proof.
  intros Hr Hg Hb. rewrite rgbTo565_channels by assumption.
  pose proof (shiftr_channel r 3 Hr ltac:(lia)) as HR.
  pose proof (shiftr_channel g 2 Hg ltac:(lia)) as HG.
  pose proof (shiftr_channel b 3 Hb ltac:(lia)) as HB.
  change (2 ^ (8 - 3)) with 32 in *. change (2 ^ (8 - 2)) with 64 in *.
  assert (HA : 0 <= Z.shiftl (Z.shiftr r 3) 11 < 2 ^ 16)
    by (rewrite Z.shiftl_mul_pow2 by lia; lia).
  assert (HBm : 0 <= Z.shiftl (Z.shiftr g 2) 5 < 2 ^ 11)
    by (rewrite Z.shiftl_mul_pow2 by lia; lia).
  split.
  - apply lor_range; [lia | apply lor_range; lia | lia].
  - rewrite !Z.lor_spec.
    rewrite (testbit_above _ 11 15 HBm) by lia.
    rewrite (testbit_above (Z.shiftr b 3) 5 15) by lia.
    rewrite !orb_false_r.
    rewrite Z.shiftl_spec by lia. rewrite Z.shiftr_spec by lia.
    change (15 - 11 + 3) with 7.
    unfold channel in Hr.
    destruct (Z.leb_spec 128 r) as [Hge|Hlt].
    + apply Z.testbit_true; [lia|]. change (2 ^ 7) with 128. lia.
    + apply (testbit_above r 7 7); lia.
Qed.

(** ** The 4-bit grayscale packer *)

Lemma gray4_range p : 0 <= gray4 p <= 15.
Proof.
  unfold gray4. destruct (luma p) as [z| | |]; cbn [Math_max Math_min integral_ToInt32].
  - rewrite ToInt32_small; lia.
  - cbv. split; discriminate.
  - cbv. split; discriminate.
  - lia.
Qed.

Lemma gray4_floor p z : luma p = Fin z -> gray4 p = Z.min 15 (Z.max 0 z).
Proof.
  intros E. unfold gray4. rewrite E. cbn [Math_max Math_min integral_ToInt32].
  apply ToInt32_small. lia.
Qed.

Lemma lor_disjoint x y n :
  0 <= n -> 0 <= y < 2 ^ n -> Z.lor (x * 2 ^ n) y = x * 2 ^ n + y.
Proof.
  intros Hn Hy.
  assert (Hland : Z.land (x * 2 ^ n) y = 0).
  { apply Z.bits_inj'. intros m Hm.
    rewrite Z.land_spec, Z.bits_0, <- Z.shiftl_mul_pow2 by assumption.
    destruct (Z_lt_le_dec m n).
    - rewrite Z.shiftl_spec_low by assumption. reflexivity.
    - rewrite (testbit_above y n m) by lia. apply andb_false_r. }
  rewrite <- Z.lxor_lor by assumption. symmetry.
  apply Z.add_nocarry_lxor. assumption.
Qed.

Lemma or_nibbles hi lo :
  0 <= hi <= 15 -> 0 <= lo <= 15 -> JS.or (16 * hi) lo = 16 * hi + lo.
Proof.
  intros Hhi Hlo. rewrite or_small by lia.
  replace (16 * hi) with (hi * 2 ^ 4) by lia. apply lor_disjoint; lia.
Qed.

Lemma gray_at_range pixels i : 0 <= gray_at pixels i <= 15.
Proof.
  unfold gray_at. destruct (nth_error pixels i); [apply gray4_range | lia].
Qed.

Section Gray.

Variable pixels : list pixel.
Variables w h : nat.
Hypothesis enough : (w * h <= length pixels)%nat.

Lemma gray4_row_spec y bytes :
  (y < h)%nat ->
  gray4_row pixels w y bytes = Normal (bytes ++ gray_row_bytes pixels w y).
Proof.
  intros Hy. unfold gray4_row.
  pose (P := fun (x : nat) (st : list Z * Z * Z) =>
    st = (bytes ++ map (gray_byte pixels w y) (seq 0 (x / 2)),
          (if (x mod 2 =? 0)%nat then 1 else 0),
          (if (x mod 2 =? 0)%nat then 0
           else 16 * gray_at pixels (I w (x - 1) y)))).
  destruct (for_range_invariant P O w (gray4_pixel pixels w y) (bytes, 1, 0))
    as (st & E & HP).
  - unfold P. cbn. rewrite app_nil_r. reflexivity.
  - intros x t Hx Ht. unfold P in Ht. subst t. cbn [Nat.add gray4_pixel].
    destruct (pixel_at_in_range pixels (I w x y)) as (p & Hp & ->);
      [pose proof (index_bound w h x y Hx Hy); lia|].
    cbn [bind].
    assert (Hg : gray_at pixels (I w x y) = gray4 p)
      by (unfold gray_at; rewrite Hp; reflexivity).
    pose proof (gray4_range p) as Hr.
    destruct (Nat.eqb_spec (x mod 2) 0) as [Hev|Hodd].
    + cbn [Z.eqb Pos.eqb]. eexists. split; [reflexivity|]. unfold P.
      replace (S x / 2)%nat with (x / 2)%nat by lia.
      replace (S x mod 2 =? 0)%nat with false by (symmetry; apply Nat.eqb_neq; lia).
      replace (S x - 1)%nat with x by lia.
      rewrite Hg, shl_small by lia. change (2 ^ 4) with 16.
      rewrite (Z.mul_comm (gray4 p) 16). reflexivity.
    + cbn [Z.eqb]. eexists. split; [reflexivity|]. unfold P.
      replace (S x / 2)%nat with (S (x / 2)) by lia.
      replace (S x mod 2 =? 0)%nat with true by (symmetry; apply Nat.eqb_eq; lia).
      rewrite seq_S, map_app, <- app_assoc. cbn [map Nat.add app].
      do 5 f_equal. unfold gray_byte.
      replace (2 * (x / 2) + 1)%nat with x by lia.
      replace (2 * (x / 2))%nat with (x - 1)%nat by lia.
      replace (x <? w)%nat with true by (symmetry; apply Nat.ltb_lt; lia).
      rewrite Hg. apply or_nibbles; [apply gray_at_range | assumption].
  - rewrite E. unfold P in HP. subst st. cbn [bind].
    unfold gray_row_bytes, ceil_div.
    destruct (Nat.eqb_spec (w mod 2) 0) as [Hev|Hodd].
    + cbn [Z.eqb].
      replace ((w + (2 - 1)) / 2)%nat with (w / 2)%nat by lia. reflexivity.
    + cbn [Z.eqb].
      replace ((w + (2 - 1)) / 2)%nat with (S (w / 2)) by lia.
      rewrite seq_S, map_app, <- app_assoc. cbn [map Nat.add app].
      do 4 f_equal. unfold gray_byte.
      replace (2 * (w / 2))%nat with (w - 1)%nat by lia.
      replace (w - 1 + 1 <? w)%nat with false by (symmetry; apply Nat.ltb_ge; lia).
      lia.
Qed.

Lemma packGray4_spec :
  packGray4 pixels w h = Normal (flat_map (gray_row_bytes pixels w) (seq 0 h)).
Proof.
  unfold packGray4.
  pose (P := fun (y : nat) (out : list Z) =>
    out = flat_map (gray_row_bytes pixels w) (seq 0 y)).
  destruct (for_range_invariant P O h (gray4_row pixels w) []) as (out & E & HP).
  - reflexivity.
  - intros y t Hy Ht. unfold P in Ht. subst t. cbn [Nat.add].
    rewrite gray4_row_spec by assumption.
    eexists. split; [reflexivity|]. unfold P.
    rewrite flat_map_seq_snoc. reflexivity.
  - rewrite E. unfold P in HP. rewrite HP. reflexivity.
Qed.

End Gray.

(** ** The properties of [pack1bit] *)

Lemma pack1bit_horizontal pixels w h :
  pack1bit pixels w h (lit "horizontal") = horizontal lighter pixels w h [].
Proof. reflexivity. Qed.

Lemma pack1bit_vertical pixels w h :
  pack1bit pixels w h (lit "vertical") = vertical lighter pixels w h [].
Proof. reflexivity. Qed.

Lemma str_eqb_neq (s t : str) : s <> t -> (s === t) = false.
Proof. intros H. unfold str_eqb. destruct (list_eq_dec N.eq_dec s t); congruence. Qed.

Lemma str_eqb_refl (s : str) : (s === s) = true.
Proof. unfold str_eqb. destruct (list_eq_dec N.eq_dec s s); congruence. Qed.

(** C1, as the code has it: the bit that [pack1bit] emits for the pixel
    at column [x] of row [y] is 1 exactly when [r + g + b] exceeds 382
    (the code compares the sum with 382.5), whatever the alpha channel, in
    the horizontal and in the vertical orientation. *)
Theorem pack1bit_bit_threshold pixels w h x y p :
  length pixels = (w * h)%nat -> (x < w)%nat -> (y < h)%nat ->
  nth_error pixels (I w x y) = Some p ->
  (exists bytes,
     pack1bit pixels w h (lit "horizontal") = Normal bytes /\
     (Z.testbit (nth (y * ceil_div w 8 + x / 8) bytes 0) (7 - Z.of_nat (x mod 8)) = true
      <-> r p + g p + b p > 382)) /\
  (exists bytes,
     pack1bit pixels w h (lit "vertical") = Normal bytes /\
     (Z.testbit (nth (x * ceil_div h 8 + y / 8) bytes 0) (7 - Z.of_nat (y mod 8)) = true
      <-> r p + g p + b p > 382)).
Proof.
  intros Hlen Hx Hy Hp. split.
  - destruct (horizontal_bytes lighter pixels w h ltac:(lia)) as (bytes & E & _ & Hbits).
    exists bytes. split; [rewrite pack1bit_horizontal; exact E|].
    destruct (Hbits y (x / 8)%nat Hy ltac:(unfold ceil_div; lia)) as (_ & Hbit).
    rewrite (Hbit (x mod 8)%nat ltac:(lia)). unfold row_bit, bit_at.
    replace (8 * (x / 8) + x mod 8)%nat with x by lia. rewrite Hp.
    replace (x <? w)%nat with true by (symmetry; apply Nat.ltb_lt; assumption).
    apply lighter_spec.
  - destruct (vertical_bytes lighter pixels w h ltac:(lia)) as (bytes & E & _ & Hbits).
    exists bytes. split; [rewrite pack1bit_vertical; exact E|].
    destruct (Hbits x (y / 8)%nat Hx ltac:(unfold ceil_div; lia)) as (_ & Hbit).
    rewrite (Hbit (y mod 8)%nat ltac:(lia)). unfold column_bit, bit_at.
    replace (8 * (y / 8) + y mod 8)%nat with y by lia. rewrite Hp.
    replace (y <? h)%nat with true by (symmetry; apply Nat.ltb_lt; assumption).
    apply lighter_spec.
Qed.

Lemma pack1bit_bit_threshold_witness :
  exists bytes,
    pack1bit [white; black] 2 1 (lit "horizontal") = Normal bytes /\
    (Z.testbit (nth (0 * ceil_div 2 8 + 1 / 8) bytes 0) (7 - Z.of_nat (1 mod 8)) = true
     <-> r black + g black + b black > 382).
Proof.
  apply (pack1bit_bit_threshold [white; black] 2 1 1 0 black);
    [reflexivity | lia | lia | reflexivity].
Defined.

(** A pixel whose channels sum to 382: above 381, and its bit is 0. *)
Lemma pack1bit_sum_382_is_off :
  let p := mkPixel 128 127 127 255 in
  r p + g p + b p > 381 /\
  pack1bit [p] 1 1 (lit "horizontal") = Normal [0] /\
  pack1bit [p] 1 1 (lit "vertical") = Normal [0] /\
  Z.testbit (nth 0 [0] 0) 7 = false.
Proof. cbn. repeat split. Qed.

(** C5: on a buffer of [w * h] pixels the horizontal packing returns
    [ceil(w / 8) * h] bytes; byte [k] of row [y] holds the pixels
    [8k .. 8k+7] of that row from bit 7 down, every row starts with a byte
    of its own, and the bits past the end of the row are 0. A row of ten
    lit pixels gives 0xFF, 0xC0. *)
Theorem pack1bit_horizontal_layout pixels w h :
  length pixels = (w * h)%nat ->
  (exists bytes,
     pack1bit pixels w h (lit "horizontal") = Normal bytes /\
     length bytes = (ceil_div w 8 * h)%nat /\
     forall y k, (y < h)%nat -> (k < ceil_div w 8)%nat ->
       let byte := nth (y * ceil_div w 8 + k) bytes 0 in
       0 <= byte < 256 /\
       forall j, (j < 8)%nat ->
         Z.testbit byte (7 - Z.of_nat j)
         = if (8 * k + j <? w)%nat
           then bit_at lighter pixels (I w (8 * k + j) y)
           else false) /\
  pack1bit (repeat white 10) 10 1 (lit "horizontal") = Normal [0xFF; 0xC0].
Proof.
  intros Hlen. split; [|reflexivity].
  destruct (horizontal_bytes lighter pixels w h ltac:(lia)) as (bytes & E & Hl & Hbits).
  exists bytes. split; [rewrite pack1bit_horizontal; exact E|].
  split; [exact Hl|].
  intros y k Hy Hk. destruct (Hbits y k Hy Hk) as (Hrange & Hbit).
  split; [exact Hrange|].
  intros j Hj. rewrite (Hbit j Hj). unfold row_bit.
  destruct (8 * k + j <? w)%nat; reflexivity.
Qed.

Lemma pack1bit_horizontal_layout_witness :
  exists bytes,
    pack1bit (repeat white 10) 10 1 (lit "horizontal") = Normal bytes /\
    length bytes = (ceil_div 10 8 * 1)%nat.
Proof.
  destruct (pack1bit_horizontal_layout (repeat white 10) 10 1 eq_refl)
    as ((bytes & E & Hl & _) & _).
  exists bytes. split; assumption.
Defined.

(** C6: on a buffer of [w * h] pixels the vertical packing returns
    [w * ceil(h / 8)] bytes, the pages of column 0 first, then those of
    column 1, and so on; in the byte of a page bit 7 is the topmost pixel
    of the page and bit 0 the eighth, and the positions below the last row
    are 0. *)
Theorem pack1bit_vertical_layout pixels w h :
  length pixels = (w * h)%nat ->
  exists bytes,
    pack1bit pixels w h (lit "vertical") = Normal bytes /\
    length bytes = (w * ceil_div h 8)%nat /\
    forall x page, (x < w)%nat -> (page < ceil_div h 8)%nat ->
      let byte := nth (x * ceil_div h 8 + page) bytes 0 in
      0 <= byte < 256 /\
      forall j, (j < 8)%nat ->
        Z.testbit byte (7 - Z.of_nat j)
        = if (8 * page + j <? h)%nat
          then bit_at lighter pixels (I w x (8 * page + j))
          else false.
Proof.
  intros Hlen.
  destruct (vertical_bytes lighter pixels w h ltac:(lia)) as (bytes & E & Hl & Hbits).
  exists bytes. split; [rewrite pack1bit_vertical; exact E|].
  split; [exact Hl|].
  intros x page Hx Hpage. destruct (Hbits x page Hx Hpage) as (Hrange & Hbit).
  split; [exact Hrange|].
  intros j Hj. rewrite (Hbit j Hj). unfold column_bit.
  destruct (8 * page + j <? h)%nat; reflexivity.
Qed.

Lemma pack1bit_vertical_layout_witness :
  exists bytes,
    pack1bit (alternating 10) 1 10 (lit "vertical") = Normal bytes /\
    length bytes = (1 * ceil_div 10 8)%nat.
Proof.
  destruct (pack1bit_vertical_layout (alternating 10) 1 10 eq_refl)
    as (bytes & E & Hl & _).
  exists bytes. split; assumption.
Defined.

(** C10: with an orientation that is neither 'horizontal' nor 'vertical'
    [pack1bit] returns the empty sequence, while [pack1bitAlpha] packs
    vertically; on a grid that is not empty the two results differ. *)
Theorem unrecognized_orientation pixels w h orientation :
  orientation <> lit "horizontal" -> orientation <> lit "vertical" ->
  pack1bit pixels w h orientation = Normal [] /\
  pack1bitAlpha pixels w h orientation = vertical hasAlpha pixels w h [] /\
  pack1bitAlpha pixels w h orientation = pack1bitAlpha pixels w h (lit "vertical") /\
  ((0 < w)%nat -> (0 < h)%nat ->
   pack1bit pixels w h orientation <> pack1bitAlpha pixels w h orientation).
Proof.
  intros Hh Hv.
  assert (E1 : pack1bit pixels w h orientation = Normal []).
  { unfold pack1bit. rewrite (str_eqb_neq _ _ Hh), (str_eqb_neq _ _ Hv). reflexivity. }
  assert (E2 : pack1bitAlpha pixels w h orientation = vertical hasAlpha pixels w h []).
  { unfold pack1bitAlpha. rewrite (str_eqb_neq _ _ Hh). reflexivity. }
  repeat split; [exact E1 | exact E2 | rewrite E2; reflexivity |].
  intros Hw Hh'. rewrite E1, E2.
  destruct (le_lt_dec (w * h) (length pixels)) as [Hlen|Hlen].
  - destruct (vertical_bytes hasAlpha pixels w h Hlen) as (bytes & E & Hl & _).
    rewrite E. intros [= <-]. cbn [length] in Hl.
    assert (0 < ceil_div h 8)%nat by (unfold ceil_div; lia). nia.
  - rewrite (reads_grid_short w h _ pixels (vertical_reads_grid hasAlpha w h) Hlen).
    discriminate.
Qed.

Lemma unrecognized_orientation_witness :
  pack1bit [white] 1 1 (lit "diagonal") = Normal [] /\
  pack1bitAlpha [white] 1 1 (lit "diagonal") = Normal [0x80].
Proof.
  destruct (unrecognized_orientation [white] 1 1 (lit "diagonal"))
    as (E1 & E2 & _); [discriminate | discriminate |].
  split; [exact E1 | rewrite E2; reflexivity].
Defined.

(** ** The properties of [packRGB565] *)

Lemma packRGB565_map pixels w h :
  length pixels = (w * h)%nat ->
  packRGB565 pixels w h = Normal (map (fun p => rgbTo565 (r p) (g p) (b p)) pixels).
Proof. intros Hlen. unfold packRGB565. apply row_major_map. assumption. Qed.

(** C3, as the code has it: on a buffer of [w * h] pixels with 8-bit
    channels [packRGB565] returns [w * h] words, each within 16 bits; bit
    15 of a word is the top bit of the red channel of its pixel, so it is
    1 for every pixel with [r >= 128]. *)
Theorem packRGB565_words pixels w h :
  length pixels = (w * h)%nat ->
  (forall p, In p pixels -> wf_pixel p) ->
  exists words,
    packRGB565 pixels w h = Normal words /\
    length words = (w * h)%nat /\
    forall i p, nth_error pixels i = Some p ->
      let word := nth i words 0 in
      0 <= word < 2 ^ 16 /\ Z.testbit word 15 = (128 <=? r p).
Proof.
  intros Hlen Hwf. eexists. split; [apply packRGB565_map; assumption|].
  split; [rewrite length_map; assumption|].
  intros i p Hp.
  assert (Hw : nth_error (map (fun p => rgbTo565 (r p) (g p) (b p)) pixels) i
               = Some (rgbTo565 (r p) (g p) (b p)))
    by (rewrite nth_error_map, Hp; reflexivity).
  cbv zeta. rewrite (nth_error_nth _ _ 0 Hw).
  destruct (Hwf p (nth_error_In _ _ Hp)) as (Hr & Hg & Hb & _).
  apply rgbTo565_range; assumption.
Qed.

Lemma packRGB565_words_witness :
  exists words,
    packRGB565 [mkPixel 255 0 0 255; mkPixel 0 255 0 255] 2 1 = Normal words /\
    length words = (2 * 1)%nat.
Proof.
  destruct (packRGB565_words [mkPixel 255 0 0 255; mkPixel 0 255 0 255] 2 1 eq_refl)
    as (words & E & Hl & _).
  - intros p [<-|[<-|[]]]; unfold wf_pixel, channel; cbn; lia.
  - exists words. split; assumption.
Defined.

(** Pure red: bit 15 of its word is 1. *)
Lemma packRGB565_red_sets_bit_15 :
  wf_pixel (mkPixel 255 0 0 255) /\
  packRGB565 [mkPixel 255 0 0 255] 1 1 = Normal [0xF800] /\
  Z.testbit 0xF800 15 = true.
Proof. repeat split; unfold channel; cbn; lia. Qed.

(** C7: on a buffer of [w * h] pixels with 8-bit channels the word of the
    pixel at column [x] of row [y] is
    [((r >> 3) << 11) | ((g >> 2) << 5) | (b >> 3)], and it stands at
    index [y * w + x]; pure red, green and blue give 0xF800, 0x07E0,
    0x001F. *)
Theorem packRGB565_conversion pixels w h :
  length pixels = (w * h)%nat ->
  (forall p, In p pixels -> wf_pixel p) ->
  (exists words,
     packRGB565 pixels w h = Normal words /\
     length words = (w * h)%nat /\
     forall x y p, (x < w)%nat -> (y < h)%nat ->
       nth_error pixels (I w x y) = Some p ->
       nth_error words (y * w + x)
       = Some (Z.lor (Z.lor (Z.shiftl (Z.shiftr (r p) 3) 11)
                            (Z.shiftl (Z.shiftr (g p) 2) 5))
                     (Z.shiftr (b p) 3))) /\
  packRGB565 [mkPixel 255 0 0 255; mkPixel 0 255 0 255; mkPixel 0 0 255 255] 3 1
  = Normal [0xF800; 0x07E0; 0x001F].
Proof.
  intros Hlen Hwf. split; [|reflexivity].
  eexists. split; [apply packRGB565_map; assumption|].
  split; [rewrite length_map; assumption|].
  intros x y p Hx Hy Hp. unfold I in Hp.
  rewrite nth_error_map, Hp. cbn [option_map]. f_equal.
  destruct (Hwf p (nth_error_In _ _ Hp)) as (Hr & Hg & Hb & _).
  apply rgbTo565_channels; assumption.
Qed.

Lemma packRGB565_conversion_witness :
  exists words,
    packRGB565 [white; black] 1 2 = Normal words /\
    nth_error words (1 * 1 + 0)
    = Some (Z.lor (Z.lor (Z.shiftl (Z.shiftr (r black) 3) 11)
                         (Z.shiftl (Z.shiftr (g black) 2) 5))
                  (Z.shiftr (b black) 3)).
Proof.
  destruct (packRGB565_conversion [white; black] 1 2 eq_refl)
    as ((words & E & _ & Hword) & _).
  - intros p [<-|[<-|[]]]; unfold wf_pixel, channel; cbn; lia.
  - exists words. split; [exact E|].
    apply (Hword 0%nat 1%nat black); [lia | lia | reflexivity].
Defined.

(** ** The properties of [packGray4] *)

(** C4, as the code has it: the gray value of a pixel is
    [Math.floor((0.2126 r + 0.7152 g + 0.0722 b) / 16)] clamped to 0..15,
    the quotient being rounded down; byte [k] of row [y] has the value of
    pixel [2k] of the row in its high nibble and that of pixel [2k + 1] in
    its low nibble, and the last byte of a row of odd width has the last
    pixel in its high nibble and a low nibble of 0. *)
Theorem packGray4_layout pixels w h :
  length pixels = (w * h)%nat ->
  (forall p, 0 <= gray4 p <= 15 /\
             forall z, luma p = Fin z -> gray4 p = Z.min 15 (Z.max 0 z)) /\
  exists bytes,
    packGray4 pixels w h = Normal bytes /\
    length bytes = (h * ceil_div w 2)%nat /\
    forall y k first, (y < h)%nat -> (k < ceil_div w 2)%nat ->
      nth_error pixels (I w (2 * k) y) = Some first ->
      let byte := nth (y * ceil_div w 2 + k) bytes 0 in
      Z.shiftr byte 4 = gray4 first /\
      ((2 * k + 1 < w)%nat ->
       forall second, nth_error pixels (I w (2 * k + 1) y) = Some second ->
                      Z.land byte 15 = gray4 second) /\
      ((w <= 2 * k + 1)%nat -> Z.land byte 15 = 0).
Proof.
  intros Hlen. split.
  { intros p. split; [apply gray4_range | apply gray4_floor]. }
  exists (flat_map (gray_row_bytes pixels w) (seq 0 h)).
  split; [apply packGray4_spec; lia|].
  assert (Hrow : forall i, (i < h)%nat -> length (gray_row_bytes pixels w i) = ceil_div w 2)
    by (intros; unfold gray_row_bytes; rewrite length_map, length_seq; reflexivity).
  split.
  { rewrite (flat_map_uniform_length _ (ceil_div w 2)).
    - rewrite length_seq. reflexivity.
    - intros i Hi. apply in_seq in Hi. apply Hrow. lia. }
  intros y k first Hy Hk Hfirst. cbv zeta.
  rewrite (nth_flat_map_seq _ (ceil_div w 2) h y k 0 Hrow Hy Hk).
  unfold gray_row_bytes. rewrite nth_map_seq by assumption.
  unfold gray_byte.
  assert (Hhi : gray_at pixels (I w (2 * k) y) = gray4 first)
    by (unfold gray_at; rewrite Hfirst; reflexivity).
  rewrite Hhi. pose proof (gray4_range first) as Hr1.
  set (lo := if (2 * k + 1 <? w)%nat then gray_at pixels (I w (2 * k + 1) y) else 0).
  assert (Hlo : 0 <= lo <= 15).
  { subst lo. destruct (2 * k + 1 <? w)%nat; [apply gray_at_range | lia]. }
  assert (Hland : Z.land (16 * gray4 first + lo) 15 = lo).
  { change 15 with (Z.ones 4). rewrite Z.land_ones by lia.
    change (2 ^ 4) with 16. lia. }
  split; [|split].
  - rewrite Z.shiftr_div_pow2 by lia. change (2 ^ 4) with 16. lia.
  - intros Hin second Hsecond. rewrite Hland. subst lo.
    replace (2 * k + 1 <? w)%nat with true by (symmetry; apply Nat.ltb_lt; lia).
    unfold gray_at. rewrite Hsecond. reflexivity.
  - intros Hout. rewrite Hland. subst lo.
    replace (2 * k + 1 <? w)%nat with false by (symmetry; apply Nat.ltb_ge; lia).
    reflexivity.
Qed.

Lemma packGray4_layout_witness :
  exists bytes,
    packGray4 [black; white; white] 3 1 = Normal bytes /\
    length bytes = (1 * ceil_div 3 2)%nat.
Proof.
  destruct (packGray4_layout [black; white; white] 3 1 eq_refl)
    as (_ & bytes & E & Hl & _).
  exists bytes. split; assumption.
Defined.

(** A pixel of gray 170: the quotient is 10.625, rounded it is 11, and the
    code packs 10 (the built-in test of the repository expects 0xAF for
    the pair 170, 255). *)
Lemma packGray4_rounds_down :
  let p := mkPixel 170 170 170 255 in
  gray4_rounded p = 11 /\
  luma p = Fin 10 /\
  packGray4 [p] 1 1 = Normal [0xA0] /\
  Z.shiftr 0xA0 4 = 10.
Proof. vm_compute. repeat split. Qed.

(** ** No packer checks the length of the buffer *)

Lemma packers_read_grid pack w h :
  In pack packers ->
  reads_grid w h (fun pixels => pack pixels w h) /\
  forall pixels, (w * h <= length pixels)%nat -> exists out, pack pixels w h = Normal out.
Proof.
  intros Hin. cbn [packers In] in Hin.
  repeat (destruct Hin as [<-|Hin]); [| | | | | | | |destruct Hin].
  - split; [apply horizontal_reads_grid|].
    intros pixels Hlen. rewrite pack1bit_horizontal, (horizontal_spec _ _ _ _ Hlen). eauto.
  - split; [apply vertical_reads_grid|].
    intros pixels Hlen. rewrite pack1bit_vertical, (vertical_spec _ _ _ _ Hlen). eauto.
  - split; [apply horizontal_reads_grid|].
    intros pixels Hlen. change (pack1bitAlpha pixels w h (lit "horizontal"))
      with (horizontal hasAlpha pixels w h []).
    rewrite (horizontal_spec _ _ _ _ Hlen). eauto.
  - split; [apply vertical_reads_grid|].
    intros pixels Hlen. change (pack1bitAlpha pixels w h (lit "vertical"))
      with (vertical hasAlpha pixels w h []).
    rewrite (vertical_spec _ _ _ _ Hlen). eauto.
  - split; [apply row_major_reads_grid|].
    intros pixels Hlen. unfold packRGB565. rewrite row_major_spec by assumption. eauto.
  - split; [apply row_major_reads_grid|].
    intros pixels Hlen. unfold packRGB24. rewrite row_major_spec by assumption. eauto.
  - split; [apply row_major_reads_grid|].
    intros pixels Hlen. unfold packRGB332. rewrite row_major_spec by assumption. eauto.
  - split; [apply packGray4_reads_grid|].
    intros pixels Hlen. rewrite (packGray4_spec _ _ _ Hlen). eauto.
Qed.

(** C2, as the code has it: no packer compares the length of the buffer
    with [width * height]. A buffer that is longer is packed all the same,
    the pixels past index [width * height - 1] being ignored; a buffer
    that is shorter is not refused before packing: the call ends with the
    TypeError of the first read of a missing pixel. *)
Theorem packers_do_not_check_length pack pixels w h :
  In pack packers ->
  ((w * h <= length pixels)%nat ->
     (exists out, pack pixels w h = Normal out) /\
     pack pixels w h = pack (firstn (w * h) pixels) w h) /\
  ((length pixels < w * h)%nat -> pack pixels w h = Throw TypeError).
Proof.
  intros Hin. destruct (packers_read_grid pack w h Hin) as (Hgrid & Hnormal).
  split.
  - intros Hlen. split; [apply Hnormal; assumption|].
    destruct Hgrid as (_ & _ & Hext). symmetry. apply (Hext pixels).
  - intros Hlen. apply (reads_grid_short w h _ pixels Hgrid Hlen).
Qed.

Lemma packers_do_not_check_length_witness :
  packRGB565 [white; black; white] 1 2 = packRGB565 (firstn (1 * 2) [white; black; white]) 1 2 /\
  packRGB565 [white] 1 2 = Throw TypeError.
Proof.
  split.
  - apply (packers_do_not_check_length packRGB565 [white; black; white] 1 2);
      [cbn; auto 10 | cbn; lia].
  - apply (packers_do_not_check_length packRGB565 [white] 1 2);
      [cbn; auto 10 | cbn; lia].
Defined.

(** A buffer of two pixels for a grid of one: both packers return the
    packing of the first pixel. *)
Lemma packers_accept_longer_buffer :
  length [white; black] <> (1 * 1)%nat /\
  pack1bit [white; black] 1 1 (lit "horizontal") = Normal [0x80] /\
  pack1bit [white; black] 1 1 (lit "vertical") = Normal [0x80] /\
  packRGB565 [white; black] 1 1 = Normal [0xFFFF].
Proof. repeat split. cbn. lia. Qed.

(** ** The dispatch of [generateCppCode] *)

Lemma packers_throw pack pixels w h e :
  In pack packers -> pack pixels w h = Throw e -> e = TypeError.
Proof.
  intros Hin H. destruct (packers_read_grid pack w h Hin) as ((Hthrow & _) & _).
  apply (Hthrow pixels e H).
Qed.

Lemma row_major_throw emit pixels w h e :
  row_major emit pixels w h = Throw e -> e = TypeError.
Proof.
  intros H. destruct (row_major_reads_grid w h emit) as (Hthrow & _).
  apply (Hthrow pixels e H).
Qed.

Lemma receiver_throw {A} (o : option A) e : receiver o = Throw e -> e = TypeError.
Proof. destruct o; cbn; [discriminate | intros [= <-]; reflexivity]. Qed.

Lemma pack_by_drawMode_throw drawMode data w h e :
  pack_by_drawMode drawMode data w h = Throw e -> e = TypeError.
Proof.
  unfold pack_by_drawMode. intros H.
  repeat match type of H with
         | (if ?c then _ else _) = _ => destruct c
         end;
    try discriminate;
    apply bind_throw in H; destruct H as [H|(? & _ & H)]; try discriminate.
  - apply (packers_throw (fun pixels w h => pack1bit pixels w h (lit "horizontal")) data w h);
      [cbn; auto 10 | exact H].
  - apply (packers_throw (fun pixels w h => pack1bit pixels w h (lit "vertical")) data w h);
      [cbn; auto 10 | exact H].
  - apply (packers_throw (fun pixels w h => pack1bitAlpha pixels w h (lit "horizontal")) data w h);
      [cbn; auto 10 | exact H].
  - apply (packers_throw packRGB565 data w h); [cbn; auto 10 | exact H].
  - apply (packers_throw packRGB24 data w h); [cbn; auto 10 | exact H].
  - apply (row_major_throw _ _ _ _ _ H).
Qed.

Lemma emitters_throw bytes safeName w h dataType dataFormat drawMode e :
  (generatePlainBytes bytes safeName w h dataType = Throw e -> e = TypeError) /\
  (generateArduinoCode bytes safeName w h dataType dataFormat drawMode = Throw e
   -> e = TypeError) /\
  (generateArduinoSingleBitmap bytes safeName w h dataType dataFormat = Throw e
   -> e = TypeError) /\
  (generateGFXBitmapFont bytes safeName w h = Throw e -> e = TypeError).
Proof.
  unfold generatePlainBytes, generateArduinoCode, generateArduinoSingleBitmap,
    generateGFXBitmapFont.
  repeat split; intros H;
    (apply bind_throw in H; destruct H as [H|(? & _ & H)];
     [apply (receiver_throw _ _ H)|]);
    repeat match type of H with
           | (if ?c then _ else _) = _ => destruct c
           end; discriminate.
Qed.

Lemma legacy_fallback_throw drawMode data w h safeName bytes e :
  legacy_fallback drawMode data w h safeName bytes = Throw e ->
  e = TypeError \/ e = ReferenceError.
Proof.
  unfold legacy_fallback, mode. intros H.
  destruct (drawMode === lit "HORIZONTAL_1BIT").
  - apply bind_throw in H. destruct H as [H|(? & _ & H)]; [|discriminate].
    left. apply (receiver_throw _ _ H).
  - destruct (drawMode === lit "HORIZONTAL_RGB565").
    + apply bind_throw in H. destruct H as [H|(? & _ & H)]; [|discriminate].
      left. apply (packers_throw packRGB565 data w h); [cbn; auto 10 | exact H].
    + cbn [bind] in H. injection H as <-. right. reflexivity.
Qed.

Lemma generateCppCode_throw name drawMode outputFormat data w h e :
  generateCppCode name drawMode outputFormat data w h = Throw e ->
  e = TypeError \/ e = ReferenceError.
Proof.
  unfold generateCppCode. intros H. cbv zeta in H.
  apply bind_throw in H. destruct H as [H|([[bytes dataType] dataFormat] & _ & H)].
  - left. apply (pack_by_drawMode_throw _ _ _ _ _ H).
  - destruct (emitters_throw bytes (sanitize name) w h dataType dataFormat drawMode e)
      as (H1 & H2 & H3 & H4).
    destruct (outputFormat === lit "PLAIN_BYTES"); [left; apply H1; exact H|].
    destruct (outputFormat === lit "ARDUINO_CODE"); [left; apply H2; exact H|].
    destruct (outputFormat === lit "ARDUINO_SINGLE_BITMAP"); [left; apply H3; exact H|].
    destruct (outputFormat === lit "GFX_BITMAP_FONT"); [left; apply H4; exact H|].
    apply (legacy_fallback_throw _ _ _ _ _ _ _ H).
Qed.

(** Whatever [generateCppCode] returns is a text. *)
Lemma generateCppCode_returns_text name drawMode outputFormat data w h v :
  generateCppCode name drawMode outputFormat data w h = Normal v ->
  exists s, v = VString s.
Proof.
  unfold generateCppCode. intros H. cbv zeta in H.
  apply bind_normal in H. destruct H as ([[bytes dataType] dataFormat] & _ & H).
  destruct (outputFormat === lit "PLAIN_BYTES").
  { unfold generatePlainBytes in H. apply bind_normal in H.
    destruct H as (l & _ & H). injection H as <-. eauto. }
  destruct (outputFormat === lit "ARDUINO_CODE").
  { unfold generateArduinoCode in H. apply bind_normal in H.
    destruct H as (l & _ & H).
    destruct (includes drawMode (lit "1BIT")); [injection H as <-; eauto|].
    destruct (includes drawMode (lit "RGB565")); injection H as <-; eauto. }
  destruct (outputFormat === lit "ARDUINO_SINGLE_BITMAP").
  { unfold generateArduinoSingleBitmap in H. apply bind_normal in H.
    destruct H as (l & _ & H). injection H as <-. eauto. }
  destruct (outputFormat === lit "GFX_BITMAP_FONT").
  { unfold generateGFXBitmapFont in H. apply bind_normal in H.
    destruct H as (l & _ & H). injection H as <-. eauto. }
  unfold legacy_fallback, mode in H.
  destruct (drawMode === lit "HORIZONTAL_1BIT").
  { apply bind_normal in H. destruct H as (l & _ & H). injection H as <-. eauto. }
  destruct (drawMode === lit "HORIZONTAL_RGB565").
  { apply bind_normal in H. destruct H as (l & _ & H). injection H as <-. eauto. }
  discriminate H.
Qed.

(** C8, as the code has it: [generateCppCode] has no error of its own
    for a pair of selectors it does not handle, and when the output format
    is none of the four it knows, the draw modes HORIZONTAL_1BIT and
    HORIZONTAL_RGB565 fall to the legacy branch, which returns a complete
    sketch: a string, not [undefined]. *)
Theorem generateCppCode_unrecognized name drawMode outputFormat data w h :
  (forall msg,
     generateCppCode name drawMode outputFormat data w h <> Throw (Error msg)) /\
  (outputFormat <> lit "PLAIN_BYTES" ->
   outputFormat <> lit "ARDUINO_CODE" ->
   outputFormat <> lit "ARDUINO_SINGLE_BITMAP" ->
   outputFormat <> lit "GFX_BITMAP_FONT" ->
   length data = (w * h)%nat ->
   (drawMode = lit "HORIZONTAL_1BIT" ->
    exists bytes,
      pack1bit data w h (lit "horizontal") = Normal bytes /\
      generateCppCode name drawMode outputFormat data w h
      = Normal (VString (legacy_1bit (sanitize name) w h
                           (join (lit ", ") (map hex2 bytes))))) /\
   (drawMode = lit "HORIZONTAL_RGB565" ->
    exists words,
      packRGB565 data w h = Normal words /\
      generateCppCode name drawMode outputFormat data w h
      = Normal (VString (legacy_rgb565 (sanitize name) w h
                           (join (lit ", ") (map hex565 words)))))).
Proof.
  split.
  { intros msg H. apply generateCppCode_throw in H. destruct H; discriminate. }
  intros H1 H2 H3 H4 Hlen. split; intros ->.
  - destruct (horizontal_bytes lighter data w h ltac:(lia)) as (bytes & E & _).
    exists bytes. split; [rewrite pack1bit_horizontal; exact E|].
    unfold generateCppCode. cbv zeta.
    change (pack_by_drawMode (lit "HORIZONTAL_1BIT") data w h)
      with (bytes <- pack1bit data w h (lit "horizontal") ;;
            Normal (Some bytes, VString (lit "uint8_t"), VString (lit "bits"))).
    rewrite pack1bit_horizontal, E. cbn [bind].
    rewrite (str_eqb_neq _ _ H1), (str_eqb_neq _ _ H2), (str_eqb_neq _ _ H3),
      (str_eqb_neq _ _ H4).
    unfold legacy_fallback. rewrite str_eqb_refl. reflexivity.
  - exists (map (fun p => rgbTo565 (r p) (g p) (b p)) data).
    pose proof (packRGB565_map data w h Hlen) as E.
    split; [exact E|].
    unfold generateCppCode. cbv zeta.
    change (pack_by_drawMode (lit "HORIZONTAL_RGB565") data w h)
      with (bytes <- packRGB565 data w h ;;
            Normal (Some bytes, VString (lit "uint16_t"), VString (lit "pixels"))).
    rewrite E. cbn [bind].
    rewrite (str_eqb_neq _ _ H1), (str_eqb_neq _ _ H2), (str_eqb_neq _ _ H3),
      (str_eqb_neq _ _ H4).
    unfold legacy_fallback.
    change (lit "HORIZONTAL_RGB565" === lit "HORIZONTAL_1BIT") with false.
    rewrite str_eqb_refl, E. reflexivity.
Qed.

Lemma generateCppCode_unrecognized_witness :
  exists bytes,
    pack1bit [white] 1 1 (lit "horizontal") = Normal bytes /\
    generateCppCode (lit "my sprite") (lit "HORIZONTAL_1BIT") (lit "SVG") [white] 1 1
    = Normal (VString (legacy_1bit (sanitize (lit "my sprite")) 1 1
                         (join (lit ", ") (map hex2 bytes)))).
Proof.
  apply (generateCppCode_unrecognized (lit "my sprite") (lit "HORIZONTAL_1BIT")
           (lit "SVG") [white] 1 1);
    [discriminate | discriminate | discriminate | discriminate | reflexivity | reflexivity].
Defined.

(** Three pairs the dispatch does not handle: none returns [undefined]. *)
Lemma generateCppCode_unrecognized_outcomes :
  generateCppCode (lit "sprite") (lit "HORIZONTAL_1BIT") (lit "SVG") [white] 1 1
  = Normal (VString (legacy_1bit (lit "sprite") 1 1 (lit "0x80"))) /\
  generateCppCode (lit "sprite") (lit "SEPIA") (lit "PLAIN_BYTES") [white] 1 1
  = Throw TypeError /\
  generateCppCode (lit "sprite") (lit "VERTICAL_1BIT") (lit "SVG") [white] 1 1
  = Throw ReferenceError /\
  generateCppCode (lit "sprite") (lit "HORIZONTAL_1BIT") (lit "SVG") [white] 1 1
  <> Normal VUndefined.
Proof. vm_compute. repeat split. discriminate. Qed.

(** ** The sanitized name *)

Lemma sanitize_length name : length (sanitize name) = length name.
Proof. apply length_map. Qed.

Lemma sanitize_nth name i c :
  nth_error name i = Some c ->
  nth_error (sanitize name) i = Some (if identifier_unit c then c else 95%N).
Proof. intros H. unfold sanitize. rewrite nth_error_map, H. reflexivity. Qed.

Lemma sanitize_identifier name c : In c (sanitize name) -> identifier_unit c = true.
Proof.
  unfold sanitize. intros H. apply in_map_iff in H. destruct H as (d & <- & _).
  destruct (identifier_unit d) eqn:E; [exact E | reflexivity].
Qed.

Lemma sanitize_idempotent name : sanitize (sanitize name) = sanitize name.
Proof.
  unfold sanitize. rewrite map_map. apply map_ext. intros c.
  destruct (identifier_unit c) eqn:E; [rewrite E|]; reflexivity.
Qed.

(** The sanitized name, place by place, with the class [A-Za-z0-9_]
    written out. *)
Lemma sanitize_units name i c :
  nth_error name i = Some c ->
  let kept :=
    (N_of_ascii "a" <= c <= N_of_ascii "z")%N \/
    (N_of_ascii "A" <= c <= N_of_ascii "Z")%N \/
    (N_of_ascii "0" <= c <= N_of_ascii "9")%N \/
    c = N_of_ascii "_" in
  (kept -> nth_error (sanitize name) i = Some c) /\
  (~ kept -> nth_error (sanitize name) i = Some (N_of_ascii "_")).
Proof.
  intros H. cbv zeta. rewrite (sanitize_nth name i c H).
  change (N_of_ascii "a") with 97%N. change (N_of_ascii "z") with 122%N.
  change (N_of_ascii "A") with 65%N. change (N_of_ascii "Z") with 90%N.
  change (N_of_ascii "0") with 48%N. change (N_of_ascii "9") with 57%N.
  change (N_of_ascii "_") with 95%N.
  unfold identifier_unit.
  destruct (N.leb_spec 97 c), (N.leb_spec c 122), (N.leb_spec 65 c),
    (N.leb_spec c 90), (N.leb_spec 48 c), (N.leb_spec c 57), (N.eqb_spec c 95);
    cbn [andb orb]; split; intros K; try reflexivity; exfalso; lia.
Qed.

Lemma sanitize_in_class name c :
  In c (sanitize name) ->
  (N_of_ascii "a" <= c <= N_of_ascii "z")%N \/
  (N_of_ascii "A" <= c <= N_of_ascii "Z")%N \/
  (N_of_ascii "0" <= c <= N_of_ascii "9")%N \/
  c = N_of_ascii "_".
Proof.
  intros H. apply sanitize_identifier in H. unfold identifier_unit in H.
  change (N_of_ascii "a") with 97%N. change (N_of_ascii "z") with 122%N.
  change (N_of_ascii "A") with 65%N. change (N_of_ascii "Z") with 90%N.
  change (N_of_ascii "0") with 48%N. change (N_of_ascii "9") with 57%N.
  change (N_of_ascii "_") with 95%N.
  destruct (N.leb_spec 97 c), (N.leb_spec c 122), (N.leb_spec 65 c),
    (N.leb_spec c 90), (N.leb_spec 48 c), (N.leb_spec c 57), (N.eqb_spec c 95);
    cbn [andb orb] in H; try discriminate H; lia.
Qed.

Lemma exportCpp_file name drawMode outputFormat data w h file :
  exportCpp name drawMode outputFormat data w h = Normal file ->
  filename file = sanitize name ++ lit ".h" /\
  generateCppCode name drawMode outputFormat data w h = Normal (text file).
Proof.
  intros H. unfold exportCpp in H. apply bind_normal in H.
  destruct H as (code & E & H). injection H as <-. cbn [filename text].
  split; [reflexivity | exact E].
Qed.

(** The generated text is one of the texts above, whatever the name, with
    the sanitized name at every slot. *)
Lemma generateCppCode_text drawMode outputFormat data w h :
  exists (count : nat) (dataType dataFormat listing : str),
  forall name code,
    generateCppCode name drawMode outputFormat data w h = Normal (VString code) ->
    code = fill (sanitize name)
             (generated_text drawMode outputFormat w h count dataType dataFormat listing).
Proof.
  pose (words := match packRGB565 data w h with
                 | Normal ws => join (lit ", ") (map hex565 ws)
                 | Throw _ => []
                 end).
  assert (Hlegacy : forall name bytes listing code,
    (forall l, bytes = Some l -> listing = join (lit ", ") (map hex2 l)) ->
    legacy_fallback drawMode data w h (sanitize name) bytes = Normal (VString code) ->
    code = fill (sanitize name)
             (if drawMode === lit "HORIZONTAL_1BIT"
              then legacy_1bit_text w h listing
              else legacy_rgb565_text w h words)).
  { intros name bytes listing code Hl H. unfold legacy_fallback, mode in H.
    destruct (drawMode === lit "HORIZONTAL_1BIT").
    - destruct bytes as [l|]; [|discriminate H].
      cbn [receiver bind] in H. injection H as <-.
      rewrite (Hl l eq_refl). reflexivity.
    - destruct (drawMode === lit "HORIZONTAL_RGB565"); [|discriminate H].
      subst words. destruct (packRGB565 data w h) as [ws|e]; [|discriminate H].
      cbn [bind] in H. injection H as <-. reflexivity. }
  destruct (pack_by_drawMode drawMode data w h) as [[[bytes dt] df]|e] eqn:E.
  2: { exists O, [], [], []. intros name code H.
       unfold generateCppCode in H. rewrite E in H. discriminate H. }
  destruct bytes as [l|].
  - exists (length l), (show dt), (show df),
      (if outputFormat === lit "PLAIN_BYTES" then join (lit ", ") (map (formatByte dt) l)
       else if outputFormat === lit "ARDUINO_CODE" then join (lit ", ") (map (formatByte dt) l)
       else if outputFormat === lit "ARDUINO_SINGLE_BITMAP"
         then join (lit ", ") (map (formatByte dt) l)
       else if outputFormat === lit "GFX_BITMAP_FONT" then join (lit ", ") (map hex2 l)
       else if drawMode === lit "HORIZONTAL_1BIT" then join (lit ", ") (map hex2 l)
       else words).
    intros name code H. unfold generateCppCode in H. cbv zeta in H.
    rewrite E in H. cbn [bind] in H. unfold generated_text.
    destruct (outputFormat === lit "PLAIN_BYTES").
    { unfold generatePlainBytes in H. cbn [receiver bind] in H.
      injection H as <-. reflexivity. }
    destruct (outputFormat === lit "ARDUINO_CODE").
    { unfold generateArduinoCode in H. cbn [receiver bind] in H.
      destruct (includes drawMode (lit "1BIT")); [injection H as <-; reflexivity|].
      destruct (includes drawMode (lit "RGB565")); injection H as <-; reflexivity. }
    destruct (outputFormat === lit "ARDUINO_SINGLE_BITMAP").
    { unfold generateArduinoSingleBitmap in H. cbn [receiver bind] in H.
      injection H as <-. reflexivity. }
    destruct (outputFormat === lit "GFX_BITMAP_FONT").
    { unfold generateGFXBitmapFont in H. cbn [receiver bind] in H.
      injection H as <-. reflexivity. }
    rewrite (Hlegacy name (Some l) (join (lit ", ") (map hex2 l)) code);
      [|intros l' [= <-]; reflexivity | exact H].
    destruct (drawMode === lit "HORIZONTAL_1BIT"); reflexivity.
  - exists O, [], [], words.
    intros name code H. unfold generateCppCode in H. cbv zeta in H.
    rewrite E in H. cbn [bind] in H. unfold generated_text.
    destruct (outputFormat === lit "PLAIN_BYTES"); [discriminate H|].
    destruct (outputFormat === lit "ARDUINO_CODE"); [discriminate H|].
    destruct (outputFormat === lit "ARDUINO_SINGLE_BITMAP"); [discriminate H|].
    destruct (outputFormat === lit "GFX_BITMAP_FONT"); [discriminate H|].
    rewrite (Hlegacy name None words code); [|discriminate | exact H].
    destruct (drawMode === lit "HORIZONTAL_1BIT"); reflexivity.
Qed.

(** C9: the sanitized name has, place by place, the code units of the name
    that are in [A-Za-z0-9_] and '_' for every other one. The text that
    [generateCppCode] returns is fixed text, the same for every name, with
    the sanitized name put in unchanged at every place where an identifier
    of the asset is declared or referred to. The file that [exportCpp]
    hands over is named after the same sanitized name and holds that
    text. *)
Theorem safeName_used_throughout drawMode outputFormat data w h :
  exists (count : nat) (dataType dataFormat listing : str),
  forall name,
    let safeName := sanitize name in
    (length safeName = length name /\
     (forall i c, nth_error name i = Some c ->
        let kept :=
          (N_of_ascii "a" <= c <= N_of_ascii "z")%N \/
          (N_of_ascii "A" <= c <= N_of_ascii "Z")%N \/
          (N_of_ascii "0" <= c <= N_of_ascii "9")%N \/
          c = N_of_ascii "_" in
        (kept -> nth_error safeName i = Some c) /\
        (~ kept -> nth_error safeName i = Some (N_of_ascii "_"))) /\
     (forall c, In c safeName ->
        (N_of_ascii "a" <= c <= N_of_ascii "z")%N \/
        (N_of_ascii "A" <= c <= N_of_ascii "Z")%N \/
        (N_of_ascii "0" <= c <= N_of_ascii "9")%N \/
        c = N_of_ascii "_")) /\
    (forall code,
       generateCppCode name drawMode outputFormat data w h = Normal (VString code) ->
       code = fill safeName
                (generated_text drawMode outputFormat w h
                   count dataType dataFormat listing)) /\
    (forall file,
       exportCpp name drawMode outputFormat data w h = Normal file ->
       filename file = safeName ++ lit ".h" /\
       generateCppCode name drawMode outputFormat data w h = Normal (text file)).
Proof.
  destruct (generateCppCode_text drawMode outputFormat data w h)
    as (count & dataType & dataFormat & listing & Htext).
  exists count, dataType, dataFormat, listing. intros name. cbv zeta.
  split.
  { split; [apply sanitize_length|].
    split; [apply sanitize_units | apply sanitize_in_class]. }
  split; [apply Htext | apply exportCpp_file].
Qed.

Lemma safeName_used_throughout_witness :
  exists (count : nat) (dataType dataFormat listing : str),
    nth_error (sanitize (lit "my-sprite")) 2 = Some (N_of_ascii "_") /\
    exists code,
      generateCppCode (lit "my-sprite") (lit "VERTICAL_1BIT") (lit "ARDUINO_CODE")
        [white] 1 1 = Normal (VString code) /\
      code = fill (lit "my_sprite")
               (generated_text (lit "VERTICAL_1BIT") (lit "ARDUINO_CODE") 1 1
                  count dataType dataFormat listing).
Proof.
  destruct (safeName_used_throughout (lit "VERTICAL_1BIT") (lit "ARDUINO_CODE") [white] 1 1)
    as (count & dataType & dataFormat & listing & H).
  exists count, dataType, dataFormat, listing.
  destruct (H (lit "my-sprite")) as ((_ & Hunits & _) & Htext & _).
  split.
  - apply (Hunits 2%nat (N_of_ascii "-") eq_refl). cbv. intros [[K _]|[[K _]|[[K _]|K]]];
      try (apply K; reflexivity); discriminate K.
  - destruct (generateCppCode (lit "my-sprite") (lit "VERTICAL_1BIT") (lit "ARDUINO_CODE")
                [white] 1 1) as [[|code]|e] eqn:E; try discriminate E.
    exists code. split; [reflexivity | apply (Htext code eq_refl)].
Defined.

(** ** More on the packers *)

Lemma hasAlpha_spec p : hasAlpha p = true <-> a p > 127.
Proof. unfold hasAlpha. rewrite Z.ltb_lt. lia. Qed.

(** The horizontal packing of [pack1bitAlpha]: the layout of [pack1bit],
    the bit of a pixel being 1 exactly when its alpha exceeds 127,
    whatever its colour. *)
Theorem pack1bitAlpha_horizontal_layout pixels w h :
  length pixels = (w * h)%nat ->
  exists bytes,
    pack1bitAlpha pixels w h (lit "horizontal") = Normal bytes /\
    length bytes = (ceil_div w 8 * h)%nat /\
    forall y k, (y < h)%nat -> (k < ceil_div w 8)%nat ->
      let byte := nth (y * ceil_div w 8 + k) bytes 0 in
      0 <= byte < 256 /\
      forall j, (j < 8)%nat ->
        ((8 * k + j < w)%nat ->
         forall p, nth_error pixels (I w (8 * k + j) y) = Some p ->
                   (Z.testbit byte (7 - Z.of_nat j) = true <-> a p > 127)) /\
        ((w <= 8 * k + j)%nat -> Z.testbit byte (7 - Z.of_nat j) = false).
Proof.
  intros Hlen.
  destruct (horizontal_bytes hasAlpha pixels w h ltac:(lia)) as (bytes & E & Hl & Hbits).
  exists bytes. split; [exact E|]. split; [exact Hl|].
  intros y k Hy Hk. destruct (Hbits y k Hy Hk) as (Hrange & Hbit).
  cbv zeta. split; [exact Hrange|].
  intros j Hj. rewrite (Hbit j Hj). unfold row_bit, bit_at. split.
  - intros Hin p Hp. rewrite Hp.
    replace (8 * k + j <? w)%nat with true by (symmetry; apply Nat.ltb_lt; lia).
    apply hasAlpha_spec.
  - intros Hout.
    replace (8 * k + j <? w)%nat with false by (symmetry; apply Nat.ltb_ge; lia).
    reflexivity.
Qed.

Lemma pack1bitAlpha_horizontal_layout_witness :
  exists bytes,
    pack1bitAlpha [mkPixel 0 0 0 200; mkPixel 255 255 255 10] 2 1 (lit "horizontal")
    = Normal bytes /\
    length bytes = (ceil_div 2 8 * 1)%nat.
Proof.
  destruct (pack1bitAlpha_horizontal_layout
              [mkPixel 0 0 0 200; mkPixel 255 255 255 10] 2 1 eq_refl)
    as (bytes & E & Hl & _).
  exists bytes. split; assumption.
Defined.

(** With any other orientation [pack1bitAlpha] packs column by column, in
    pages of eight rows, bit 7 being the top row of the page. *)
Theorem pack1bitAlpha_vertical_layout pixels w h orientation :
  orientation <> lit "horizontal" ->
  length pixels = (w * h)%nat ->
  exists bytes,
    pack1bitAlpha pixels w h orientation = Normal bytes /\
    length bytes = (w * ceil_div h 8)%nat /\
    forall x page, (x < w)%nat -> (page < ceil_div h 8)%nat ->
      let byte := nth (x * ceil_div h 8 + page) bytes 0 in
      0 <= byte < 256 /\
      forall j, (j < 8)%nat ->
        ((8 * page + j < h)%nat ->
         forall p, nth_error pixels (I w x (8 * page + j)) = Some p ->
                   (Z.testbit byte (7 - Z.of_nat j) = true <-> a p > 127)) /\
        ((h <= 8 * page + j)%nat -> Z.testbit byte (7 - Z.of_nat j) = false).
Proof.
  intros Ho Hlen.
  destruct (vertical_bytes hasAlpha pixels w h ltac:(lia)) as (bytes & E & Hl & Hbits).
  exists bytes. split.
  { unfold pack1bitAlpha. rewrite (str_eqb_neq _ _ Ho). exact E. }
  split; [exact Hl|].
  intros x page Hx Hpage. destruct (Hbits x page Hx Hpage) as (Hrange & Hbit).
  cbv zeta. split; [exact Hrange|].
  intros j Hj. rewrite (Hbit j Hj). unfold column_bit, bit_at. split.
  - intros Hin p Hp. rewrite Hp.
    replace (8 * page + j <? h)%nat with true by (symmetry; apply Nat.ltb_lt; lia).
    apply hasAlpha_spec.
  - intros Hout.
    replace (8 * page + j <? h)%nat with false by (symmetry; apply Nat.ltb_ge; lia).
    reflexivity.
Qed.

Lemma pack1bitAlpha_vertical_layout_witness :
  exists bytes,
    pack1bitAlpha [mkPixel 0 0 0 200; mkPixel 255 255 255 10] 1 2 (lit "vertical")
    = Normal bytes /\
    length bytes = (1 * ceil_div 2 8)%nat.
Proof.
  destruct (pack1bitAlpha_vertical_layout
              [mkPixel 0 0 0 200; mkPixel 255 255 255 10] 1 2 (lit "vertical"))
    as (bytes & E & Hl & _); [discriminate | reflexivity |].
  exists bytes. split; assumption.
Defined.

(** Element [k] of the block of element [i]. *)
Lemma nth_error_flat_map_block {A B} (f : A -> list B) (c : nat) (l : list A) i x k :
  (forall y, length (f y) = c) ->
  nth_error l i = Some x -> (k < c)%nat ->
  nth_error (flat_map f l) (i * c + k) = nth_error (f x) k.
Proof.
  intros Hc. revert i. induction l as [|y l IH]; intros [|i] Hi Hk; try discriminate.
  - injection Hi as ->. cbn [flat_map Nat.mul Nat.add].
    apply nth_error_app1. rewrite Hc. assumption.
  - cbn [flat_map]. rewrite nth_error_app2 by (rewrite Hc; lia).
    rewrite Hc. replace (S i * c + k - c)%nat with (i * c + k)%nat by lia.
    apply IH; assumption.
Qed.

Lemma flat_map_block_length {A B} (f : A -> list B) (c : nat) (l : list A) :
  (forall y, length (f y) = c) -> length (flat_map f l) = (c * length l)%nat.
Proof.
  intros Hc. induction l as [|y l IH]; cbn [flat_map length]; [lia|].
  rewrite length_app, Hc, IH. lia.
Qed.

(** [packRGB24] returns three bytes for a pixel, red, green, blue, the
    pixels in row-major order. *)
Theorem packRGB24_layout pixels w h :
  length pixels = (w * h)%nat ->
  exists bytes,
    packRGB24 pixels w h = Normal bytes /\
    length bytes = (3 * (w * h))%nat /\
    forall x y p, (x < w)%nat -> (y < h)%nat ->
      nth_error pixels (I w x y) = Some p ->
      nth_error bytes (3 * (y * w + x)) = Some (r p) /\
      nth_error bytes (3 * (y * w + x) + 1) = Some (g p) /\
      nth_error bytes (3 * (y * w + x) + 2) = Some (b p).
Proof.
  intros Hlen. eexists. split.
  { unfold packRGB24. rewrite row_major_spec by lia.
    rewrite <- Hlen, firstn_all. reflexivity. }
  split.
  { rewrite (flat_map_block_length _ 3) by reflexivity. lia. }
  intros x y p Hx Hy Hp. unfold I in Hp.
  pose proof (nth_error_flat_map_block (fun p => [r p; g p; b p]) 3 pixels
                (y * w + x) p) as H.
  repeat split.
  - replace (3 * (y * w + x))%nat with ((y * w + x) * 3 + 0)%nat by lia.
    rewrite (H 0%nat) by (reflexivity || assumption || lia). reflexivity.
  - replace (3 * (y * w + x) + 1)%nat with ((y * w + x) * 3 + 1)%nat by lia.
    rewrite (H 1%nat) by (reflexivity || assumption || lia). reflexivity.
  - replace (3 * (y * w + x) + 2)%nat with ((y * w + x) * 3 + 2)%nat by lia.
    rewrite (H 2%nat) by (reflexivity || assumption || lia). reflexivity.
Qed.

Lemma packRGB24_layout_witness :
  exists bytes,
    packRGB24 [mkPixel 1 2 3 255; mkPixel 4 5 6 255] 2 1 = Normal bytes /\
    nth_error bytes (3 * (0 * 2 + 1) + 2) = Some 6.
Proof.
  destruct (packRGB24_layout [mkPixel 1 2 3 255; mkPixel 4 5 6 255] 2 1 eq_refl)
    as (bytes & E & _ & H).
  exists bytes. split; [exact E|].
  apply (H 1%nat 0%nat (mkPixel 4 5 6 255)); [lia | lia | reflexivity].
Defined.

(** The draw mode HORIZONTAL_RGB888_32 of [generateCppCode] packs four
    bytes for a pixel, red, green, blue, alpha, in row-major order, as
    [uint8_t] data named [pixels]. *)
Theorem rgba32_layout data w h :
  length data = (w * h)%nat ->
  exists bytes,
    pack_by_drawMode (lit "HORIZONTAL_RGB888_32") data w h
    = Normal (Some bytes, VString (lit "uint8_t"), VString (lit "pixels")) /\
    length bytes = (4 * (w * h))%nat /\
    forall x y p, (x < w)%nat -> (y < h)%nat ->
      nth_error data (I w x y) = Some p ->
      nth_error bytes (4 * (y * w + x)) = Some (r p) /\
      nth_error bytes (4 * (y * w + x) + 1) = Some (g p) /\
      nth_error bytes (4 * (y * w + x) + 2) = Some (b p) /\
      nth_error bytes (4 * (y * w + x) + 3) = Some (a p).
Proof.
  intros Hlen. eexists. split.
  { change (pack_by_drawMode (lit "HORIZONTAL_RGB888_32") data w h)
      with (bytes <- row_major (fun p => [r p; g p; b p; a p]) data w h ;;
            Normal (Some bytes, VString (lit "uint8_t"), VString (lit "pixels"))).
    rewrite row_major_spec by lia. rewrite <- Hlen, firstn_all. reflexivity. }
  split.
  { rewrite (flat_map_block_length _ 4) by reflexivity. lia. }
  intros x y p Hx Hy Hp. unfold I in Hp.
  pose proof (nth_error_flat_map_block (fun p => [r p; g p; b p; a p]) 4 data
                (y * w + x) p) as H.
  repeat split.
  - replace (4 * (y * w + x))%nat with ((y * w + x) * 4 + 0)%nat by lia.
    rewrite (H 0%nat) by (reflexivity || assumption || lia). reflexivity.
  - replace (4 * (y * w + x) + 1)%nat with ((y * w + x) * 4 + 1)%nat by lia.
    rewrite (H 1%nat) by (reflexivity || assumption || lia). reflexivity.
  - replace (4 * (y * w + x) + 2)%nat with ((y * w + x) * 4 + 2)%nat by lia.
    rewrite (H 2%nat) by (reflexivity || assumption || lia). reflexivity.
  - replace (4 * (y * w + x) + 3)%nat with ((y * w + x) * 4 + 3)%nat by lia.
    rewrite (H 3%nat) by (reflexivity || assumption || lia). reflexivity.
Qed.

Lemma rgba32_layout_witness :
  exists bytes,
    pack_by_drawMode (lit "HORIZONTAL_RGB888_32") [mkPixel 1 2 3 4; mkPixel 5 6 7 8] 1 2
    = Normal (Some bytes, VString (lit "uint8_t"), VString (lit "pixels")) /\
    nth_error bytes (4 * (1 * 1 + 0) + 3) = Some 8.
Proof.
  destruct (rgba32_layout [mkPixel 1 2 3 4; mkPixel 5 6 7 8] 1 2 eq_refl)
    as (bytes & E & _ & H).
  exists bytes. split; [exact E|].
  apply (H 0%nat 1%nat (mkPixel 5 6 7 8)); [lia | lia | reflexivity].
Defined.

(** ** More on the colour conversions *)

Lemma and_mask x n :
  0 <= n <= 30 -> JS.and x (Z.ones n) = ToInt32 x mod 2 ^ n.
Proof.
  intros Hn. unfold JS.and.
  assert (Hones : 0 <= Z.ones n < 2 ^ 31).
  { rewrite Z.ones_equiv.
    assert (0 < 2 ^ n <= 2 ^ 30)
      by (split; [apply Z.pow_pos_nonneg; lia | apply Z.pow_le_mono_r; lia]).
    lia. }
  rewrite (ToInt32_small (Z.ones n)) by lia.
  apply Z.land_ones. lia.
Qed.

Lemma and_mask_range x n :
  0 <= n <= 30 -> 0 <= JS.and x (Z.ones n) < 2 ^ n.
Proof.
  intros Hn. rewrite and_mask by assumption.
  apply Z.mod_pos_bound. apply Z.pow_pos_nonneg; lia.
Qed.

(** [rgbTo565] returns a 16-bit value and [rgbTo332] an 8-bit value for
    all integers, in the 8-bit range or not: the masks see to it. *)
Theorem conversions_fit r g b :
  0 <= rgbTo565 r g b <= 65535 /\ 0 <= rgbTo332 r g b <= 255.
Proof.
  split.
  - unfold rgbTo565.
    pose proof (and_mask_range (JS.shr r 3) 5 ltac:(lia)) as HR.
    pose proof (and_mask_range (JS.shr g 2) 6 ltac:(lia)) as HG.
    pose proof (and_mask_range (JS.shr b 3) 5 ltac:(lia)) as HB.
    change (Z.ones 5) with 0x1f in *. change (Z.ones 6) with 0x3f in *.
    change (2 ^ 5) with 32 in *. change (2 ^ 6) with 64 in *.
    set (R := JS.and (JS.shr r 3) 0x1f) in *.
    set (G := JS.and (JS.shr g 2) 0x3f) in *.
    set (B := JS.and (JS.shr b 3) 0x1f) in *.
    rewrite !shl_small by lia.
    assert (0 <= Z.lor (R * 2 ^ 11) (G * 2 ^ 5) < 2 ^ 16) by (apply lor_range; lia).
    rewrite (or_small (R * 2 ^ 11) (G * 2 ^ 5)) by lia.
    rewrite or_small by lia.
    assert (0 <= Z.lor (Z.lor (R * 2 ^ 11) (G * 2 ^ 5)) B < 2 ^ 16)
      by (apply lor_range; lia).
    lia.
  - unfold rgbTo332.
    pose proof (and_mask_range (JS.shr r 5) 3 ltac:(lia)) as HR.
    pose proof (and_mask_range (JS.shr g 5) 3 ltac:(lia)) as HG.
    pose proof (and_mask_range (JS.shr b 6) 2 ltac:(lia)) as HB.
    change (Z.ones 3) with 0x07 in *. change (Z.ones 2) with 0x03 in *.
    change (2 ^ 3) with 8 in *. change (2 ^ 2) with 4 in *.
    set (R := JS.and (JS.shr r 5) 0x07) in *.
    set (G := JS.and (JS.shr g 5) 0x07) in *.
    set (B := JS.and (JS.shr b 6) 0x03) in *.
    rewrite !shl_small by lia.
    assert (0 <= Z.lor (R * 2 ^ 5) (G * 2 ^ 2) < 2 ^ 8) by (apply lor_range; lia).
    rewrite (or_small (R * 2 ^ 5) (G * 2 ^ 2)) by lia.
    rewrite or_small by lia.
    assert (0 <= Z.lor (Z.lor (R * 2 ^ 5) (G * 2 ^ 2)) B < 2 ^ 8)
      by (apply lor_range; lia).
    lia.
Qed.

(** The word of [rgbTo565] as a sum: the three fields do not overlap. *)
Lemma rgbTo565_sum r g b :
  channel r -> channel g -> channel b ->
  rgbTo565 r g b = 2048 * (r / 8) + 32 * (g / 4) + b / 8.
Proof.
  intros Hr Hg Hb. rewrite rgbTo565_channels by assumption.
  pose proof (shiftr_channel r 3 Hr ltac:(lia)) as HR.
  pose proof (shiftr_channel g 2 Hg ltac:(lia)) as HG.
  pose proof (shiftr_channel b 3 Hb ltac:(lia)) as HB.
  change (2 ^ (8 - 3)) with 32 in *. change (2 ^ (8 - 2)) with 64 in *.
  rewrite !Z.shiftl_mul_pow2 by lia.
  rewrite !Z.shiftr_div_pow2 in * by lia.
  change (2 ^ 3) with 8 in *. change (2 ^ 2) with 4 in *.
  rewrite (lor_disjoint (r / 8) (g / 4 * 2 ^ 5) 11) by lia.
  replace (r / 8 * 2 ^ 11 + g / 4 * 2 ^ 5)
    with ((r / 8 * 64 + g / 4) * 2 ^ 5) by lia.
  rewrite lor_disjoint by lia. lia.
Qed.

(** Reading the three fields back from the word of [rgbTo565] gives each
    channel without its low bits: red and blue to within 7, green to
    within 3. *)
Theorem rgbTo565_fields r g b :
  channel r -> channel g -> channel b ->
  let word := rgbTo565 r g b in
  let R := Z.shiftr word 11 in
  let G := Z.land (Z.shiftr word 5) 0x3f in
  let B := Z.land word 0x1f in
  (R = r / 8 /\ G = g / 4 /\ B = b / 8) /\
  (0 <= r - 8 * R <= 7 /\ 0 <= g - 4 * G <= 3 /\ 0 <= b - 8 * B <= 7).
Proof.
  intros Hr Hg Hb. cbv zeta. rewrite rgbTo565_sum by assumption.
  unfold channel in *.
  rewrite !Z.shiftr_div_pow2 by lia.
  change 0x3f with (Z.ones 6). change 0x1f with (Z.ones 5).
  rewrite !Z.land_ones by lia.
  change (2 ^ 11) with 2048. change (2 ^ 5) with 32. change (2 ^ 6) with 64.
  assert (E1 : (2048 * (r / 8) + 32 * (g / 4) + b / 8) / 2048 = r / 8) by lia.
  assert (E2 : ((2048 * (r / 8) + 32 * (g / 4) + b / 8) / 32) mod 64 = g / 4) by lia.
  assert (E3 : (2048 * (r / 8) + 32 * (g / 4) + b / 8) mod 32 = b / 8) by lia.
  rewrite E1, E2, E3. repeat split; lia.
Qed.

Lemma rgbTo565_fields_witness :
  Z.shiftr (rgbTo565 200 100 50) 11 = 200 / 8 /\
  0 <= 200 - 8 * Z.shiftr (rgbTo565 200 100 50) 11 <= 7.
Proof.
  destruct (rgbTo565_fields 200 100 50) as ((E & _) & (H & _));
    [unfold channel; lia | unfold channel; lia | unfold channel; lia |].
  split; assumption.
Defined.

Lemma rgbTo332_channels r g b :
  channel r -> channel g -> channel b ->
  rgbTo332 r g b = 32 * (r / 32) + 4 * (g / 32) + b / 64.
Proof.
  intros Hr Hg Hb. unfold rgbTo332.
  pose proof (shiftr_channel r 5 Hr ltac:(lia)) as HR.
  pose proof (shiftr_channel g 5 Hg ltac:(lia)) as HG.
  pose proof (shiftr_channel b 6 Hb ltac:(lia)) as HB.
  change (2 ^ (8 - 5)) with 8 in *. change (2 ^ (8 - 6)) with 4 in *.
  assert (ER : JS.and (JS.shr r 5) 0x07 = Z.shiftr r 5).
  { rewrite shr_small by (unfold channel in Hr; lia).
    rewrite <- Z.shiftr_div_pow2 by lia.
    rewrite and_small by lia. apply (land_low_bits _ 3); lia. }
  assert (EG : JS.and (JS.shr g 5) 0x07 = Z.shiftr g 5).
  { rewrite shr_small by (unfold channel in Hg; lia).
    rewrite <- Z.shiftr_div_pow2 by lia.
    rewrite and_small by lia. apply (land_low_bits _ 3); lia. }
  assert (EB : JS.and (JS.shr b 6) 0x03 = Z.shiftr b 6).
  { rewrite shr_small by (unfold channel in Hb; lia).
    rewrite <- Z.shiftr_div_pow2 by lia.
    rewrite and_small by lia. apply (land_low_bits _ 2); lia. }
  rewrite ER, EG, EB. rewrite !shl_small by lia.
  rewrite !Z.shiftr_div_pow2 in * by lia.
  change (2 ^ 5) with 32 in *. change (2 ^ 6) with 64 in *. change (2 ^ 2) with 4 in *.
  replace (r / 32 * 32) with (r / 32 * 2 ^ 5) by lia.
  replace (g / 32 * 4) with (g / 32 * 2 ^ 2) by lia.
  rewrite (or_small (r / 32 * 2 ^ 5)) by lia.
  rewrite (lor_disjoint (r / 32) (g / 32 * 2 ^ 2) 5) by lia.
  rewrite or_small by lia.
  replace (r / 32 * 2 ^ 5 + g / 32 * 2 ^ 2)
    with ((r / 32 * 8 + g / 32) * 2 ^ 2) by lia.
  rewrite lor_disjoint by lia. lia.
Qed.

(** [packRGB332] returns one byte for a pixel, in row-major order: the
    three high bits of red, the three high bits of green and the two high
    bits of blue, from bit 7 down. *)
Theorem packRGB332_conversion pixels w h :
  length pixels = (w * h)%nat ->
  (forall p, In p pixels -> wf_pixel p) ->
  exists bytes,
    packRGB332 pixels w h = Normal bytes /\
    length bytes = (w * h)%nat /\
    forall x y p, (x < w)%nat -> (y < h)%nat ->
      nth_error pixels (I w x y) = Some p ->
      exists byte,
        nth_error bytes (y * w + x) = Some byte /\
        0 <= byte <= 255 /\
        Z.shiftr byte 5 = r p / 32 /\
        Z.land (Z.shiftr byte 2) 7 = g p / 32 /\
        Z.land byte 3 = b p / 64.
Proof.
  intros Hlen Hwf. eexists. split.
  { unfold packRGB332. apply row_major_map. assumption. }
  split; [rewrite length_map; assumption|].
  intros x y p Hx Hy Hp. unfold I in Hp.
  exists (rgbTo332 (r p) (g p) (b p)). split.
  { rewrite nth_error_map, Hp. reflexivity. }
  destruct (Hwf p (nth_error_In _ _ Hp)) as (Hr & Hg & Hb & _).
  rewrite rgbTo332_channels by assumption. unfold channel in *.
  assert (L7 : forall z, Z.land z 7 = z mod 8)
    by (intros z; apply (Z.land_ones z 3); lia).
  assert (L3 : forall z, Z.land z 3 = z mod 4)
    by (intros z; apply (Z.land_ones z 2); lia).
  rewrite L7, L3, !Z.shiftr_div_pow2 by lia.
  change (2 ^ 5) with 32. change (2 ^ 2) with 4.
  repeat split; lia.
Qed.

Lemma packRGB332_conversion_witness :
  exists bytes,
    packRGB332 [mkPixel 255 0 0 255; mkPixel 0 0 255 255] 2 1 = Normal bytes /\
    length bytes = (2 * 1)%nat.
Proof.
  destruct (packRGB332_conversion [mkPixel 255 0 0 255; mkPixel 0 0 255 255] 2 1 eq_refl)
    as (bytes & E & Hl & _).
  - intros p [<-|[<-|[]]]; unfold wf_pixel, channel; cbn; lia.
  - exists bytes. split; assumption.
Defined.

(** ** More on code generation *)

Lemma upto_In n z v : z <= v < z + Z.of_nat n -> In v (upto n z).
Proof.
  revert z. induction n as [|k IH]; intros z H; [lia|].
  cbn [upto]. destruct (Z.eq_dec v z) as [->|Hne]; [left; reflexivity|].
  right. apply IH. lia.
Qed.

(** The literals of the listings: [0x] and two upper-case digits for a
    byte, four for a 16-bit word ([hex565] and the [formatByte] of the
    emitters), and the digits read back give the element. *)
Theorem literals_read_back :
  (forall b, 0 <= b <= 255 ->
     length (hex2 b) = 4%nat /\ literal_value (hex2 b) = Some b) /\
  (forall v, 0 <= v <= 65535 ->
     length (hex565 v) = 6%nat /\ literal_value (hex565 v) = Some v) /\
  (forall dataType v,
     0 <= v <= (if value_is dataType (lit "uint16_t") then 65535 else 255) ->
     length (formatByte dataType v)
     = (if value_is dataType (lit "uint16_t") then 6 else 4)%nat /\
     literal_value (formatByte dataType v) = Some v).
Proof.
  assert (H2 : forallb (fun b => (length (hex2 b) =? 4)%nat
                  && match literal_value (hex2 b) with
                     | Some u => u =? b
                     | None => false
                     end) (upto 256 0) = true)
    by (vm_compute; reflexivity).
  assert (H4 : forallb (fun v => (length (hex565 v) =? 6)%nat
                  && match literal_value (hex565 v) with
                     | Some u => u =? v
                     | None => false
                     end) (upto (256 * 256) 0) = true)
    by (vm_compute; reflexivity).
  rewrite forallb_forall in H2, H4.
  assert (B : forall b, 0 <= b <= 255 ->
            length (hex2 b) = 4%nat /\ literal_value (hex2 b) = Some b).
  { intros b Hb. specialize (H2 b (upto_In 256 0 b ltac:(lia))).
    apply andb_true_iff in H2. destruct H2 as (Hl & Hv).
    apply Nat.eqb_eq in Hl.
    destruct (literal_value (hex2 b)) as [u|]; [|discriminate Hv].
    apply Z.eqb_eq in Hv. subst u. split; [exact Hl | reflexivity]. }
  assert (W : forall v, 0 <= v <= 65535 ->
            length (hex565 v) = 6%nat /\ literal_value (hex565 v) = Some v).
  { intros v Hv. specialize (H4 v (upto_In (256 * 256) 0 v ltac:(lia))).
    apply andb_true_iff in H4. destruct H4 as (Hl & Hu).
    apply Nat.eqb_eq in Hl.
    destruct (literal_value (hex565 v)) as [u|]; [|discriminate Hu].
    apply Z.eqb_eq in Hu. subst u. split; [exact Hl | reflexivity]. }
  split; [exact B|]. split; [exact W|].
  intros dataType v Hv. unfold formatByte.
  destruct (value_is dataType (lit "uint16_t")); [apply (W v Hv) | apply (B v Hv)].
Qed.

Lemma literals_read_back_witness :
  length (hex2 10) = 4%nat /\ literal_value (hex2 10) = Some 10.
Proof.
  destruct literals_read_back as (H & _). apply (H 10). lia.
Defined.

Ltac decide_selectors :=
  repeat match goal with
  | |- context [?s === ?t] =>
      let v := eval vm_compute in (s === t) in
      change (s === t) with v; cbv iota
  end.

Lemma pack_by_drawMode_recognized drawMode data w h :
  In drawMode [lit "HORIZONTAL_1BIT"; lit "VERTICAL_1BIT"; lit "HORIZONTAL_ALPHA";
               lit "HORIZONTAL_RGB565"; lit "HORIZONTAL_RGB888_24";
               lit "HORIZONTAL_RGB888_32"] ->
  ((length data = (w * h)%nat ->
    exists bytes dataType dataFormat,
      pack_by_drawMode drawMode data w h
      = Normal (Some bytes, VString dataType, VString dataFormat)) /\
   ((length data < w * h)%nat ->
    pack_by_drawMode drawMode data w h = Throw TypeError)).
Proof.
  intros Hin. cbn [In] in Hin.
  assert (Hpack : forall pack, In pack packers ->
            (length data = (w * h)%nat -> exists out, pack data w h = Normal out) /\
            ((length data < w * h)%nat -> pack data w h = Throw TypeError)).
  { intros pack Hp. destruct (packers_read_grid pack w h Hp) as (Hgrid & Hnormal).
    split; [intros E; apply Hnormal; lia|].
    intros Hlt. apply (reads_grid_short w h _ data Hgrid Hlt). }
  assert (Hrgba : (length data = (w * h)%nat ->
             exists out, row_major (fun p => [r p; g p; b p; a p]) data w h = Normal out) /\
            ((length data < w * h)%nat ->
             row_major (fun p => [r p; g p; b p; a p]) data w h = Throw TypeError)).
  { split.
    - intros E. rewrite row_major_spec by lia. eauto.
    - intros Hlt. apply (reads_grid_short w h _ data (row_major_reads_grid w h _) Hlt). }
  unfold pack_by_drawMode.
  destruct Hin as [<-|[<-|[<-|[<-|[<-|[<-|[]]]]]]]; decide_selectors.
  - destruct (Hpack (fun pixels w h => pack1bit pixels w h (lit "horizontal")))
      as (Hn & Ht); [cbn; auto 10|].
    split; intros Hl; [destruct (Hn Hl) as (out & ->) | rewrite (Ht Hl)]; cbn [bind]; eauto.
  - destruct (Hpack (fun pixels w h => pack1bit pixels w h (lit "vertical")))
      as (Hn & Ht); [cbn; auto 10|].
    split; intros Hl; [destruct (Hn Hl) as (out & ->) | rewrite (Ht Hl)]; cbn [bind]; eauto.
  - destruct (Hpack (fun pixels w h => pack1bitAlpha pixels w h (lit "horizontal")))
      as (Hn & Ht); [cbn; auto 10|].
    split; intros Hl; [destruct (Hn Hl) as (out & ->) | rewrite (Ht Hl)]; cbn [bind]; eauto.
  - destruct (Hpack packRGB565) as (Hn & Ht); [cbn; auto 10|].
    split; intros Hl; [destruct (Hn Hl) as (out & ->) | rewrite (Ht Hl)]; cbn [bind]; eauto.
  - destruct (Hpack packRGB24) as (Hn & Ht); [cbn; auto 10|].
    split; intros Hl; [destruct (Hn Hl) as (out & ->) | rewrite (Ht Hl)]; cbn [bind]; eauto.
  - destruct Hrgba as (Hn & Ht).
    split; intros Hl; [destruct (Hn Hl) as (out & ->) | rewrite (Ht Hl)]; cbn [bind]; eauto.
Qed.

Lemma emitters_return bytes safeName w h dataType dataFormat drawMode outputFormat :
  In outputFormat [lit "PLAIN_BYTES"; lit "ARDUINO_CODE"; lit "ARDUINO_SINGLE_BITMAP";
                   lit "GFX_BITMAP_FONT"] ->
  exists code,
    (if outputFormat === lit "PLAIN_BYTES" then
       generatePlainBytes (Some bytes) safeName w h dataType
     else if outputFormat === lit "ARDUINO_CODE" then
       generateArduinoCode (Some bytes) safeName w h dataType dataFormat drawMode
     else if outputFormat === lit "ARDUINO_SINGLE_BITMAP" then
       generateArduinoSingleBitmap (Some bytes) safeName w h dataType dataFormat
     else if outputFormat === lit "GFX_BITMAP_FONT" then
       generateGFXBitmapFont (Some bytes) safeName w h
     else legacy_fallback drawMode [] w h safeName (Some bytes))
    = Normal (VString code).
Proof.
  intros Hin. cbn [In] in Hin.
  destruct Hin as [<-|[<-|[<-|[<-|[]]]]]; decide_selectors.
  - unfold generatePlainBytes. cbn [receiver bind]. eauto.
  - unfold generateArduinoCode. cbn [receiver bind].
    destruct (includes drawMode (lit "1BIT")); [eauto|].
    destruct (includes drawMode (lit "RGB565")); eauto.
  - unfold generateArduinoSingleBitmap. cbn [receiver bind]. eauto.
  - unfold generateGFXBitmapFont. cbn [receiver bind]. eauto.
Qed.

(** For each of the six draw modes and each of the four output formats,
    on a canvas of [w * h] pixels, code generation returns a text: it does
    not throw and does not return [undefined]. *)
Theorem generateCppCode_recognized name drawMode outputFormat data w h :
  In drawMode [lit "HORIZONTAL_1BIT"; lit "VERTICAL_1BIT"; lit "HORIZONTAL_ALPHA";
               lit "HORIZONTAL_RGB565"; lit "HORIZONTAL_RGB888_24";
               lit "HORIZONTAL_RGB888_32"] ->
  In outputFormat [lit "PLAIN_BYTES"; lit "ARDUINO_CODE"; lit "ARDUINO_SINGLE_BITMAP";
                   lit "GFX_BITMAP_FONT"] ->
  length data = (w * h)%nat ->
  exists code,
    generateCppCode name drawMode outputFormat data w h = Normal (VString code).
Proof.
  intros Hdm Hof Hlen.
  destruct (pack_by_drawMode_recognized drawMode data w h Hdm) as (Hn & _).
  destruct (Hn Hlen) as (bytes & dataType & dataFormat & E).
  destruct (emitters_return bytes (sanitize name) w h (VString dataType)
              (VString dataFormat) drawMode outputFormat Hof) as (code & Hc).
  exists code. unfold generateCppCode. cbv zeta. rewrite E. cbn [bind].
  cbn [In] in Hof.
  destruct Hof as [<-|[<-|[<-|[<-|[]]]]]; revert Hc; decide_selectors;
    intros Hc; exact Hc.
Qed.

Lemma generateCppCode_recognized_witness :
  exists code,
    generateCppCode (lit "sprite") (lit "HORIZONTAL_ALPHA") (lit "GFX_BITMAP_FONT")
      [white; black] 2 1 = Normal (VString code).
Proof.
  apply generateCppCode_recognized; [cbn; auto 10 | cbn; auto 10 | reflexivity].
Defined.

Lemma drawMode_known_dec (s : str) :
  let six := [lit "HORIZONTAL_1BIT"; lit "VERTICAL_1BIT"; lit "HORIZONTAL_ALPHA";
              lit "HORIZONTAL_RGB565"; lit "HORIZONTAL_RGB888_24";
              lit "HORIZONTAL_RGB888_32"] in
  In s six \/ ~ In s six.
Proof.
  cbv zeta. destruct (in_dec (list_eq_dec N.eq_dec) s
    [lit "HORIZONTAL_1BIT"; lit "VERTICAL_1BIT"; lit "HORIZONTAL_ALPHA";
     lit "HORIZONTAL_RGB565"; lit "HORIZONTAL_RGB888_24";
     lit "HORIZONTAL_RGB888_32"]); auto.
Qed.

(** How code generation fails. A draw mode outside the six leaves the
    data undefined, and each of the four emitters then throws a TypeError;
    a canvas shorter than [w * h] makes the packer of each of the six draw
    modes throw a TypeError, whatever the output format; and with an output
    format outside the four, every draw mode but HORIZONTAL_1BIT and
    HORIZONTAL_RGB565 ends in the ReferenceError of the undeclared
    [mode]. *)
Theorem generateCppCode_failures name drawMode outputFormat data w h :
  let known_drawMode :=
    In drawMode [lit "HORIZONTAL_1BIT"; lit "VERTICAL_1BIT"; lit "HORIZONTAL_ALPHA";
                 lit "HORIZONTAL_RGB565"; lit "HORIZONTAL_RGB888_24";
                 lit "HORIZONTAL_RGB888_32"] in
  let known_outputFormat :=
    In outputFormat [lit "PLAIN_BYTES"; lit "ARDUINO_CODE";
                     lit "ARDUINO_SINGLE_BITMAP"; lit "GFX_BITMAP_FONT"] in
  (~ known_drawMode -> known_outputFormat ->
   generateCppCode name drawMode outputFormat data w h = Throw TypeError) /\
  (known_drawMode -> (length data < w * h)%nat ->
   generateCppCode name drawMode outputFormat data w h = Throw TypeError) /\
  (~ known_outputFormat ->
   drawMode <> lit "HORIZONTAL_1BIT" -> drawMode <> lit "HORIZONTAL_RGB565" ->
   (known_drawMode -> length data = (w * h)%nat) ->
   generateCppCode name drawMode outputFormat data w h = Throw ReferenceError).
Proof.
  cbv zeta. split; [|split].
  - intros Hdm Hof. cbn [In] in Hdm.
    assert (E : pack_by_drawMode drawMode data w h = Normal (None, VUndefined, VUndefined)).
    { unfold pack_by_drawMode.
      rewrite !str_eqb_neq by (intros ->; apply Hdm; auto 10). reflexivity. }
    unfold generateCppCode. cbv zeta. rewrite E. cbn [bind]. cbn [In] in Hof.
    destruct Hof as [<-|[<-|[<-|[<-|[]]]]]; decide_selectors; reflexivity.
  - intros Hdm Hlt.
    destruct (pack_by_drawMode_recognized drawMode data w h Hdm) as (_ & Ht).
    unfold generateCppCode. cbv zeta. rewrite (Ht Hlt). reflexivity.
  - intros Hof H1 H2 Hdata. cbn [In] in Hof.
    assert (E : exists packed, pack_by_drawMode drawMode data w h = Normal packed).
    { destruct (drawMode_known_dec drawMode) as [Hin|Hout].
      - destruct (pack_by_drawMode_recognized drawMode data w h Hin) as (Hn & _).
        destruct (Hn (Hdata Hin)) as (bytes & dt & df & E). eauto.
      - exists (None, VUndefined, VUndefined). unfold pack_by_drawMode.
        cbn [In] in Hout.
        rewrite !str_eqb_neq by (intros ->; apply Hout; auto 10). reflexivity. }
    destruct E as ([[bytes dt] df] & E).
    unfold generateCppCode. cbv zeta. rewrite E. cbn [bind].
    rewrite !str_eqb_neq by (intros ->; apply Hof; auto 10).
    unfold legacy_fallback, mode.
    rewrite (str_eqb_neq _ _ H1), (str_eqb_neq _ _ H2). reflexivity.
Qed.

Lemma generateCppCode_failures_witness :
  generateCppCode (lit "sprite") (lit "GRAY4") (lit "PLAIN_BYTES") [white] 1 1
  = Throw TypeError /\
  generateCppCode (lit "sprite") (lit "VERTICAL_1BIT") (lit "ARDUINO_CODE") [white] 2 1
  = Throw TypeError /\
  generateCppCode (lit "sprite") (lit "VERTICAL_1BIT") (lit "HEADER") [white] 1 1
  = Throw ReferenceError.
Proof.
  destruct (generateCppCode_failures (lit "sprite") (lit "GRAY4") (lit "PLAIN_BYTES")
              [white] 1 1) as (H1 & _ & _).
  destruct (generateCppCode_failures (lit "sprite") (lit "VERTICAL_1BIT")
              (lit "ARDUINO_CODE") [white] 2 1) as (_ & H2 & _).
  destruct (generateCppCode_failures (lit "sprite") (lit "VERTICAL_1BIT") (lit "HEADER")
              [white] 1 1) as (_ & _ & H3).
  split; [|split].
  - apply H1; [|cbn; auto 10].
    cbn [In]. intros H.
    repeat (destruct H as [H|H]; [discriminate H|]). exact H.
  - apply H2; [cbn; auto 10 | cbn; lia].
  - apply H3.
    + cbn [In]. intros H.
      repeat (destruct H as [H|H]; [discriminate H|]). exact H.
    + discriminate.
    + discriminate.
    + reflexivity.
Defined.

(** ** The editor *)

(** The width and the height set from the size inputs are integers from 1
    to 256 whatever was typed (nothing, zero, a negative number, a number
    too large for a double), and a number from 1 to 256 is taken as it
    is. *)
Theorem size_onChange_range parsed :
  exists v,
    size_onChange parsed = Fin v /\ 1 <= v <= 256 /\
    (forall n, parsed = Fin n -> 1 <= n <= 256 -> v = n).
Proof.
  unfold size_onChange, clamp.
  destruct parsed as [z| | |]; cbn [or_1].
  - destruct (Z.eq_dec z 0) as [->|Hz].
    + exists 1. cbn. repeat split; try lia. intros n [= <-]. lia.
    + assert (E : or_1 (Fin z) = Fin z) by (destruct z; [contradiction| |]; reflexivity).
      cbn [or_1] in E. rewrite E. cbn [Math_min Math_max].
      exists (Z.max 1 (Z.min 256 z)). repeat split; try lia.
      intros n [= <-] Hn. lia.
  - exists 256. cbn. repeat split; try lia. discriminate.
  - exists 1. cbn. repeat split; try lia. discriminate.
  - exists 1. cbn. repeat split; try lia. discriminate.
Qed.

Lemma size_onChange_range_witness :
  exists v, size_onChange (Fin 64) = Fin v /\ 1 <= v <= 256 /\ v = 64.
Proof.
  destruct (size_onChange_range (Fin 64)) as (v & E & B & H).
  exists v. split; [exact E|]. split; [exact B|]. apply H; [reflexivity | lia].
Defined.

(** On 8-bit channels [rgbaToHex] returns [#] and six lower-case
    hexadecimal digits, two for each of red, green and blue, which read
    back as the channels; the alpha channel is left out. *)
Theorem rgbaToHex_reads_back p :
  channel (r p) -> channel (g p) -> channel (b p) ->
  length (rgbaToHex p) = 7%nat /\
  color_value (rgbaToHex p) = Some (r p, g p, b p).
Proof.
  assert (H : forallb (fun v =>
                match padStart0 2 (toString16 v) with
                | [d1; d0] =>
                    match color_digit d1, color_digit d0 with
                    | Some h, Some l => 16 * h + l =? v
                    | _, _ => false
                    end
                | _ => false
                end) (upto 256 0) = true) by (vm_compute; reflexivity).
  rewrite forallb_forall in H.
  assert (T : forall v, channel v ->
            exists d1 d0 h l, padStart0 2 (toString16 v) = [d1; d0] /\
              color_digit d1 = Some h /\ color_digit d0 = Some l /\ 16 * h + l = v).
  { intros v Hv. specialize (H v (upto_In 256 0 v ltac:(unfold channel in Hv; lia))).
    destruct (padStart0 2 (toString16 v)) as [|d1 [|d0 [|]]]; try discriminate H.
    destruct (color_digit d1) as [hh|] eqn:E1; [|discriminate H].
    destruct (color_digit d0) as [ll|] eqn:E0; [|discriminate H].
    apply Z.eqb_eq in H. exists d1, d0, hh, ll. repeat split; assumption || reflexivity. }
  intros Hr Hg Hb. unfold rgbaToHex, template.
  destruct (T _ Hr) as (r1 & r0 & rh & rl & -> & Er1 & Er0 & Er).
  destruct (T _ Hg) as (g1 & g0 & gh & gl & -> & Eg1 & Eg0 & Eg).
  destruct (T _ Hb) as (b1 & b0 & bh & bl & -> & Eb1 & Eb0 & Eb).
  split; [reflexivity|].
  cbn [concat app lit]. unfold color_value.
  change (lit "#") with [N_of_ascii "#"]. cbn [app].
  rewrite N.eqb_refl, Er1, Er0, Eg1, Eg0, Eb1, Eb0, Er, Eg, Eb. reflexivity.
Qed.

Lemma rgbaToHex_reads_back_witness :
  length (rgbaToHex white) = 7%nat /\
  color_value (rgbaToHex white) = Some (255, 255, 255).
Proof.
  apply (rgbaToHex_reads_back white); unfold channel; cbn; lia.
Defined.

Lemma pixel_at_map (f : pixel -> pixel) pixels i :
  pixel_at (map f pixels) i = (p <- pixel_at pixels i ;; Normal (f p)).
Proof.
  unfold pixel_at. rewrite nth_error_map.
  destruct (nth_error pixels i); reflexivity.
Qed.

Lemma horizontal_map on (f : pixel -> pixel) pixels w h bytes :
  horizontal on (map f pixels) w h bytes
  = horizontal (fun p => on (f p)) pixels w h bytes.
Proof.
  unfold horizontal. apply for_range_ext. intros y out _.
  unfold horizontal_row. f_equal. apply for_range_ext. intros x [[bs bit] cur] _.
  unfold horizontal_pixel. rewrite pixel_at_map.
  destruct (pixel_at pixels (I w x y)); reflexivity.
Qed.

Lemma vertical_map on (f : pixel -> pixel) pixels w h bytes :
  vertical on (map f pixels) w h bytes
  = vertical (fun p => on (f p)) pixels w h bytes.
Proof.
  unfold vertical. apply for_range_ext. intros x out _.
  unfold vertical_column. apply for_range_ext. intros page out' _.
  unfold vertical_page. f_equal. apply for_down_ext. intros bit cur _.
  unfold vertical_bit. destruct (_ <? h)%nat; [|reflexivity].
  rewrite pixel_at_map. destruct (pixel_at pixels _); reflexivity.
Qed.

Lemma horizontal_on_ext on on' pixels w h bytes :
  (forall p, on p = on' p) ->
  horizontal on pixels w h bytes = horizontal on' pixels w h bytes.
Proof.
  intros E. unfold horizontal. apply for_range_ext. intros y out _.
  unfold horizontal_row. f_equal. apply for_range_ext. intros x [[bs bit] cur] _.
  unfold horizontal_pixel. destruct (pixel_at pixels (I w x y)); [|reflexivity].
  cbn [bind]. rewrite E. reflexivity.
Qed.

Lemma vertical_on_ext on on' pixels w h bytes :
  (forall p, on p = on' p) ->
  vertical on pixels w h bytes = vertical on' pixels w h bytes.
Proof.
  intros E. unfold vertical. apply for_range_ext. intros x out _.
  unfold vertical_column. apply for_range_ext. intros page out' _.
  unfold vertical_page. f_equal. apply for_down_ext. intros bit cur _.
  unfold vertical_bit. destruct (_ <? h)%nat; [|reflexivity].
  destruct (pixel_at pixels _); [|reflexivity]. cbn [bind]. rewrite E. reflexivity.
Qed.

(** An image imported in a 1-bit draw mode is exported as the bitmap of
    its bright pixels: the bit of a pixel is 1 exactly when its luma
    [0.2126 r + 0.7152 g + 0.0722 b] is above 127, not when the sum of
    its channels is above 382.5, in the layout of the draw mode. *)
Theorem import_1bit_exports_luma drawMode out w h :
  length out = (w * h)%nat ->
  let bright p := (127 <? import_luma p)%float in
  (drawMode = lit "HORIZONTAL_1BIT" ->
   pack_by_drawMode drawMode (import_threshold drawMode out) w h
   = Normal (Some (flat_map (row_bytes bright out w) (seq 0 h)),
             VString (lit "uint8_t"), VString (lit "bits"))) /\
  (drawMode = lit "VERTICAL_1BIT" ->
   pack_by_drawMode drawMode (import_threshold drawMode out) w h
   = Normal (Some (flat_map (column_bytes bright out w h) (seq 0 w)),
             VString (lit "uint8_t"), VString (lit "bits"))).
Proof.
  intros Hlen bright.
  assert (E : forall p, lighter (if bright p then white else black) = bright p)
    by (intros p; destruct (bright p); reflexivity).
  split; intros ->.
  - unfold pack_by_drawMode, import_threshold, pack1bit.
    decide_selectors.
    change (includes (lit "HORIZONTAL_1BIT") (lit "1BIT")) with true. cbn [orb].
    rewrite horizontal_map.
    rewrite (horizontal_on_ext _ bright) by exact E.
    rewrite horizontal_spec by lia. reflexivity.
  - unfold pack_by_drawMode, import_threshold, pack1bit.
    decide_selectors.
    change (includes (lit "VERTICAL_1BIT") (lit "1BIT")) with true. cbn [orb].
    rewrite vertical_map.
    rewrite (vertical_on_ext _ bright) by exact E.
    rewrite vertical_spec by lia. reflexivity.
Qed.

Lemma import_1bit_exports_luma_witness :
  pack_by_drawMode (lit "HORIZONTAL_1BIT")
    (import_threshold (lit "HORIZONTAL_1BIT") [mkPixel 0 255 0 255]) 1 1
  = Normal (Some [128], VString (lit "uint8_t"), VString (lit "bits")).
Proof.
  destruct (import_1bit_exports_luma (lit "HORIZONTAL_1BIT") [mkPixel 0 255 0 255] 1 1)
    as (H & _); [reflexivity|].
  apply H. reflexivity.
Defined.

(** An image imported in the draw mode HORIZONTAL_ALPHA is lost: the
    import replaces every pixel by an opaque white or black one, and the
    alpha map exported is that of a canvas of opaque pixels, whatever the
    image was. *)
Theorem import_alpha_exports_opaque out w h :
  pack_by_drawMode (lit "HORIZONTAL_ALPHA")
    (import_threshold (lit "HORIZONTAL_ALPHA") out) w h
  = pack_by_drawMode (lit "HORIZONTAL_ALPHA") (repeat white (length out)) w h.
Proof.
  unfold pack_by_drawMode, import_threshold, pack1bitAlpha.
  decide_selectors.
  change (includes (lit "HORIZONTAL_ALPHA") (lit "1BIT")) with false.
  change (includes (lit "HORIZONTAL_ALPHA") (lit "ALPHA")) with true. cbn [orb].
  replace (repeat white (length out)) with (map (fun _ : pixel => white) out).
  - rewrite !horizontal_map. f_equal.
    apply horizontal_on_ext. intros p.
    destruct (127 <? import_luma p)%float; reflexivity.
  - induction out as [|p out IH]; [reflexivity|]. cbn. rewrite IH. reflexivity.
Qed.

Lemma write_length d i v :
  (i < length d)%nat -> length (Editor.write d i v) = length d.
Proof.
  revert i. induction d as [|c d IH]; intros i H; cbn [length] in H; [lia|].
  destruct i as [|k]; cbn [Editor.write length]; [reflexivity|].
  rewrite IH by lia. reflexivity.
Qed.

Lemma nth_write_same d i v :
  (i < length d)%nat -> nth i (Editor.write d i v) Editor.Hole = v.
Proof.
  revert i. induction d as [|c d IH]; intros i H; cbn [length] in H; [lia|].
  destruct i as [|k]; cbn [Editor.write nth]; [reflexivity|].
  apply IH. lia.
Qed.

Lemma nth_write_other d i j v :
  i <> j -> nth j (Editor.write d i v) Editor.Hole = nth j d Editor.Hole.
Proof.
  revert i j. induction d as [|c d IH]; intros i j H.
  - revert j H. induction i as [|k IHk]; intros j H; cbn [Editor.write].
    + destruct j as [|j]; [contradiction|]. destruct j; reflexivity.
    + destruct j as [|j]; [reflexivity|]. cbn [nth].
      rewrite IHk by lia. destruct j; reflexivity.
  - destruct i as [|k], j as [|j]; cbn [Editor.write nth];
      try reflexivity; try contradiction.
    apply IH. lia.
Qed.

Lemma read_write_same d i v :
  (i < length d)%nat -> v <> Editor.Hole -> Editor.read (Editor.write d i v) i = v.
Proof.
  intros H Hv. unfold Editor.read. rewrite nth_write_same by assumption.
  destruct v; try reflexivity. contradiction.
Qed.

Lemma read_write_other d i j v :
  i <> j -> Editor.read (Editor.write d i v) j = Editor.read d j.
Proof.
  intros H. unfold Editor.read. rewrite nth_write_other by assumption. reflexivity.
Qed.

Lemma read_blank_canvas w h i :
  (i < w * h)%nat -> Editor.read (Editor.blank_canvas w h) i = Editor.Px transparent.
Proof.
  intros H. unfold Editor.read, Editor.blank_canvas.
  rewrite nth_repeat_lt by assumption. reflexivity.
Qed.

Lemma read_value d i : Editor.read d i <> Editor.Hole.
Proof. unfold Editor.read. destruct (nth i d Editor.Hole); discriminate. Qed.

Section Resize.

Variables w ow : nat.
Variable prev : Editor.canvas.

(** The inner loop of the effect, over the first [cw] pixels of row [y]. *)
Lemma resize_row y cw out :
  (cw <= w)%nat -> (y * w + w <= length out)%nat ->
  let out' := fold_left (fun out x =>
                Editor.write out (y * w + x) (Editor.read prev (y * ow + x)))
                (seq 0 cw) out in
  length out' = length out /\
  forall j, Editor.read out' j
            = if ((y * w <=? j) && (j <? y * w + cw))%nat
              then Editor.read prev (y * ow + (j - y * w))
              else Editor.read out j.
Proof.
  intros Hcw Hlen. cbv zeta. induction cw as [|k IH].
  - cbn [seq fold_left]. split; [reflexivity|]. intros j.
    replace ((y * w <=? j) && (j <? y * w + 0))%nat with false; [reflexivity|].
    symmetry. apply andb_false_iff.
    destruct (Nat.leb_spec (y * w) j); [right; apply Nat.ltb_ge; lia | left; reflexivity].
  - rewrite seq_S, fold_left_app. cbn [fold_left Nat.add].
    destruct IH as (IHlen & IHread); [lia|].
    split.
    + rewrite write_length by lia. exact IHlen.
    + intros j. destruct (Nat.eq_dec j (y * w + k)) as [->|Hne].
      * rewrite read_write_same by (lia || apply read_value).
        replace ((y * w <=? y * w + k) && (y * w + k <? y * w + S k))%nat with true.
        -- f_equal. lia.
        -- symmetry. apply andb_true_iff. split; [apply Nat.leb_le | apply Nat.ltb_lt]; lia.
      * rewrite read_write_other by lia. rewrite IHread.
        replace (j <? y * w + S k)%nat with (j <? y * w + k)%nat; [reflexivity|].
        destruct (Nat.ltb_spec j (y * w + k)), (Nat.ltb_spec j (y * w + S k));
          reflexivity || lia.
Qed.

(** The loop nest, over the first [ch] rows. *)
Lemma resize_rows cw ch out :
  (cw <= w)%nat -> (ch * w <= length out)%nat ->
  let out' := fold_left (fun out y =>
                fold_left (fun out x =>
                  Editor.write out (y * w + x) (Editor.read prev (y * ow + x)))
                  (seq 0 cw) out)
                (seq 0 ch) out in
  length out' = length out /\
  forall x y, (x < w)%nat ->
    Editor.read out' (y * w + x)
    = if ((x <? cw) && (y <? ch))%nat
      then Editor.read prev (y * ow + x)
      else Editor.read out (y * w + x).
Proof.
  intros Hcw Hlen. cbv zeta. induction ch as [|k IH].
  - cbn [seq fold_left]. split; [reflexivity|]. intros x y _.
    rewrite andb_false_r. reflexivity.
  - rewrite seq_S, fold_left_app. cbn [fold_left Nat.add].
    destruct IH as (IHlen & IHread); [lia|].
    destruct (resize_row k cw
                (fold_left (fun out y =>
                   fold_left (fun out x =>
                     Editor.write out (y * w + x) (Editor.read prev (y * ow + x)))
                     (seq 0 cw) out) (seq 0 k) out) Hcw ltac:(lia))
      as (Rlen & Rread).
    split; [lia|].
    intros x y Hx. rewrite Rread, IHread by assumption.
    destruct (Nat.eq_dec y k) as [->|Hne].
    + replace (k * w <=? k * w + x)%nat with true by (symmetry; apply Nat.leb_le; lia).
      replace (k <? k)%nat with false by (symmetry; apply Nat.ltb_ge; lia).
      replace (k <? S k)%nat with true by (symmetry; apply Nat.ltb_lt; lia).
      rewrite andb_false_r, andb_true_r. cbn [andb].
      replace (k * w + x <? k * w + cw)%nat with (x <? cw)%nat.
      * replace (k * w + x - k * w)%nat with x by lia. reflexivity.
      * destruct (Nat.ltb_spec x cw), (Nat.ltb_spec (k * w + x) (k * w + cw));
          reflexivity || lia.
    + replace ((k * w <=? y * w + x) && (y * w + x <? k * w + cw))%nat with false.
      * replace (y <? S k)%nat with (y <? k)%nat; [reflexivity|].
        destruct (Nat.ltb_spec y k), (Nat.ltb_spec y (S k)); reflexivity || lia.
      * symmetry. apply andb_false_iff.
        destruct (Nat.lt_ge_cases y k) as [Hlt|Hge].
        -- left. apply Nat.leb_gt. nia.
        -- right. apply Nat.ltb_ge. nia.
Qed.

End Resize.

(** The effect of a change of size, pixel by pixel. *)
Lemma resize_cells w h s :
  let s' := Editor.resize w h s in
  let ow := fst (Editor.prevSize s) in
  let oh := snd (Editor.prevSize s) in
  (Editor.prevSize s = (w, h) -> s' = s) /\
  (Editor.prevSize s <> (w, h) ->
   length (Editor.data s') = (w * h)%nat /\
   (forall x y, (x < w)%nat -> (y < h)%nat ->
      Editor.read (Editor.data s') (y * w + x)
      = if ((x <? ow) && (y <? oh))%nat
        then Editor.read (Editor.data s) (y * ow + x)
        else Editor.Px transparent) /\
   Editor.prevSize s' = (w, h) /\ Editor.history s' = [] /\ Editor.redo s' = []).
Proof.
  cbv zeta. unfold Editor.resize. destruct (Editor.prevSize s) as [ow oh].
  cbn [fst snd]. split.
  - intros [= -> ->]. rewrite !Nat.eqb_refl. reflexivity.
  - intros Hne.
    replace ((ow =? w)%nat && (oh =? h)%nat) with false.
    + cbn [Editor.data Editor.prevSize Editor.history Editor.redo].
      destruct (resize_rows w ow (Editor.data s) (Nat.min ow w) (Nat.min oh h)
                  (Editor.blank_canvas w h))
        as (Rlen & Rread).
      * lia.
      * unfold Editor.blank_canvas. rewrite repeat_length. nia.
      * split; [|split; [|auto]].
        -- rewrite Rlen. unfold Editor.blank_canvas. apply repeat_length.
        -- intros x y Hx Hy. rewrite Rread by assumption.
           rewrite read_blank_canvas by nia.
           replace (x <? Nat.min ow w)%nat with (x <? ow)%nat
             by (destruct (Nat.ltb_spec x ow), (Nat.ltb_spec x (Nat.min ow w));
                 reflexivity || lia).
           replace (y <? Nat.min oh h)%nat with (y <? oh)%nat
             by (destruct (Nat.ltb_spec y oh), (Nat.ltb_spec y (Nat.min oh h));
                 reflexivity || lia).
           reflexivity.
    + symmetry. apply andb_false_iff.
      destruct (Nat.eqb_spec ow w) as [->|]; [|left; reflexivity].
      right. apply Nat.eqb_neq. intros ->. apply Hne. reflexivity.
Qed.

(** When the canvas is resized from [ow] by [oh] to [w] by [h], the new
    buffer has [w * h] pixels; the pixel at column [x], row [y] is the one
    that was at column [x], row [y] when both sizes have that position,
    and transparent otherwise; the undo and redo histories are emptied.
    When the size did not change, nothing does. *)
Theorem resize_keeps_overlap w h s :
  let s' := Editor.resize w h s in
  let ow := fst (Editor.prevSize s) in
  let oh := snd (Editor.prevSize s) in
  (Editor.prevSize s = (w, h) -> s' = s) /\
  (Editor.prevSize s <> (w, h) ->
   length (Editor.data s') = (w * h)%nat /\
   (forall x y, (x < w)%nat -> (y < h)%nat ->
      Editor.read (Editor.data s') (y * w + x)
      = if ((x <? ow) && (y <? oh))%nat
        then Editor.read (Editor.data s) (y * ow + x)
        else Editor.Px transparent) /\
   Editor.prevSize s' = (w, h) /\ Editor.history s' = [] /\ Editor.redo s' = []).
Proof. exact (resize_cells w h s). Qed.

Lemma resize_keeps_overlap_witness :
  let s := Editor.mkState [Editor.Px white; Editor.Px black] (2, 1)%nat [[]] [] in
  length (Editor.data (Editor.resize 1 2 s)) = 2%nat /\
  Editor.read (Editor.data (Editor.resize 1 2 s)) 0 = Editor.Px white /\
  Editor.read (Editor.data (Editor.resize 1 2 s)) 1 = Editor.Px transparent.
Proof.
  cbv zeta.
  destruct (resize_keeps_overlap 1 2
              (Editor.mkState [Editor.Px white; Editor.Px black] (2, 1)%nat [[]] []))
    as (_ & H).
  destruct H as (Hlen & Hread & _); [discriminate|].
  split; [exact Hlen|].
  split; [exact (Hread 0 0 ltac:(lia) ltac:(lia))%nat
         | exact (Hread 0 1 ltac:(lia) ltac:(lia))%nat].
Defined.

Section Canvas.

Variables w h : nat.

Lemma outside_inside x y : Editor.outside w h x y = false <-> inside w h (x, y).
Proof.
  unfold Editor.outside, inside. cbn [fst snd].
  rewrite !orb_false_iff, !Z.ltb_ge, !Z.geb_leb, !Z.leb_gt. lia.
Qed.

Lemma outside_not_inside x y : Editor.outside w h x y = true <-> ~ inside w h (x, y).
Proof.
  rewrite <- outside_inside. destruct (Editor.outside w h x y); split; congruence.
Qed.

Lemma idx_bound c : inside w h c -> (Editor.idx w (fst c) (snd c) < w * h)%nat.
Proof. unfold inside, Editor.idx. intros H. nia. Qed.

Lemma idx_injective c c' :
  inside w h c -> inside w h c' ->
  Editor.idx w (fst c) (snd c) = Editor.idx w (fst c') (snd c') -> c = c'.
Proof.
  destruct c as [x y], c' as [x' y']. unfold inside, Editor.idx. cbn [fst snd].
  intros H H' E.
  assert (E' : y * Z.of_nat w + x = y' * Z.of_nat w + x') by nia.
  assert (y = y') by nia. subst y'. f_equal. lia.
Qed.

Lemma cell_at_write_same d c v :
  length d = (w * h)%nat -> inside w h c -> v <> Editor.Hole ->
  cell_at w (Editor.write d (Editor.idx w (fst c) (snd c)) v) c = v.
Proof.
  intros Hlen Hc Hv. unfold cell_at. apply read_write_same; [|assumption].
  rewrite Hlen. apply idx_bound. assumption.
Qed.

Lemma cell_at_write_other d c c' v :
  inside w h c -> inside w h c' -> c <> c' ->
  cell_at w (Editor.write d (Editor.idx w (fst c) (snd c)) v) c' = cell_at w d c'.
Proof.
  intros Hc Hc' Hne. unfold cell_at. apply read_write_other.
  intros E. apply Hne. apply idx_injective; assumption.
Qed.

Lemma cell_at_write_length d c v :
  length d = (w * h)%nat -> inside w h c ->
  length (Editor.write d (Editor.idx w (fst c) (snd c)) v) = (w * h)%nat.
Proof.
  intros Hlen Hc. rewrite write_length; [assumption|].
  rewrite Hlen. apply idx_bound. assumption.
Qed.

End Canvas.

Lemma same_pixel_spec c c' : same_pixel c c' = true <-> c = c'.
Proof.
  destruct c as [x y], c' as [x' y']. unfold same_pixel. cbn [fst snd].
  rewrite andb_true_iff, !Z.eqb_eq. split; [intros (-> & ->); reflexivity|].
  intros [= -> ->]. auto.
Qed.

Lemma setPixel_cells w h pix erase px py nd :
  length nd = (w * h)%nat -> inside w h (px, py) -> pix <> Editor.Hole ->
  let nd' := Editor.setPixel w h pix erase px py nd in
  length nd' = (w * h)%nat /\
  forall c, inside w h c ->
    cell_at w nd' c
    = if same_pixel c (px, py)
      then (if erase then Editor.Px transparent else pix)
      else cell_at w nd c.
Proof.
  intros Hlen Hin Hpix. cbv zeta. unfold Editor.setPixel.
  replace (Editor.outside w h px py) with false
    by (symmetry; apply outside_inside; assumption).
  split; [apply (cell_at_write_length w h nd (px, py)); assumption|].
  intros c Hc. destruct (same_pixel c (px, py)) eqn:E.
  - apply same_pixel_spec in E. subst c.
    apply (cell_at_write_same w h nd (px, py)); try assumption.
    destruct erase; [discriminate | assumption].
  - apply (cell_at_write_other w h nd (px, py)); try assumption.
    intros <-. assert (E' : same_pixel (px, py) (px, py) = true)
      by (apply same_pixel_spec; reflexivity).
    congruence.
Qed.

(** A stroke at the pixel [(x, y)] of the canvas sets that pixel and, as
    the mirror options say, its mirror images across the vertical axis,
    the horizontal axis and the centre, to the colour (transparent for the
    eraser); every other pixel is as it was and the buffer keeps its
    [w * h] pixels. A stroke outside the canvas changes nothing. *)
Theorem drawAt_cells w h mirrorX mirrorY x y pix erase d :
  length d = (w * h)%nat -> pix <> Editor.Hole ->
  let d' := Editor.drawAt w h mirrorX mirrorY x y pix erase d in
  let mx := Z.of_nat w - 1 - x in
  let my := Z.of_nat h - 1 - y in
  (~ inside w h (x, y) -> d' = d) /\
  (inside w h (x, y) ->
   length d' = (w * h)%nat /\
   forall c, inside w h c ->
     cell_at w d' c
     = if same_pixel c (x, y)
          || (mirrorX && same_pixel c (mx, y))
          || (mirrorY && same_pixel c (x, my))
          || (mirrorX && mirrorY && same_pixel c (mx, my))
       then (if erase then Editor.Px transparent else pix)
       else cell_at w d c).
Proof.
  intros Hlen Hpix. cbv zeta. unfold Editor.drawAt. split.
  - intros Hout. apply outside_not_inside in Hout. rewrite Hout. reflexivity.
  - intros Hin.
    replace (Editor.outside w h x y) with false
      by (symmetry; apply outside_inside; assumption).
    assert (Hmx : inside w h (Z.of_nat w - 1 - x, y))
      by (unfold inside in *; cbn [fst snd] in *; lia).
    assert (Hmy : inside w h (x, Z.of_nat h - 1 - y))
      by (unfold inside in *; cbn [fst snd] in *; lia).
    assert (Hmxy : inside w h (Z.of_nat w - 1 - x, Z.of_nat h - 1 - y))
      by (unfold inside in *; cbn [fst snd] in *; lia).
    destruct (setPixel_cells w h pix erase x y d Hlen Hin Hpix) as (L1 & C1).
    set (d1 := Editor.setPixel w h pix erase x y d) in *.
    assert (S2 : let d2 := if mirrorX
                           then Editor.setPixel w h pix erase (Z.of_nat w - 1 - x) y d1
                           else d1 in
                 length d2 = (w * h)%nat /\
                 forall c, inside w h c ->
                   cell_at w d2 c
                   = if same_pixel c (x, y)
                        || (mirrorX && same_pixel c (Z.of_nat w - 1 - x, y))
                     then (if erase then Editor.Px transparent else pix)
                     else cell_at w d c).
    { cbv zeta. destruct mirrorX; cbn [andb].
      - destruct (setPixel_cells w h pix erase _ _ d1 L1 Hmx Hpix) as (L & C).
        split; [exact L|]. intros c Hc. rewrite C, C1 by assumption.
        destruct (same_pixel c (x, y)), (same_pixel c (Z.of_nat w - 1 - x, y));
          reflexivity.
      - split; [exact L1|]. intros c Hc. rewrite C1 by assumption.
        rewrite orb_false_r. reflexivity. }
    cbv zeta in S2. destruct S2 as (L2 & C2).
    set (d2 := if mirrorX then _ else d1) in *.
    assert (S3 : let d3 := if mirrorY
                           then Editor.setPixel w h pix erase x (Z.of_nat h - 1 - y) d2
                           else d2 in
                 length d3 = (w * h)%nat /\
                 forall c, inside w h c ->
                   cell_at w d3 c
                   = if same_pixel c (x, y)
                        || (mirrorX && same_pixel c (Z.of_nat w - 1 - x, y))
                        || (mirrorY && same_pixel c (x, Z.of_nat h - 1 - y))
                     then (if erase then Editor.Px transparent else pix)
                     else cell_at w d c).
    { cbv zeta. destruct mirrorY; cbn [andb].
      - destruct (setPixel_cells w h pix erase _ _ d2 L2 Hmy Hpix) as (L & C).
        split; [exact L|]. intros c Hc. rewrite C, C2 by assumption.
        destruct (same_pixel c (x, Z.of_nat h - 1 - y));
          [rewrite orb_true_r | rewrite orb_false_r]; reflexivity.
      - split; [exact L2|]. intros c Hc. rewrite C2 by assumption.
        rewrite orb_false_r. reflexivity. }
    cbv zeta in S3. destruct S3 as (L3 & C3).
    set (d3 := if mirrorY then _ else d2) in *.
    destruct (mirrorX && mirrorY) eqn:Eboth.
    + destruct (setPixel_cells w h pix erase _ _ d3 L3 Hmxy Hpix) as (L & C).
      split; [exact L|]. intros c Hc. rewrite C, C3 by assumption.
      cbn [andb].
      destruct (same_pixel c (Z.of_nat w - 1 - x, Z.of_nat h - 1 - y));
        [rewrite orb_true_r | rewrite orb_false_r]; reflexivity.
    + split; [exact L3|]. intros c Hc. rewrite C3 by assumption.
      cbn [andb]. rewrite orb_false_r. reflexivity.
Qed.

Lemma drawAt_cells_witness :
  let d' := Editor.drawAt 3 1 true false 0 0 (Editor.Px black) false
              (Editor.blank_canvas 3 1) in
  length d' = 3%nat /\
  cell_at 3 d' (0, 0) = Editor.Px black /\
  cell_at 3 d' (1, 0) = Editor.Px transparent /\
  cell_at 3 d' (2, 0) = Editor.Px black.
Proof.
  cbv zeta.
  destruct (drawAt_cells 3 1 true false 0 0 (Editor.Px black) false
              (Editor.blank_canvas 3 1)) as (_ & H); [reflexivity | discriminate |].
  destruct H as (Hlen & Hcells); [unfold inside; cbn; lia|].
  split; [exact Hlen|].
  split; [|split].
  - apply (Hcells (0, 0)). unfold inside; cbn; lia.
  - apply (Hcells (1, 0)). unfold inside; cbn; lia.
  - apply (Hcells (2, 0)). unfold inside; cbn; lia.
Defined.

Lemma rgbaEq_pixels p q :
  exists same, Editor.rgbaEq (Editor.Px p) (Editor.Px q) = Normal same /\
               (same = true <-> p = q).
Proof.
  eexists. split; [reflexivity|].
  rewrite !andb_true_iff, !Z.eqb_eq. destruct p, q; cbn.
  split; [intros (((-> & ->) & ->) & ->); reflexivity|].
  intros [= -> -> -> ->]. auto.
Qed.

Lemma drawn_read w h d i :
  drawn w h d -> (i < w * h)%nat ->
  exists p, Editor.read d i = Editor.Px p /\ nth i d Editor.Hole = Editor.Px p.
Proof.
  intros (Hlen & Hall) Hi. rewrite Forall_forall in Hall.
  destruct (Hall (nth i d Editor.Hole)) as (p & E); [apply nth_In; lia|].
  exists p. unfold Editor.read. rewrite E. split; reflexivity.
Qed.

Lemma write_pixels d i q :
  (i < length d)%nat ->
  Forall (fun c => exists p, c = Editor.Px p) d ->
  Forall (fun c => exists p, c = Editor.Px p) (Editor.write d i (Editor.Px q)).
Proof.
  intros Hi Hall. revert i Hi.
  induction Hall as [|c d Hc Hall IH]; intros i Hi; cbn [length] in Hi; [lia|].
  destruct i as [|k]; cbn [Editor.write].
  - constructor; [eauto | assumption].
  - constructor; [assumption | apply IH; lia].
Qed.

Lemma drawn_write w h d i q :
  drawn w h d -> (i < w * h)%nat -> drawn w h (Editor.write d i (Editor.Px q)).
Proof.
  intros (Hlen & Hall) Hi. split.
  - rewrite write_length; lia.
  - apply write_pixels; [lia | assumption].
Qed.

Lemma count_colour_write target q d i :
  (i < length d)%nat -> nth i d Editor.Hole = Editor.Px target -> q <> target ->
  (count_colour target (Editor.write d i (Editor.Px q)) + 1
   = count_colour target d)%nat.
Proof.
  intros Hi Hnth Hq. unfold count_colour. revert i Hi Hnth.
  induction d as [|c d IH]; intros i Hi Hnth; cbn [length] in Hi; [lia|].
  destruct i as [|k]; cbn [Editor.write nth] in *.
  - subst c. cbn [filter].
    destruct (rgbaEq_pixels q target) as (s1 & -> & H1).
    destruct (rgbaEq_pixels target target) as (s2 & -> & H2).
    destruct s1; [exfalso; apply Hq, H1; reflexivity|].
    destruct s2; [cbn [length]; lia|].
    assert (false = true) by (apply H2; reflexivity). discriminate.
  - cbn [filter]. specialize (IH k ltac:(lia) Hnth).
    destruct (match Editor.rgbaEq c (Editor.Px target) with
              | Normal true => true
              | _ => false
              end); cbn [length]; lia.
Qed.

Lemma count_colour_bound target d : (count_colour target d <= length d)%nat.
Proof. unfold count_colour. apply filter_length_le. Qed.

Section FloodFill.

Variables w h : nat.
Variable d0 : Editor.canvas.
Variables pt pr : pixel.
Variable start : Z * Z.
Hypothesis Hne : pt <> pr.

Abbreviation target := (Editor.Px pt).
Abbreviation replacement := (Editor.Px pr).
Abbreviation region_of := (region w h d0 target start).
Abbreviation filled_in := (filled w h d0 target replacement start).
Abbreviation invariant := (fill_invariant w h d0 target replacement start).

Lemma region_inside c : region_of c -> inside w h c.
Proof. intros H. destruct H; assumption. Qed.

Lemma region_target c : region_of c -> cell_at w d0 c = target.
Proof. intros H. destruct H; assumption. Qed.

Lemma adjacent_pushed x y n :
  adjacent (x, y) n ->
  In n [(x, y - 1); (x, y + 1); (x - 1, y); (x + 1, y)].
Proof.
  destruct n as [nx ny]. unfold adjacent. cbn [fst snd In].
  intros [(-> & [-> | ->]) | (-> & [-> | ->])]; auto.
Qed.

Lemma pushed_adjacent x y n :
  In n [(x, y - 1); (x, y + 1); (x - 1, y); (x + 1, y)] -> adjacent (x, y) n.
Proof.
  unfold adjacent. cbn [In].
  intros [<- | [<- | [<- | [<- | []]]]]; cbn [fst snd]; lia.
Qed.

(** A position outside the canvas is popped and dropped. *)
Lemma invariant_outside x y stack d :
  ~ inside w h (x, y) -> invariant ((x, y) :: stack) d -> invariant stack d.
Proof.
  intros Hout (Hd & Hcells & Hstack & Hstart & Hnext).
  split; [assumption|]. split; [assumption|]. split; [|split].
  - intros c Hc. apply Hstack. right. assumption.
  - intros Hr. destruct (Hstart Hr) as [[E | Hin] | Hf]; auto.
    exfalso. apply Hout. rewrite E. apply region_inside. assumption.
  - intros c n Hc Hn Hadj. destruct (Hnext c n Hc Hn Hadj) as [[E | Hin] | Hf]; auto.
    exfalso. apply Hout. rewrite E. apply region_inside. assumption.
Qed.

(** A pixel of another colour is popped and dropped. *)
Lemma invariant_other x y stack d :
  cell_at w d (x, y) <> target ->
  invariant ((x, y) :: stack) d -> invariant stack d.
Proof.
  intros Hcol (Hd & Hcells & Hstack & Hstart & Hnext).
  assert (Hpop : forall n, region_of n -> n = (x, y) -> filled_in d n).
  { intros n Hn ->. destruct (Hcells (x, y) (region_inside _ Hn)) as [E | Hf]; [|assumption].
    exfalso. apply Hcol. rewrite E. apply region_target. assumption. }
  split; [assumption|]. split; [assumption|]. split; [|split].
  - intros c Hc. apply Hstack. right. assumption.
  - intros Hr. destruct (Hstart Hr) as [[E | Hin] | Hf]; auto.
  - intros c n Hc Hn Hadj. destruct (Hnext c n Hc Hn Hadj) as [[E | Hin] | Hf]; auto.
Qed.

(** A pixel of the colour [target] is filled and its four neighbours
    pushed. *)
Lemma invariant_fill x y stack d :
  inside w h (x, y) -> cell_at w d (x, y) = target ->
  invariant ((x, y) :: stack) d ->
  invariant ((x, y - 1) :: (x, y + 1) :: (x - 1, y) :: (x + 1, y) :: stack)
            (Editor.write d (Editor.idx w x y) replacement).
Proof.
  intros Hin Hcol (Hd & Hcells & Hstack & Hstart & Hnext).
  assert (Hlen : length d = (w * h)%nat) by apply Hd.
  assert (Hr : region_of (x, y)).
  { apply Hstack; [left; reflexivity | assumption |].
    destruct (Hcells (x, y) Hin) as [E | (_ & E)]; [congruence|].
    rewrite E in Hcol. injection Hcol as E'. exfalso. apply Hne. auto. }
  assert (Hsame : cell_at w (Editor.write d (Editor.idx w x y) replacement) (x, y)
                  = replacement)
    by (apply (cell_at_write_same w h d (x, y)); [assumption | assumption | discriminate]).
  assert (Hother : forall c, inside w h c -> c <> (x, y) ->
            cell_at w (Editor.write d (Editor.idx w x y) replacement) c = cell_at w d c).
  { intros c Hc Hcne. apply (cell_at_write_other w h d (x, y)); auto. }
  assert (Hkeep : forall c, filled_in d c ->
            filled_in (Editor.write d (Editor.idx w x y) replacement) c).
  { intros c (Hc & E). split; [assumption|].
    destruct (same_pixel c (x, y)) eqn:S.
    - apply same_pixel_spec in S. subst c. assumption.
    - rewrite Hother; [assumption | apply region_inside; assumption |].
      intros ->. assert (same_pixel (x, y) (x, y) = true)
        by (apply same_pixel_spec; reflexivity). congruence. }
  assert (Hnow : filled_in (Editor.write d (Editor.idx w x y) replacement) (x, y))
    by (split; assumption).
  assert (Hdec : forall c : Z * Z, c = (x, y) \/ c <> (x, y)).
  { intros c. destruct (same_pixel c (x, y)) eqn:S.
    - left. apply same_pixel_spec. assumption.
    - right. intros E. apply same_pixel_spec in E. congruence. }
  split; [|split; [|split; [|split]]].
  - apply drawn_write; [assumption | apply (idx_bound w h (x, y)); assumption].
  - intros c Hc. destruct (Hdec c) as [-> | Hcne]; [right; assumption|].
    rewrite Hother by assumption.
    destruct (Hcells c Hc) as [E | Hf]; [left; assumption | right; auto].
  - intros c Hc Hcin Hct.
    change (In c ([(x, y - 1); (x, y + 1); (x - 1, y); (x + 1, y)] ++ stack)) in Hc.
    apply in_app_or in Hc. destruct Hc as [Hc | Hc].
    + apply (region_step w h d0 target start (x, y) c);
        [assumption | apply pushed_adjacent; assumption | assumption | assumption].
    + apply Hstack; [right; assumption | assumption | assumption].
  - intros Hrs. destruct (Hstart Hrs) as [[E | Hs] | Hf].
    + right.
      assert (Hgen : forall c, (x, y) = c ->
                filled_in (Editor.write d (Editor.idx w x y) replacement) c)
        by (intros c <-; exact Hnow).
      apply Hgen. exact E.
    + left. do 4 right. assumption.
    + right. auto.
  - intros c n Hc Hn Hadj.
    destruct (Hdec n) as [-> | Hnne]; [right; assumption|].
    destruct (Hdec c) as [-> | Hcne].
    + left.
      change (In n ([(x, y - 1); (x, y + 1); (x - 1, y); (x + 1, y)] ++ stack)).
      apply in_or_app. left. apply adjacent_pushed. assumption.
    + assert (Hc' : filled_in d c).
      { destruct Hc as (Hcr & E). split; [assumption|].
        rewrite Hother in E; [assumption | apply region_inside; assumption | assumption]. }
      destruct (Hnext c n Hc' Hn Hadj) as [[E | Hs] | Hf].
      * exfalso. apply Hnne. auto.
      * left. do 4 right. assumption.
      * right. auto.
Qed.

(** The loop ends within [length stack + 4 * count] iterations, [count]
    being the number of pixels of the colour [target] left, and keeps the
    invariant. *)
Lemma fill_loop_invariant fuel stack d :
  invariant stack d ->
  (length stack + 4 * count_colour pt d <= fuel)%nat ->
  exists d', Editor.fill_loop w h target replacement fuel stack d = Some (Normal d') /\
             invariant [] d'.
Proof.
  revert stack d. induction fuel as [|fuel IH]; intros stack d Hinv Hfuel.
  - destruct stack as [|[x y] stack]; [|cbn [length] in Hfuel; lia].
    exists d. split; [reflexivity | assumption].
  - destruct stack as [|[x y] stack].
    + exists d. split; [reflexivity | assumption].
    + cbn [Editor.fill_loop length] in *.
      destruct (Editor.outside w h x y) eqn:O.
      * apply IH; [|lia].
        apply (invariant_outside x y); [|assumption].
        apply outside_not_inside. assumption.
      * apply outside_inside in O.
        assert (Hd : drawn w h d) by apply Hinv.
        destruct (drawn_read w h d (Editor.idx w x y) Hd (idx_bound w h (x, y) O))
          as (p & Eread & Enth).
        rewrite Eread. destruct (rgbaEq_pixels p pt) as (same & -> & Hsame).
        destruct same.
        -- assert (p = pt) by (apply Hsame; reflexivity). subst p.
           apply IH.
           ++ apply invariant_fill; assumption.
           ++ cbn [length].
              assert (count_colour pt (Editor.write d (Editor.idx w x y) replacement) + 1
                      = count_colour pt d)%nat.
              { apply count_colour_write; [|assumption | auto].
                destruct Hd as (-> & _). apply (idx_bound w h (x, y)). assumption. }
              lia.
        -- apply IH; [|lia].
           apply (invariant_other x y); [|assumption].
           unfold cell_at. cbn [fst snd]. rewrite Eread. intros [= ->].
           assert (false = true) by (apply Hsame; reflexivity). discriminate.
Qed.

Lemma invariant_start d : drawn w h d0 -> d = d0 -> invariant [start] d.
Proof.
  intros Hd ->. split; [assumption|]. split; [|split; [|split]].
  - intros c Hc. left. reflexivity.
  - intros c [<- | []] Hc Hct. apply region_start; assumption.
  - intros _. left. left. reflexivity.
  - intros c n (Hc & E). exfalso.
    rewrite (region_target _ Hc) in E. injection E as E. apply Hne. assumption.
Qed.

Lemma invariant_end d :
  invariant [] d ->
  drawn w h d /\
  forall c, inside w h c ->
    (region_of c -> cell_at w d c = replacement) /\
    (~ region_of c -> cell_at w d c = cell_at w d0 c).
Proof.
  intros (Hd & Hcells & _ & Hstart & Hnext).
  assert (Hall : forall c, region_of c -> filled_in d c).
  { intros c Hc. induction Hc as [Hs Ht | c n Hc IH Hadj Hn Ht].
    - destruct Hstart as [[] | Hf]; [apply region_start; assumption | assumption].
    - destruct (Hnext c n IH) as [[] | Hf]; auto.
      apply (region_step w h d0 target start c n); assumption. }
  split; [exact Hd|].
  intros c Hc. split.
  - intros Hr. apply Hall. assumption.
  - intros Hnr. destruct (Hcells c Hc) as [E | (Hr & _)]; [assumption | contradiction].
Qed.

End FloodFill.

(** The fill tool on a canvas of [w * h] pixels ends and returns a buffer
    of [w * h] pixels in which exactly the pixels of the region of the
    colour [target] around the start pixel, connected by sides and not by
    corners, have the new colour, every other pixel being as it was.
    [4 * w * h + 1] iterations of the loop are enough. When the new colour
    is the colour [target], the buffer is left alone. *)
Theorem floodFill_fills_region w h fuel sx sy target replacement d :
  drawn w h d -> (4 * (w * h) + 1 <= fuel)%nat ->
  (target = replacement ->
   Editor.floodFill w h fuel sx sy (Editor.Px target) (Editor.Px replacement) d
   = Some (Normal d)) /\
  (target <> replacement ->
   exists d',
     Editor.floodFill w h fuel sx sy (Editor.Px target) (Editor.Px replacement) d
     = Some (Normal d') /\
     drawn w h d' /\
     forall c, inside w h c ->
       (region w h d (Editor.Px target) (sx, sy) c ->
        cell_at w d' c = Editor.Px replacement) /\
       (~ region w h d (Editor.Px target) (sx, sy) c ->
        cell_at w d' c = cell_at w d c)).
Proof.
  intros Hd Hfuel. unfold Editor.floodFill.
  destruct (rgbaEq_pixels target replacement) as (same & -> & Hsame).
  split.
  - intros E. apply Hsame in E. subst same. reflexivity.
  - intros Hne. destruct same; [exfalso; apply Hne, Hsame; reflexivity|].
    destruct (fill_loop_invariant w h d target replacement (sx, sy) Hne fuel [(sx, sy)] d)
      as (d' & E & Hinv).
    + apply invariant_start; auto.
    + cbn [length]. pose proof (count_colour_bound target d) as B.
      destruct Hd as (Hlen & _). lia.
    + exists d'. split; [assumption|].
      apply (invariant_end w h d target replacement (sx, sy)); assumption.
Qed.

Lemma floodFill_fills_region_witness :
  exists d',
    Editor.floodFill 3 1 13 0 0 (Editor.Px white) (Editor.Px black)
      [Editor.Px white; Editor.Px black; Editor.Px white]
    = Some (Normal d') /\
    cell_at 3 d' (0, 0) = Editor.Px black /\
    cell_at 3 d' (2, 0) = Editor.Px white.
Proof.
  destruct (floodFill_fills_region 3 1 13 0 0 white black
              [Editor.Px white; Editor.Px black; Editor.Px white])
    as (_ & H).
  - split; [reflexivity|]. repeat constructor; eauto.
  - cbn. lia.
  - destruct H as (d' & E & Hlen & Hcells); [discriminate|].
    exists d'. split; [exact E|]. split.
    + apply (Hcells (0, 0)); [unfold inside; cbn; lia|].
      apply region_start; [unfold inside; cbn; lia | reflexivity].
    + assert (Hin : inside 3 1 (2, 0)) by (unfold inside; cbn; lia).
      destruct (Hcells (2, 0) Hin) as (_ & Hkeep).
      rewrite Hkeep; [reflexivity|].
      intros Hr.
      assert (Hleft : forall c, region 3 1
                [Editor.Px white; Editor.Px black; Editor.Px white]
                (Editor.Px white) (0, 0) c -> c = (0, 0)).
      { intros c Hc. induction Hc as [| c n Hc IH Hadj Hn Ht]; [reflexivity|].
        subst c. destruct n as [nx ny]. unfold adjacent, inside in *.
        cbn [fst snd] in *.
        assert (ny = 0) by lia. subst ny.
        assert (nx = 1) by lia. subst nx. discriminate Ht. }
      specialize (Hleft _ Hr). discriminate Hleft.
Defined.

Lemma copy_pixels d : pixels_only d -> Editor.copy d = d.
Proof.
  unfold pixels_only, Editor.copy. induction 1 as [|c d (p & ->) _ IH]; [reflexivity|].
  cbn [map]. rewrite IH. reflexivity.
Qed.

Lemma copy_copy d : Editor.copy (Editor.copy d) = Editor.copy d.
Proof.
  unfold Editor.copy. rewrite map_map. apply map_ext. intros [| | |p]; reflexivity.
Qed.

Lemma removelast_app_last {A} (l : list A) (x : A) :
  l <> [] -> removelast l ++ [List.last l x] = l.
Proof. intros H. symmetry. apply app_removelast_last. assumption. Qed.

(** Undo and Redo undo each other. With a step to undo, Undo followed by
    Redo gives the state back (buffer, undo history and redo history), and
    with a step to redo, Redo followed by Undo does, when the buffers
    involved hold pixels only. With nothing to undo, or to redo, the
    button changes nothing. *)
Theorem undo_redo_round_trip s :
  (Editor.history s = [] -> Editor.undo_onClick s = s) /\
  (Editor.redo s = [] -> Editor.redo_onClick s = s) /\
  (Editor.history s <> [] ->
   pixels_only (Editor.data s) -> pixels_only (List.last (Editor.history s) []) ->
   Editor.redo_onClick (Editor.undo_onClick s) = s) /\
  (forall next rest, Editor.redo s = next :: rest ->
   pixels_only (Editor.data s) -> pixels_only next ->
   Editor.undo_onClick (Editor.redo_onClick s) = s).
Proof.
  destruct s as [d size hist future]. cbn [Editor.history Editor.redo Editor.data].
  split; [|split; [|split]].
  - intros ->. reflexivity.
  - intros ->. reflexivity.
  - intros Hne Hd Hlast. unfold Editor.undo_onClick. cbn [Editor.history].
    destruct hist as [|c0 hist0] eqn:Eh; [contradiction|]. rewrite <- Eh in *.
    cbn [Editor.data Editor.redo Editor.prevSize].
    unfold Editor.redo_onClick.
    cbn [Editor.data Editor.redo Editor.prevSize Editor.history].
    rewrite !copy_copy, (copy_pixels d Hd), (copy_pixels _ Hlast).
    rewrite removelast_app_last by (rewrite Eh; discriminate). reflexivity.
  - intros next rest -> Hd Hnext. unfold Editor.redo_onClick.
    cbn [Editor.data Editor.redo Editor.prevSize Editor.history].
    unfold Editor.undo_onClick.
    cbn [Editor.data Editor.redo Editor.prevSize Editor.history].
    destruct (hist ++ [Editor.copy d]) as [|c0 l0] eqn:Eh;
      [destruct hist; discriminate Eh|]. rewrite <- Eh.
    rewrite last_last, List.removelast_last, !copy_copy.
    rewrite (copy_pixels d Hd), (copy_pixels next Hnext). reflexivity.
Qed.

Lemma undo_redo_round_trip_witness :
  let s := Editor.mkState [Editor.Px black] (1, 1)%nat [[Editor.Px white]] [] in
  Editor.redo_onClick (Editor.undo_onClick s) = s.
Proof.
  cbv zeta.
  destruct (undo_redo_round_trip
              (Editor.mkState [Editor.Px black] (1, 1)%nat [[Editor.Px white]] []))
    as (_ & _ & H & _).
  apply H; [discriminate | |]; repeat constructor; eauto.
Defined.

Lemma blank_canvas_pixels w h : pixels_only (Editor.blank_canvas w h).
Proof.
  unfold pixels_only, Editor.blank_canvas. apply Forall_forall.
  intros c Hc. apply repeat_spec in Hc. eauto.
Qed.

(** Clear empties the redo history and leaves [w * h] transparent pixels,
    and it can be undone: an Undo right after it gives back the buffer and
    the undo history as they were before, when the buffer held pixels
    only. *)
Theorem clearCanvas_undone w h s :
  let cleared := Editor.clearCanvas w h s in
  let undone := Editor.undo_onClick cleared in
  Editor.data cleared = repeat (Editor.Px transparent) (w * h) /\
  Editor.redo cleared = [] /\
  (pixels_only (Editor.data s) ->
   Editor.data undone = Editor.data s /\
   Editor.history undone = Editor.history s /\
   Editor.redo undone = [Editor.data cleared]).
Proof.
  cbv zeta. destruct s as [d size hist future].
  unfold Editor.clearCanvas, Editor.pushHistory.
  cbn [Editor.data Editor.redo Editor.prevSize Editor.history].
  split; [reflexivity|]. split; [reflexivity|].
  intros Hd. unfold Editor.undo_onClick.
  cbn [Editor.data Editor.redo Editor.prevSize Editor.history].
  destruct (hist ++ [Editor.copy d]) as [|c0 l0] eqn:Eh;
    [destruct hist; discriminate Eh|]. rewrite <- Eh.
  cbn [Editor.data Editor.redo Editor.prevSize Editor.history].
  rewrite last_last, List.removelast_last, copy_copy, (copy_pixels d Hd).
  rewrite (copy_pixels _ (blank_canvas_pixels w h)). auto.
Qed.

Lemma clearCanvas_undone_witness :
  let s := Editor.mkState [Editor.Px black] (1, 1)%nat [] [[Editor.Px white]] in
  Editor.data (Editor.undo_onClick (Editor.clearCanvas 1 1 s)) = [Editor.Px black].
Proof.
  cbv zeta.
  destruct (clearCanvas_undone 1 1
              (Editor.mkState [Editor.Px black] (1, 1)%nat [] [[Editor.Px white]]))
    as (_ & _ & H).
  destruct H as (H & _); [repeat constructor; eauto|]. exact H.
Defined.

Lemma setPixel_drawn w h p erase px py nd :
  drawn w h nd -> drawn w h (Editor.setPixel w h (Editor.Px p) erase px py nd).
Proof.
  intros Hd. unfold Editor.setPixel. destruct (Editor.outside w h px py) eqn:O.
  - assumption.
  - apply outside_inside in O. destruct erase;
      apply drawn_write; assumption || apply (idx_bound w h (px, py)); assumption.
Qed.

Lemma pixels_by_index d :
  (forall j, (j < length d)%nat -> exists p, Editor.read d j = Editor.Px p) ->
  pixels_only d.
Proof.
  intros H. apply Forall_forall. intros c Hc.
  destruct (In_nth d c Editor.Hole Hc) as (j & Hj & E).
  destruct (H j Hj) as (p & Hp). exists p. unfold Editor.read in Hp.
  rewrite E in Hp. destruct c; congruence.
Qed.

(** The buffer stays a grid of [w * h] pixels: resizing a canvas of
    [ow * oh] pixels gives one of [w * h] pixels, and a stroke with a
    colour and Clear keep the [w * h] pixels of the canvas. *)
Theorem editing_keeps_canvas w h :
  (forall s, drawn (fst (Editor.prevSize s)) (snd (Editor.prevSize s)) (Editor.data s) ->
     drawn w h (Editor.data (Editor.resize w h s))) /\
  (forall mirrorX mirrorY x y p erase d, drawn w h d ->
     drawn w h (Editor.drawAt w h mirrorX mirrorY x y (Editor.Px p) erase d)) /\
  (forall s, drawn w h (Editor.data (Editor.clearCanvas w h s))).
Proof.
  split; [|split].
  - intros s Hd. destruct (resize_cells w h s) as (Hsame & Hnew).
    destruct (Editor.prevSize s) as [ow oh] eqn:Esize. cbn [fst snd] in *.
    destruct (Nat.eq_dec ow w) as [->|Hw].
    + destruct (Nat.eq_dec oh h) as [->|Hh].
      * rewrite Hsame by reflexivity. assumption.
      * destruct Hnew as (Hlen & Hread & _); [congruence|].
        split; [assumption|]. apply pixels_by_index. intros j Hj.
        rewrite Hlen in Hj. assert (0 < w)%nat by nia.
        replace j with (j / w * w + j mod w)%nat
          by (pose proof (Nat.div_mod_eq j w); lia).
        rewrite Hread by (try apply Nat.mod_upper_bound;
                          try apply Nat.Div0.div_lt_upper_bound; lia).
        destruct ((j mod w <? w) && (j / w <? oh))%nat eqn:B; [|eauto].
        apply andb_true_iff in B. destruct B as (Bx & By).
        apply Nat.ltb_lt in Bx, By.
        destruct (drawn_read w oh (Editor.data s) (j / w * w + j mod w) Hd)
          as (p & E & _); [nia | eauto].
    + destruct Hnew as (Hlen & Hread & _); [congruence|].
      split; [assumption|]. apply pixels_by_index. intros j Hj.
      rewrite Hlen in Hj. assert (0 < w)%nat by nia.
      replace j with (j / w * w + j mod w)%nat
        by (pose proof (Nat.div_mod_eq j w); lia).
      rewrite Hread by (try apply Nat.mod_upper_bound;
                        try apply Nat.Div0.div_lt_upper_bound; lia).
      destruct ((j mod w <? ow) && (j / w <? oh))%nat eqn:B; [|eauto].
      apply andb_true_iff in B. destruct B as (Bx & By).
      apply Nat.ltb_lt in Bx, By.
      destruct (drawn_read ow oh (Editor.data s) (j / w * ow + j mod w) Hd)
        as (p & E & _); [nia | eauto].
  - intros mirrorX mirrorY x y p erase d Hd. unfold Editor.drawAt.
    destruct (Editor.outside w h x y); [assumption|].
    destruct mirrorX, mirrorY; cbn [andb]; repeat apply setPixel_drawn; assumption.
  - intros s. unfold Editor.clearCanvas. cbn [Editor.data]. split.
    + unfold Editor.blank_canvas. apply repeat_length.
    + apply blank_canvas_pixels.
Qed.

Lemma editing_keeps_canvas_witness :
  drawn 1 2 (Editor.data (Editor.resize 1 2
    (Editor.mkState [Editor.Px white; Editor.Px black] (2, 1)%nat [] []))).
Proof.
  destruct (editing_keeps_canvas 1 2) as (H & _).
  apply H. split; [reflexivity|]. repeat constructor; eauto.
Defined.

(** ** The listing of the generated text *)

Lemma hex_value_digits acc digits v :
  hex_value acc digits = Some v ->
  Forall (fun c => c <> N_of_ascii "," /\ c <> N_of_ascii " ") digits.
Proof.
  revert acc. induction digits as [|c rest IH]; intros acc H; [constructor|].
  cbn [hex_value] in H. destruct (hex_digit c) as [dv|] eqn:E; [|discriminate H].
  constructor; [|apply (IH _ H)].
  split; intros ->; vm_compute in E; discriminate E.
Qed.

Lemma literal_value_clean s v :
  literal_value s = Some v ->
  s <> [] /\ Forall (fun c => c <> N_of_ascii "," /\ c <> N_of_ascii " ") s.
Proof.
  unfold literal_value. intros H.
  destruct s as [|zero [|x [|c rest]]]; try discriminate H.
  split; [discriminate|].
  destruct ((zero =? N_of_ascii "0")%N && (x =? N_of_ascii "x")%N) eqn:E;
    [|discriminate H].
  apply andb_true_iff in E. destruct E as (E0 & Ex).
  apply N.eqb_eq in E0, Ex. subst zero x.
  constructor; [split; discriminate|].
  constructor; [split; discriminate|].
  apply (hex_value_digits _ _ _ H).
Qed.

Lemma tokens_clean e cur rest :
  Forall (fun c => c <> N_of_ascii "," /\ c <> N_of_ascii " ") e ->
  tokens cur (e ++ rest) = tokens (rev e ++ cur) rest.
Proof.
  intros H. revert cur. induction H as [|c e (Hc & Hs) _ IH]; intros cur; [reflexivity|].
  cbn [app tokens].
  replace (c =? N_of_ascii ",")%N with false by (symmetry; apply N.eqb_neq; assumption).
  replace (c =? N_of_ascii " ")%N with false by (symmetry; apply N.eqb_neq; assumption).
  rewrite IH. cbn [rev]. rewrite <- app_assoc. reflexivity.
Qed.

Lemma tokens_join (f : Z -> str) l :
  l <> [] ->
  (forall x, In x l -> literal_value (f x) = Some x) ->
  tokens [] (join (lit ", ") (map f l)) = map f l.
Proof.
  intros Hne Hf. induction l as [|x l IH]; [contradiction|].
  destruct (literal_value_clean (f x) x (Hf x (or_introl eq_refl))) as (_ & Hx).
  destruct l as [|y l].
  - cbn [map join]. rewrite <- (app_nil_r (f x)) at 1.
    rewrite tokens_clean by assumption. cbn [tokens].
    rewrite app_nil_r, rev_involutive. reflexivity.
  - change (join (lit ", ") (map f (x :: y :: l)))
      with (f x ++ lit ", " ++ join (lit ", ") (map f (y :: l))).
    rewrite tokens_clean by assumption.
    assert (IH' : tokens [] (join (lit ", ") (map f (y :: l))) = map f (y :: l)).
    { apply IH; [discriminate|]. intros z Hz. apply Hf. right. assumption. }
    revert IH'. generalize (join (lit ", ") (map f (y :: l))) as tail.
    intros tail IH'.
    change (lit ", ") with [N_of_ascii ","; N_of_ascii " "].
    cbn [app tokens]. rewrite N.eqb_refl.
    change (N_of_ascii " " =? N_of_ascii ",")%N with false.
    rewrite N.eqb_refl.
    rewrite app_nil_r, rev_involutive, IH'. reflexivity.
Qed.

Lemma literal_values_map (f : Z -> str) l :
  (forall x, In x l -> literal_value (f x) = Some x) ->
  literal_values (map f l) = Some l.
Proof.
  intros Hf. induction l as [|x l IH]; [reflexivity|].
  cbn [map literal_values]. rewrite (Hf x (or_introl eq_refl)).
  rewrite IH; [reflexivity|]. intros z Hz. apply Hf. right. assumption.
Qed.

Lemma read_listing_join (f : Z -> str) l :
  (forall x, In x l -> literal_value (f x) = Some x) ->
  read_listing (join (lit ", ") (map f l)) = Some l.
Proof.
  intros Hf. destruct l as [|x l]; [reflexivity|].
  unfold read_listing.
  destruct (join (lit ", ") (map f (x :: l))) as [|c s] eqn:E.
  - exfalso.
    destruct (literal_value_clean (f x) x (Hf x (or_introl eq_refl))) as (Hne & _).
    apply Hne. cbn [map join] in E.
    destruct (map f l); [assumption|].
    destruct (f x); [reflexivity | discriminate E].
  - rewrite <- E. rewrite tokens_join by (assumption || discriminate).
    apply literal_values_map. assumption.
Qed.

Lemma literals_16bit v :
  0 <= v <= 65535 ->
  literal_value (hex2 v) = Some v /\ literal_value (hex4 v) = Some v.
Proof.
  assert (H : forallb (fun v =>
                match literal_value (hex2 v), literal_value (hex4 v) with
                | Some u, Some u' => (u =? v) && (u' =? v)
                | _, _ => false
                end) (upto (256 * 256) 0) = true) by (vm_compute; reflexivity).
  rewrite forallb_forall in H. intros Hv.
  specialize (H v (upto_In (256 * 256) 0 v ltac:(lia))).
  destruct (literal_value (hex2 v)) as [u|]; [|discriminate H].
  destruct (literal_value (hex4 v)) as [u'|]; [|discriminate H].
  apply andb_true_iff in H. destruct H as (H1 & H2).
  apply Z.eqb_eq in H1, H2. subst. auto.
Qed.

Lemma row_major_elements emit pixels w h (P : Z -> Prop) :
  length pixels = (w * h)%nat ->
  (forall p, In p pixels -> Forall P (emit p)) ->
  exists out, row_major emit pixels w h = Normal out /\ Forall P out.
Proof.
  intros Hlen Hemit. rewrite row_major_spec by lia.
  rewrite <- Hlen, firstn_all.
  eexists. split; [reflexivity|].
  apply Forall_flat_map. apply Forall_forall. intros p Hp.
  apply Hemit. assumption.
Qed.

Lemma bits_bytes_range (f : nat -> nat -> list Z) (n : nat) :
  (forall y, Forall (fun e => 0 <= e <= 65535) (f y n)) ->
  Forall (fun e => 0 <= e <= 65535) (flat_map (fun y => f y n) (seq 0 n)).
Proof.
  intros H. apply Forall_flat_map. apply Forall_forall. intros y _. apply H.
Qed.

Lemma row_bytes_range on pixels w y :
  Forall (fun e => 0 <= e <= 65535) (row_bytes on pixels w y).
Proof.
  unfold row_bytes. apply Forall_map. apply Forall_forall. intros k _.
  pose proof (bits_acc_range (row_bit on pixels w y k) 8 ltac:(lia)) as B.
  change (2 ^ 8) with 256 in B. lia.
Qed.

Lemma column_bytes_range on pixels w h x :
  Forall (fun e => 0 <= e <= 65535) (column_bytes on pixels w h x).
Proof.
  unfold column_bytes. apply Forall_map. apply Forall_forall. intros k _.
  pose proof (bits_acc_range (column_bit on pixels w h x k) 8 ltac:(lia)) as B.
  change (2 ^ 8) with 256 in B. lia.
Qed.

(** What the six draw modes pack, on a canvas of [w * h] pixels with
    8-bit channels: elements that fit 16 bits. *)
Lemma pack_by_drawMode_elements drawMode data w h :
  In drawMode [lit "HORIZONTAL_1BIT"; lit "VERTICAL_1BIT"; lit "HORIZONTAL_ALPHA";
               lit "HORIZONTAL_RGB565"; lit "HORIZONTAL_RGB888_24";
               lit "HORIZONTAL_RGB888_32"] ->
  length data = (w * h)%nat ->
  (forall p, In p data -> wf_pixel p) ->
  exists bytes dataType dataFormat,
    pack_by_drawMode drawMode data w h
    = Normal (Some bytes, VString dataType, VString dataFormat) /\
    Forall (fun e => 0 <= e <= 65535) bytes.
Proof.
  intros Hin Hlen Hwf. cbn [In] in Hin. unfold pack_by_drawMode.
  destruct Hin as [<-|[<-|[<-|[<-|[<-|[<-|[]]]]]]]; decide_selectors.
  - unfold pack1bit. decide_selectors. rewrite horizontal_spec by lia.
    cbn [bind app]. do 3 eexists. split; [reflexivity|].
    apply Forall_flat_map. apply Forall_forall. intros y _. apply row_bytes_range.
  - unfold pack1bit. decide_selectors. rewrite vertical_spec by lia.
    cbn [bind app]. do 3 eexists. split; [reflexivity|].
    apply Forall_flat_map. apply Forall_forall. intros y _. apply column_bytes_range.
  - unfold pack1bitAlpha. decide_selectors. rewrite horizontal_spec by lia.
    cbn [bind app]. do 3 eexists. split; [reflexivity|].
    apply Forall_flat_map. apply Forall_forall. intros y _. apply row_bytes_range.
  - destruct (row_major_elements (fun p => [rgbTo565 (r p) (g p) (b p)]) data w h
                (fun e => 0 <= e <= 65535) Hlen) as (out & E & Hout).
    + intros p Hp. destruct (Hwf p Hp) as (Hr & Hg & Hb & _).
      destruct (rgbTo565_range (r p) (g p) (b p) Hr Hg Hb) as (B & _).
      change (2 ^ 16) with 65536 in B. constructor; [lia | constructor].
    + unfold packRGB565. rewrite E. cbn [bind]. eauto.
  - destruct (row_major_elements (fun p => [r p; g p; b p]) data w h
                (fun e => 0 <= e <= 65535) Hlen) as (out & E & Hout).
    + intros p Hp. destruct (Hwf p Hp) as (Hr & Hg & Hb & _). unfold channel in *.
      repeat constructor; lia.
    + unfold packRGB24. rewrite E. cbn [bind]. eauto.
  - destruct (row_major_elements (fun p => [r p; g p; b p; a p]) data w h
                (fun e => 0 <= e <= 65535) Hlen) as (out & E & Hout).
    + intros p Hp. destruct (Hwf p Hp) as (Hr & Hg & Hb & Ha). unfold channel in *.
      repeat constructor; lia.
    + rewrite E. cbn [bind]. eauto.
Qed.

(** The array in the generated text is the packed data: for each of the
    six draw modes and four output formats, on a canvas of [w * h] pixels
    with 8-bit channels, the text returned is the text of the format with
    the element count and a listing of hexadecimal literals that read
    back, in order, as the elements packed for the draw mode. *)
Theorem listing_reads_back name drawMode outputFormat data w h :
  In drawMode [lit "HORIZONTAL_1BIT"; lit "VERTICAL_1BIT"; lit "HORIZONTAL_ALPHA";
               lit "HORIZONTAL_RGB565"; lit "HORIZONTAL_RGB888_24";
               lit "HORIZONTAL_RGB888_32"] ->
  In outputFormat [lit "PLAIN_BYTES"; lit "ARDUINO_CODE"; lit "ARDUINO_SINGLE_BITMAP";
                   lit "GFX_BITMAP_FONT"] ->
  length data = (w * h)%nat ->
  (forall p, In p data -> wf_pixel p) ->
  exists bytes dataType dataFormat listing,
    pack_by_drawMode drawMode data w h
    = Normal (Some bytes, VString dataType, VString dataFormat) /\
    generateCppCode name drawMode outputFormat data w h
    = Normal (VString (fill (sanitize name)
        (generated_text drawMode outputFormat w h (length bytes)
           dataType dataFormat listing))) /\
    read_listing listing = Some bytes.
Proof.
  intros Hdm Hof Hlen Hwf.
  destruct (pack_by_drawMode_elements drawMode data w h Hdm Hlen Hwf)
    as (bytes & dataType & dataFormat & E & Hrange).
  rewrite Forall_forall in Hrange.
  assert (Hfmt : read_listing (join (lit ", ")
                   (map (formatByte (VString dataType)) bytes)) = Some bytes).
  { apply read_listing_join. intros x Hx. unfold formatByte.
    destruct (literals_16bit x (Hrange x Hx)) as (H2 & H4).
    destruct (value_is (VString dataType) (lit "uint16_t")); assumption. }
  assert (Hhex : read_listing (join (lit ", ") (map hex2 bytes)) = Some bytes).
  { apply read_listing_join. intros x Hx.
    apply (literals_16bit x (Hrange x Hx)). }
  exists bytes, dataType, dataFormat.
  unfold generateCppCode, generated_text. cbv zeta. rewrite E. cbn [bind].
  cbn [In] in Hof.
  destruct Hof as [<-|[<-|[<-|[<-|[]]]]]; decide_selectors.
  - eexists. split; [reflexivity|]. split; [|exact Hfmt].
    unfold generatePlainBytes. cbn [receiver bind]. reflexivity.
  - eexists. split; [reflexivity|]. split; [|exact Hfmt].
    unfold generateArduinoCode. cbn [receiver bind].
    destruct (includes drawMode (lit "1BIT")); [reflexivity|].
    destruct (includes drawMode (lit "RGB565")); reflexivity.
  - eexists. split; [reflexivity|]. split; [|exact Hfmt].
    unfold generateArduinoSingleBitmap. cbn [receiver bind]. reflexivity.
  - eexists. split; [reflexivity|]. split; [|exact Hhex].
    unfold generateGFXBitmapFont. cbn [receiver bind]. reflexivity.
Qed.

Lemma listing_reads_back_witness :
  exists bytes dataType dataFormat listing,
    pack_by_drawMode (lit "HORIZONTAL_RGB565") [mkPixel 255 0 0 255] 1 1
    = Normal (Some bytes, VString dataType, VString dataFormat) /\
    generateCppCode (lit "sprite") (lit "HORIZONTAL_RGB565") (lit "PLAIN_BYTES")
      [mkPixel 255 0 0 255] 1 1
    = Normal (VString (fill (sanitize (lit "sprite"))
        (generated_text (lit "HORIZONTAL_RGB565") (lit "PLAIN_BYTES") 1 1 (length bytes)
           dataType dataFormat listing))) /\
    read_listing listing = Some bytes.
Proof.
  apply listing_reads_back; [cbn; auto 10 | cbn; auto 10 | reflexivity |].
  intros p [<- | []]. unfold wf_pixel, channel. cbn. lia.
Defined.
